(** * The RAG ingestion and retrieval engine of aihub, embedded in Rocq

    The development follows the TypeScript sources of the worker:

    - [JS]         the string and array primitives the code relies on
                   (UTF-16 code units, [trim], [slice], [indexOf], [replace],
                   the regular expressions used with [split]);
    - [Chunker]    [SemanticChunker] (src/worker/semantic-chunker.ts);
    - [Sections]   its [extractSections];
    - [Store]      [PineconeVectorStore] (pinecone-store.ts);
    - [Processor]  [PineconeRAGProcessor] (pinecone-rag-processor.ts);
    - [Helpers]    its helper methods [cleanText], [extractYouTubeId] and
                   [chunkTextSimple];
    - [Worker]     the DELETE endpoint and the queue consumer of
                   src/worker/index.ts;
    - [Pipeline]   the retries of a job, the prompt of an execution and
                   [supportsCustomTemperature] of src/worker/index.ts.

    JavaScript numbers that the code only uses as integers (lengths, indices,
    counts, identifiers, milliseconds) are [Z]; numbers that carry fractional
    values (similarity scores, embeddings) are binary64 floats, which are
    exactly JavaScript's numbers. *)

From Stdlib Require Import ZArith NArith List Bool Lia String Ascii.
From Stdlib Require Import Floats Uint63 DecimalString.
From stdpp Require Import gmap strings.
Import ListNotations.

Set Warnings "-inexact-float,-abstract-large-number".
Set Default Proof Using "Type".

(* ===================================================================== *)
(** * JavaScript strings                                                   *)
(* ===================================================================== *)

Module JS.

Local Open Scope Z_scope.

(** A string is its sequence of UTF-16 code units. *)
Definition jsstring : Type := list N.

(** A Rocq literal, read as a string of Latin-1 code units. *)
Definition js (s : string) : jsstring :=
  List.map N_of_ascii (list_ascii_of_string s).

Definition len (s : jsstring) : Z := Z.of_nat (length s).

Definition concat (l : list jsstring) : jsstring := List.concat l.

(** WhiteSpace and LineTerminator of ECMA-262: what [String.prototype.trim]
    strips and what [\s] matches. *)
Definition is_space (c : N) : bool :=
  ((9 <=? c) && (c <=? 13) || (c =? 32) || (c =? 160) || (c =? 5760)
   || (8192 <=? c) && (c <=? 8202) || (c =? 8232) || (c =? 8233)
   || (c =? 8239) || (c =? 8287) || (c =? 12288) || (c =? 65279))%N.

(** The character class [[.!?]]. *)
Definition is_terminator (c : N) : bool :=
  ((c =? 46) || (c =? 33) || (c =? 63))%N.

(** The character class [\d]. *)
Definition is_digit (c : N) : bool := ((48 <=? c) && (c <=? 57))%N.

Definition SPACE : N := 32%N.
Definition NEWLINE : N := 10%N.
Definition DOT : N := 46%N.

Fixpoint trimStart (s : jsstring) : jsstring :=
  match s with
  | c :: r => if is_space c then trimStart r else s
  | [] => []
  end.

Definition trimEnd (s : jsstring) : jsstring := rev (trimStart (rev s)).

Definition trim (s : jsstring) : jsstring := trimEnd (trimStart s).

(** How [slice] reads an index: negative counts from the end, and both ends
    are clamped to the string. *)
Definition relativeIndex (size i : Z) : Z :=
  if i <? 0 then Z.max (size + i) 0 else Z.min i size.

(** [s.slice(a, b)] *)
Definition slice (s : jsstring) (a b : Z) : jsstring :=
  let from := relativeIndex (len s) a in
  let to := relativeIndex (len s) b in
  firstn (Z.to_nat (to - from)) (skipn (Z.to_nat from) s).

(** [s.slice(a)] *)
Definition sliceFrom (s : jsstring) (a : Z) : jsstring := slice s a (len s).

(** [arr.slice(a, b)] on arrays, same index rules. *)
Definition arraySlice {A} (l : list A) (a b : Z) : list A :=
  let size := Z.of_nat (length l) in
  let from := relativeIndex size a in
  let to := relativeIndex size b in
  firstn (Z.to_nat (to - from)) (skipn (Z.to_nat from) l).

Fixpoint startsWith (s pat : jsstring) : bool :=
  match pat, s with
  | [], _ => true
  | p :: pat', c :: s' => (p =? c)%N && startsWith s' pat'
  | _ :: _, [] => false
  end.

Fixpoint indexOfFrom (s pat : jsstring) (i : Z) : Z :=
  if startsWith s pat then i
  else match s with
       | [] => -1
       | _ :: r => indexOfFrom r pat (i + 1)
       end.

(** [s.indexOf(pat)]: the first position, or [-1]. *)
Definition indexOf (s pat : jsstring) : Z := indexOfFrom s pat 0.

(** [s.includes(pat)] *)
Definition includes (s pat : jsstring) : bool := 0 <=? indexOf s pat.

Fixpoint lastIndexOfCharFrom (s : jsstring) (c : N) (i : Z) (found : Z) : Z :=
  match s with
  | [] => found
  | x :: r => lastIndexOfCharFrom r c (i + 1) (if (x =? c)%N then i else found)
  end.

(** [s.lastIndexOf(c)] for a one-character pattern: the last position, or
    [-1]. *)
Definition lastIndexOfChar (s : jsstring) (c : N) : Z :=
  lastIndexOfCharFrom s c 0 (-1).

(** [arr.join(sep)] *)
Fixpoint join (sep : jsstring) (l : list jsstring) : jsstring :=
  match l with
  | [] => []
  | [x] => x
  | x :: r => x ++ sep ++ join sep r
  end.

(** [s[i]]: the code unit at [i], [None] for [undefined]. *)
Definition charAt (s : jsstring) (i : Z) : option N :=
  if i <? 0 then None else nth_error s (Z.to_nat i).

(** ** [String.prototype.split] with a regular expression

    A regular expression is given by its sticky matcher: from the code unit
    before the position (for a look-behind) and the text at the position, the
    length of the match there, if any. None of the expressions used by the
    code matches the empty string, so every match ends a piece. [splitAux]
    walks the text once: [skip] counts the code units of the current match
    still to be consumed and [cur] holds the piece being read, reversed. *)
Definition matcher : Type := option N -> jsstring -> option nat.

Fixpoint splitAux (m : matcher) (prev : option N) (s : jsstring)
         (skip : nat) (cur : jsstring) : list jsstring :=
  match s with
  | [] => [rev cur]
  | c :: r =>
      match skip with
      | S k => splitAux m (Some c) r k cur
      | O =>
          match m prev s with
          | Some (S k) => rev cur :: splitAux m (Some c) r k []
          | _ => splitAux m (Some c) r O (c :: cur)
          end
      end
  end.

Definition split (m : matcher) (s : jsstring) : list jsstring :=
  splitAux m None s O [].

(** Length of the longest prefix whose code units all satisfy [p]. *)
Fixpoint spanLength (p : N -> bool) (s : jsstring) : nat :=
  match s with
  | c :: r => if p c then S (spanLength p r) else O
  | [] => O
  end.

(** Position just after the last line feed among the first [n] code units,
    if there is one. *)
Fixpoint lastNewlineWithin (s : jsstring) (n : nat) : option nat :=
  match n, s with
  | S n', c :: r =>
      match lastNewlineWithin r n' with
      | Some k => Some (S k)
      | None => if (c =? NEWLINE)%N then Some 1%nat else None
      end
  | _, _ => None
  end.

(** [/\n\s*\n/]: a line feed, then the longest run of white space that still
    ends in a line feed (the star is greedy and backtracks). *)
Definition reBlankLine : matcher := fun _ s =>
  match s with
  | c :: r =>
      if (c =? NEWLINE)%N then
        match lastNewlineWithin r (spanLength is_space r) with
        | Some k => Some (S k)
        | None => None
        end
      else None
  | [] => None
  end.

(** [/(?<=[.!?])\s+/]: white space that follows a sentence terminator. *)
Definition reAfterTerminator : matcher := fun prev s =>
  match prev with
  | Some p =>
      if is_terminator p then
        match spanLength is_space s with
        | O => None
        | n => Some n
        end
      else None
  | None => None
  end.

(** [/[.!?]+/]: a run of sentence terminators. *)
Definition reTerminators : matcher := fun _ s =>
  match spanLength is_terminator s with
  | O => None
  | n => Some n
  end.

(** [/\s+/]: a run of white space. *)
Definition reSpaces : matcher := fun _ s =>
  match spanLength is_space s with
  | O => None
  | n => Some n
  end.

(** [/[.!?]$/.test(s)] *)
Definition endsWithTerminator (s : jsstring) : bool :=
  match rev s with
  | c :: _ => is_terminator c
  | [] => false
  end.


(** ** [String.prototype.replace] with a global regular expression

    Every match, from left to right, gives way to [replacement]; [skip] counts
    the code units of the current match still to be passed over. *)
Fixpoint replaceAux (m : matcher) (replacement : jsstring) (prev : option N)
         (s : jsstring) (skip : nat) : jsstring :=
  match s with
  | [] => []
  | c :: r =>
      match skip with
      | S k => replaceAux m replacement (Some c) r k
      | O =>
          match m prev s with
          | Some (S k) => replacement ++ replaceAux m replacement (Some c) r k
          | _ => c :: replaceAux m replacement (Some c) r O
          end
      end
  end.

Definition replaceAll (m : matcher) (replacement s : jsstring) : jsstring :=
  replaceAux m replacement None s O.

(** [/\n+/]: a run of line feeds. *)
Definition reLineFeeds : matcher := fun _ s =>
  match spanLength (fun c => c =? NEWLINE)%N s with
  | O => None
  | n => Some n
  end.

(** The separator ['\n'] of [split]. *)
Definition reLineFeed : matcher := fun _ s =>
  match s with
  | c :: _ => if (c =? NEWLINE)%N then Some 1%nat else None
  | [] => None
  end.

(** LineTerminator of ECMA-262: what [.] does not match. *)
Definition is_lineTerminator (c : N) : bool :=
  ((c =? 10) || (c =? 13) || (c =? 8232) || (c =? 8233))%N.

(** The first position of [s], from the left, at which [f] finds something:
    how an expression that is not anchored is searched. *)
Fixpoint searchFrom {A} (f : jsstring -> option A) (s : jsstring) : option A :=
  match f s with
  | Some x => Some x
  | None =>
      match s with
      | [] => None
      | _ :: r => searchFrom f r
      end
  end.

(** The text after the literal [pat], when [s] starts with it. *)
Definition afterLiteral (s pat : jsstring) : option jsstring :=
  if startsWith s pat then Some (skipn (length pat) s) else None.

End JS.

(* ===================================================================== *)
(** * JavaScript numbers with fractional values                           *)
(* ===================================================================== *)

Module Num.

Local Open Scope float_scope.

(** The float of an integer (a length or a count, far below 2^53). *)
Definition ofZ (z : Z) : float := PrimFloat.of_uint63 (Uint63.of_Z z).

(** [Math.max(a, b)] *)
Definition mathMax (a b : float) : float :=
  if PrimFloat.is_nan a || PrimFloat.is_nan b then PrimFloat.nan
  else if a <? b then b
  else if (a =? b) && (a =? 0) then a + b
  else a.

(** [x || 0] on a number: [0], [-0] and [NaN] are falsy. *)
Definition orZero (x : float) : float :=
  if PrimFloat.is_nan x || (x =? 0) then 0 else x.

(** Truthiness of a number. *)
Definition truthy (x : float) : bool :=
  negb (PrimFloat.is_nan x || (x =? 0)).

(** [a >= b] *)
Definition geb (a b : float) : bool := b <=? a.

End Num.

(* ===================================================================== *)
(** * SemanticChunker (src/worker/semantic-chunker.ts)                     *)
(* ===================================================================== *)

Module Chunker.

Import JS.
Local Open Scope Z_scope.

Inductive ChunkType : Type :=
| paragraph | sentence | recursive | semantic
| recursive_max_depth | recursive_small | recursive_forced.

(** [SemanticChunk.metadata]; an absent or [undefined] field is [None]. The
    field [length] of the source is [length_]. *)
Record ChunkMetadata : Type := {
  chunk_type : ChunkType;
  start_index : Z;
  end_index : Z;
  length_ : Z;
  semantic_similarity : option float;
  parent_chunk : option Z;
  sentence_count : option Z
}.

Record SemanticChunk : Type := {
  content : jsstring;
  metadata : ChunkMetadata;
  chunk_index : Z
}.

(** The [strategy] argument; [other] is any string outside the four names
    (the settings column is a free string, cast with [as any]). *)
Inductive Strategy : Type :=
| byParagraph | bySentence | byRecursion | bySemantic | other.

(** ** Helper methods *)

Definition appendDot (s : jsstring) : jsstring := s ++ [DOT].

Definition splitIntoSentences (text : jsstring) : list jsstring :=
  let sentences :=
    List.map (fun s => if endsWithTerminator s then s else appendDot s)
      (List.filter (fun s => 10 <? len s)
         (List.map trim (split reAfterTerminator text))) in
  if Z.of_nat (length sentences) <=? 1 then
    List.map appendDot
      (List.filter (fun s => 5 <? len s)
         (List.map trim (split reTerminators text)))
  else sentences.

Definition countSentences (text : jsstring) : Z :=
  Z.of_nat (length (List.filter (fun s => 0 <? len (trim s))
                      (split reTerminators text))).

(** The loop of [getOverlapText], [i] running from the last sentence down:
    [suffixes] lists [sentences.slice(i)] for [i = length-1, ..., 0]. *)
Fixpoint firstFitting (suffixes : list (list jsstring)) (overlapSize : Z)
  : jsstring :=
  match suffixes with
  | [] => []
  | suffix :: more =>
      let candidate := join [SPACE] suffix in
      if len candidate <=? overlapSize then candidate
      else firstFitting more overlapSize
  end.

(** [sentences.slice(i)] for [i = length-1] down to [0]. *)
Fixpoint suffixesFromLast (sentences : list jsstring) : list (list jsstring) :=
  match sentences with
  | [] => []
  | _ :: r => suffixesFromLast r ++ [sentences]
  end.

Definition getOverlapText (text : jsstring) (overlapSize : Z) : jsstring :=
  if len text <=? overlapSize then text
  else
    let sentences := splitIntoSentences text in
    let overlap := firstFitting (suffixesFromLast sentences) overlapSize in
    match overlap with
    | [] => sliceFrom text (- overlapSize)
    | _ => overlap
    end.

(** ** Paragraph strategy *)

Definition accumulated (kind : ChunkType) (currentChunk : jsstring)
           (startIndex chunkIndex : Z) : SemanticChunk :=
  {| content := trim currentChunk;
     metadata := {| chunk_type := kind;
                    start_index := startIndex;
                    end_index := startIndex + len currentChunk;
                    length_ := len currentChunk;
                    semantic_similarity := None;
                    parent_chunk := None;
                    sentence_count := Some (countSentences currentChunk) |};
     chunk_index := chunkIndex |}.

Definition PARAGRAPH_BREAK : jsstring := [NEWLINE; NEWLINE].

Fixpoint paragraphLoop (text : jsstring) (maxChunkSize overlap : Z)
         (paragraphs : list jsstring) (chunks : list SemanticChunk)
         (currentChunk : jsstring) (chunkIndex startIndex : Z)
  : list SemanticChunk :=
  match paragraphs with
  | [] =>
      if 0 <? len (trim currentChunk)
      then chunks ++ [accumulated paragraph currentChunk startIndex chunkIndex]
      else chunks
  | p :: rest =>
      let trimmedParagraph := trim p in
      if (maxChunkSize <? len currentChunk + len trimmedParagraph)
         && (0 <? len currentChunk) then
        let chunks' :=
          chunks ++ [accumulated paragraph currentChunk startIndex chunkIndex] in
        let overlapText := getOverlapText currentChunk overlap in
        let currentChunk' := overlapText ++ PARAGRAPH_BREAK ++ trimmedParagraph in
        paragraphLoop text maxChunkSize overlap rest chunks' currentChunk'
          (chunkIndex + 1)
          (startIndex + len currentChunk' - len overlapText)
      else if 0 <? len currentChunk then
        paragraphLoop text maxChunkSize overlap rest chunks
          (currentChunk ++ PARAGRAPH_BREAK ++ trimmedParagraph)
          chunkIndex startIndex
      else
        paragraphLoop text maxChunkSize overlap rest chunks trimmedParagraph
          chunkIndex (indexOf text trimmedParagraph)
  end.

Definition nonBlank (p : jsstring) : bool := 0 <? len (trim p).

Definition chunkByParagraphs (text : jsstring) (maxChunkSize overlap : Z)
  : list SemanticChunk :=
  let paragraphs := List.filter nonBlank (split reBlankLine text) in
  paragraphLoop text maxChunkSize overlap paragraphs [] [] 0 0.

(** ** Sentence strategy *)

Fixpoint sentenceLoop (text : jsstring) (maxChunkSize overlap : Z)
         (sentences : list jsstring) (chunks : list SemanticChunk)
         (currentChunk : jsstring) (chunkIndex startIndex : Z)
  : list SemanticChunk :=
  match sentences with
  | [] =>
      if 0 <? len (trim currentChunk)
      then chunks ++ [accumulated sentence currentChunk startIndex chunkIndex]
      else chunks
  | s :: rest =>
      if (maxChunkSize <? len currentChunk + len s) && (0 <? len currentChunk)
      then
        let chunks' :=
          chunks ++ [accumulated sentence currentChunk startIndex chunkIndex] in
        let overlapText := getOverlapText currentChunk overlap in
        let currentChunk' := overlapText ++ [SPACE] ++ s in
        sentenceLoop text maxChunkSize overlap rest chunks' currentChunk'
          (chunkIndex + 1)
          (startIndex + len currentChunk' - len overlapText)
      else if 0 <? len currentChunk then
        sentenceLoop text maxChunkSize overlap rest chunks
          (currentChunk ++ [SPACE] ++ s) chunkIndex startIndex
      else
        sentenceLoop text maxChunkSize overlap rest chunks s
          chunkIndex (indexOf text s)
  end.

Definition chunkBySentences (text : jsstring) (maxChunkSize overlap : Z)
  : list SemanticChunk :=
  sentenceLoop text maxChunkSize overlap (splitIntoSentences text) [] [] 0 0.

(** ** Recursive strategy

    [recursiveChunk] pushes onto the array [chunks] it closes over, so the
    array is threaded through. Its [depth] argument is only compared with the
    cap of 10; [budget] is [11 - depth], so that [budget = 0] is the branch
    [depth > 10] and every recursive call, made at [depth + 1], has one less. *)

Definition emitted (kind : ChunkType) (maxChunkSize : Z) (withParent : bool)
           (sentences : Z) (body : jsstring) (parentIndex : Z)
           (chunks : list SemanticChunk) : list SemanticChunk :=
  if 0 <? len (trim body) then
    chunks ++
      [{| content := trim body;
          metadata := {| chunk_type := kind;
                         start_index := parentIndex;
                         end_index := parentIndex + len body;
                         length_ := len body;
                         semantic_similarity := None;
                         parent_chunk :=
                           if withParent && (0 <? parentIndex)
                           then Some (parentIndex / maxChunkSize) else None;
                         sentence_count := Some sentences |};
          chunk_index := Z.of_nat (length chunks) |}]
  else chunks.

(** The search of the last-resort split: the first [i] from [from], at most
    [count] positions on, with a space or a line feed at [content[i]]. *)
Fixpoint findWordBoundary (body : jsstring) (from : Z) (count : nat)
  : option Z :=
  match count with
  | O => None
  | S n =>
      match charAt body from with
      | Some c =>
          if ((c =? SPACE) || (c =? NEWLINE))%N then Some from
          else findWordBoundary body (from + 1) n
      | None => findWordBoundary body (from + 1) n
      end
  end.

Definition splitPointOf (body : jsstring) : Z :=
  let midpoint := len body / 2 in
  let searchRange := len body / 5 in
  let lo := Z.max 0 (midpoint - searchRange) in
  let hi := Z.min (len body) (midpoint + searchRange) in
  match findWordBoundary body lo (Z.to_nat (hi - lo + 1)) with
  | Some i => i
  | None => midpoint
  end.

(** The accumulation loops of the paragraph and sentence branches; [recurse]
    is [recursiveChunk] at [depth + 1], [gap] the separator and [slack] its
    length as the size test counts it. *)
Fixpoint accumulateLoop (recurse : jsstring -> Z -> list SemanticChunk ->
                                   list SemanticChunk)
         (maxChunkSize overlap : Z) (gap : jsstring) (slack : Z)
         (units : list jsstring) (currentChunk : jsstring) (chunkStart : Z)
         (chunks : list SemanticChunk) : list SemanticChunk :=
  match units with
  | [] =>
      if 0 <? len (trim currentChunk)
      then recurse (trim currentChunk) chunkStart chunks
      else chunks
  | u :: rest =>
      if (maxChunkSize <? len currentChunk + len u + slack)
         && (0 <? len currentChunk) then
        let chunks' := recurse (trim currentChunk) chunkStart chunks in
        let overlapText := getOverlapText currentChunk overlap in
        let currentChunk' :=
          overlapText ++ (match overlapText with [] => [] | _ => gap end) ++ u in
        accumulateLoop recurse maxChunkSize overlap gap slack rest currentChunk'
          (chunkStart + (len currentChunk' - len overlapText - len u)) chunks'
      else if 0 <? len currentChunk then
        accumulateLoop recurse maxChunkSize overlap gap slack rest
          (currentChunk ++ gap ++ u) chunkStart chunks
      else
        accumulateLoop recurse maxChunkSize overlap gap slack rest
          u chunkStart chunks
  end.

Fixpoint recursiveChunk (budget : nat) (maxChunkSize overlap : Z)
         (body : jsstring) (parentIndex : Z) (chunks : list SemanticChunk)
  : list SemanticChunk :=
  match budget with
  | O =>
      emitted recursive_max_depth maxChunkSize true (countSentences body)
        body parentIndex chunks
  | S budget' =>
      if len body <=? maxChunkSize then
        emitted recursive maxChunkSize true (countSentences body)
          body parentIndex chunks
      else if len body <? 50 then
        emitted recursive_small maxChunkSize false 1 body parentIndex chunks
      else
        let recurse := recursiveChunk budget' maxChunkSize overlap in
        let paragraphs := List.filter nonBlank (split reBlankLine body) in
        if 1 <? Z.of_nat (length paragraphs) then
          accumulateLoop recurse maxChunkSize overlap PARAGRAPH_BREAK 2
            (List.filter (fun p => negb (len p =? 0)) (List.map trim paragraphs))
            [] parentIndex chunks
        else
          let sentences := splitIntoSentences body in
          if 1 <? Z.of_nat (length sentences) then
            accumulateLoop recurse maxChunkSize overlap [SPACE] 1
              sentences [] parentIndex chunks
          else
            let splitPoint := splitPointOf body in
            let beforeSplit := trim (slice body 0 splitPoint) in
            let afterSplit := trim (sliceFrom body splitPoint) in
            if (0 <? len beforeSplit) && (0 <? len afterSplit) then
              recurse afterSplit (parentIndex + splitPoint)
                (recurse beforeSplit parentIndex chunks)
            else
              emitted recursive_forced maxChunkSize false (countSentences body)
                body parentIndex chunks
  end.

Definition chunkRecursively (text : jsstring) (maxChunkSize overlap : Z)
  : list SemanticChunk :=
  List.filter (fun chunk => 0 <? len (trim (content chunk)))
    (recursiveChunk 11 maxChunkSize overlap text 0 []).

(** ** Semantic strategy *)

(** [simpleCharacterSplit]. The [while] loop is run on [fuel]: [None] means
    that the loop is still running when the fuel is spent. The test
    [lastSpace > maxSize * 0.8] compares an integer index with a product that
    is within rounding of [4 * maxSize / 5], hence the integer form. *)
Fixpoint simpleCharacterSplitLoop (fuel : nat) (text : jsstring)
         (maxSize overlap : Z) (start : Z) (chunks : list jsstring)
  : option (list jsstring) :=
  match fuel with
  | O => None
  | S fuel' =>
      if start <? len text then
        let end_ := Z.min (start + maxSize) (len text) in
        let chunk := slice text start end_ in
        let chunk :=
          if end_ <? len text then
            let lastSpace := lastIndexOfChar chunk SPACE in
            if 4 * maxSize <? 5 * lastSpace
            then slice text start (start + lastSpace)
            else chunk
          else chunk in
        simpleCharacterSplitLoop fuel' text maxSize overlap
          (end_ - overlap) (chunks ++ [chunk])
      else Some chunks
  end.

Definition simpleCharacterSplit (fuel : nat) (text : jsstring)
           (maxSize overlap : Z) : option (list jsstring) :=
  simpleCharacterSplitLoop fuel text maxSize overlap 0 [].

Definition vector : Type := list float.

(** The sums of [calculateSimilarity], over the two vectors in step. *)
Fixpoint similaritySums (vec1 vec2 : vector) (dotProduct norm1 norm2 : float)
  : float * float * float :=
  match vec1, vec2 with
  | x :: r1, y :: r2 =>
      similaritySums r1 r2 (dotProduct + x * y)%float (norm1 + x * x)%float
        (norm2 + y * y)%float
  | _, _ => (dotProduct, norm1, norm2)
  end.

Definition calculateSimilarity (vec1 vec2 : vector) : float :=
  if negb (Nat.eqb (length vec1) (length vec2)) then 0%float
  else
    let '(dotProduct, norm1, norm2) := similaritySums vec1 vec2 0 0 0 in
    (dotProduct / (PrimFloat.sqrt norm1 * PrimFloat.sqrt norm2))%float.

Definition calculateMean (numbers : list float) : float :=
  (fold_left PrimFloat.add numbers 0 / Num.ofZ (Z.of_nat (length numbers)))%float.

Definition calculateStdDev (numbers : list float) : float :=
  let mean := calculateMean numbers in
  let variance :=
    (fold_left (fun sum num => sum + (num - mean) * (num - mean)) numbers 0
     / Num.ofZ (Z.of_nat (length numbers)))%float in
  PrimFloat.sqrt variance.

(** [similarities[i] = calculateSimilarity(embeddings[i], embeddings[i+1])] *)
Fixpoint adjacentSimilarities (embeddings : list vector) : list float :=
  match embeddings with
  | a :: ((b :: _) as rest) => calculateSimilarity a b :: adjacentSimilarities rest
  | _ => []
  end.

(** The breakpoint loop: [i] is the index of the head of [similarities]. *)
Fixpoint breakpointLoop (similarities : list float) (threshold : float)
         (i : Z) (breakpoints : list Z) : list Z :=
  match similarities with
  | [] => breakpoints
  | s :: rest =>
      let lastBreakpoint := List.last breakpoints 0 in
      if (s <? threshold)%float && negb (lastBreakpoint =? i + 1)
      then breakpointLoop rest threshold (i + 1) (breakpoints ++ [i + 1])
      else breakpointLoop rest threshold (i + 1) breakpoints
  end.

(** [i > 0 && similarities[start - 1] ? similarities[start - 1] : undefined] *)
Definition similarityBefore (similarities : list float) (i start : Z)
  : option float :=
  if 0 <? i then
    match (if start - 1 <? 0 then None
           else nth_error similarities (Z.to_nat (start - 1))) with
    | Some s => if Num.truthy s then Some s else None
    | None => None
    end
  else None.

Definition semanticPart (text : jsstring) (similarity : option float)
           (chunkIndex : Z) (part : jsstring) : SemanticChunk :=
  {| content := trim part;
     metadata := {| chunk_type := semantic;
                    start_index := indexOf text (trim part);
                    end_index := indexOf text (trim part) + len part;
                    length_ := len part;
                    semantic_similarity := similarity;
                    parent_chunk := None;
                    sentence_count := Some (countSentences part) |};
     chunk_index := chunkIndex |}.

(** The [for (const part of parts)] loop. *)
Fixpoint pushParts (text : jsstring) (similarity : option float)
         (parts : list jsstring) (chunks : list SemanticChunk) (chunkIndex : Z)
  : list SemanticChunk * Z :=
  match parts with
  | [] => (chunks, chunkIndex)
  | part :: rest =>
      pushParts text similarity rest
        (chunks ++ [semanticPart text similarity chunkIndex part])
        (chunkIndex + 1)
  end.

Section Semantic.

(** The embedding service: the answer to the request made for the batch that
    starts at sentence [i], [None] when the request fails. Any list of vectors
    may come back. *)
Variable embedBatch : Z -> list jsstring -> option (list vector).

(** The batch loop, [i] stepping by 5; it runs at most once per sentence, so
    [steps] is set to their number. *)
Fixpoint embedLoop (steps : nat) (limitedSentences : list jsstring) (i : Z)
         (embeddings : list vector) : list vector :=
  match steps with
  | O => embeddings
  | S steps' =>
      if i <? Z.of_nat (length limitedSentences) then
        let batch := List.filter (fun s => 10 <? len (trim s))
                       (arraySlice limitedSentences i (i + 5)) in
        match batch with
        | [] => embedLoop steps' limitedSentences (i + 5) embeddings
        | _ =>
            match embedBatch i batch with
            | Some data =>
                embedLoop steps' limitedSentences (i + 5) (embeddings ++ data)
            | None => embedLoop steps' limitedSentences (i + 5) embeddings
            end
        end
      else embeddings
  end.

(** The chunk-building loop over consecutive breakpoints; [None] when a
    sub-split is still running at the end of the fuel. *)
Fixpoint groupLoop (fuel : nat) (text : jsstring) (maxChunkSize overlap : Z)
         (sentences : list jsstring) (similarities : list float)
         (breakpoints : list Z) (i : Z)
         (chunks : list SemanticChunk) (chunkIndex : Z)
  : option (list SemanticChunk) :=
  match breakpoints with
  | start :: ((end_ :: _) as rest) =>
      let chunkSentences := arraySlice sentences start end_ in
      let body := trim (join [SPACE] chunkSentences) in
      if len body =? 0 then
        groupLoop fuel text maxChunkSize overlap sentences similarities rest
          (i + 1) chunks chunkIndex
      else if 3 * maxChunkSize <? 2 * len body then
        match simpleCharacterSplit fuel body maxChunkSize overlap with
        | None => None
        | Some parts =>
            let '(chunks', chunkIndex') :=
              pushParts text (similarityBefore similarities i start) parts
                chunks chunkIndex in
            groupLoop fuel text maxChunkSize overlap sentences similarities rest
              (i + 1) chunks' chunkIndex'
        end
      else
        let startIndex := indexOf text (List.hd [] chunkSentences) in
        groupLoop fuel text maxChunkSize overlap sentences similarities rest
          (i + 1)
          (chunks ++
             [{| content := body;
                 metadata :=
                   {| chunk_type := semantic;
                      start_index := startIndex;
                      end_index := startIndex + len body;
                      length_ := len body;
                      semantic_similarity :=
                        similarityBefore similarities i start;
                      parent_chunk := None;
                      sentence_count :=
                        Some (Z.of_nat (length chunkSentences)) |};
                 chunk_index := chunkIndex |}])
          (chunkIndex + 1)
  | _ => Some chunks
  end.

(** [chunkBySemantic]. Its [try]/[catch] has nothing to catch here: a failed
    request is absorbed by the inner [catch] (the [None] of [embedBatch]) and
    no other step of the model raises. *)
Definition chunkBySemantic (fuel : nat) (text : jsstring)
           (maxChunkSize overlap : Z) : option (list SemanticChunk) :=
  if len text <=? maxChunkSize then
    Some [{| content := trim text;
             metadata := {| chunk_type := semantic;
                            start_index := 0;
                            end_index := len text;
                            length_ := len text;
                            semantic_similarity := None;
                            parent_chunk := None;
                            sentence_count := Some (countSentences text) |};
             chunk_index := 0 |}]
  else
    let sentences := splitIntoSentences text in
    if (Z.of_nat (length sentences) <=? 2)
       || existsb (fun s => len (trim s) =? 0) sentences
    then Some (chunkByParagraphs text maxChunkSize overlap)
    else
      let limitedSentences := arraySlice sentences 0 50 in
      let embeddings :=
        embedLoop (length limitedSentences) limitedSentences 0 [] in
      if Z.of_nat (length embeddings) <? 2
      then Some (chunkByParagraphs text maxChunkSize overlap)
      else
        let similarities := adjacentSimilarities embeddings in
        if Z.of_nat (length similarities) =? 0
        then Some (chunkByParagraphs text maxChunkSize overlap)
        else
          let mean := calculateMean similarities in
          let stdDev := calculateStdDev similarities in
          let threshold := Num.mathMax 0.3 (mean - stdDev * 0.5)%float in
          let breakpoints :=
            breakpointLoop similarities threshold 0 [0] ++
              [Z.min (Z.of_nat (length limitedSentences))
                 (Z.of_nat (length sentences))] in
          if Z.of_nat (length breakpoints) <=? 2
          then Some (chunkByParagraphs text maxChunkSize overlap)
          else
            match groupLoop fuel text maxChunkSize overlap sentences
                    similarities breakpoints 0 [] 0 with
            | None => None
            | Some [] => Some (chunkByParagraphs text maxChunkSize overlap)
            | Some chunks => Some chunks
            end.

(** [chunkTextSemantically] *)
Definition chunkTextSemantically (fuel : nat) (text : jsstring)
           (maxChunkSize overlap : Z) (strategy : Strategy)
  : option (list SemanticChunk) :=
  match strategy with
  | byParagraph => Some (chunkByParagraphs text maxChunkSize overlap)
  | bySentence => Some (chunkBySentences text maxChunkSize overlap)
  | byRecursion => Some (chunkRecursively text maxChunkSize overlap)
  | bySemantic => chunkBySemantic fuel text maxChunkSize overlap
  | other => Some (chunkRecursively text maxChunkSize overlap)
  end.

End Semantic.

End Chunker.

(* ===================================================================== *)
(** * SemanticChunker.extractSections (semantic-chunker.ts)               *)
(* ===================================================================== *)

Module Sections.

Import JS.
Local Open Scope Z_scope.

(** [{ title, content, level }] *)
Record DocumentSection : Type := {
  title : jsstring;
  content : jsstring;
  level : Z
}.

(** The groups a header expression captured; the third expression has no
    second group. *)
Record HeaderMatch : Type := {
  group1 : jsstring;
  group2 : option jsstring
}.

Definition HASH : N := 35%N.

(** [\s+(.+)$] after the marker of a header: the white space, then the rest
    of the line, which must hold no line terminator. When the white space
    runs to the end of the line, the plus gives back its last code unit to
    the second group. *)
Definition headerTitle (afterMarker : jsstring) : option jsstring :=
  let spaces := spanLength is_space afterMarker in
  match skipn spaces afterMarker with
  | (_ :: _) as rest =>
      if (1 <=? spaces)%nat && forallb (fun c => negb (is_lineTerminator c)) rest
      then Some rest else None
  | [] =>
      match rev afterMarker with
      | c :: _ =>
          if (2 <=? spaces)%nat && negb (is_lineTerminator c)
          then Some [c] else None
      | [] => None
      end
  end.

(** [/^(#{1,6})\s+(.+)$/] *)
Definition markdownHeader (line : jsstring) : option HeaderMatch :=
  let hashes := spanLength (fun c => c =? HASH)%N line in
  if (1 <=? hashes)%nat && (hashes <=? 6)%nat then
    match headerTitle (skipn hashes line) with
    | Some rest => Some {| group1 := firstn hashes line; group2 := Some rest |}
    | None => None
    end
  else None.

(** [/^(\d+\.)\s+(.+)$/] *)
Definition numberedHeader (line : jsstring) : option HeaderMatch :=
  let digits := spanLength is_digit line in
  match digits, skipn digits line with
  | S _, c :: afterDot =>
      if (c =? DOT)%N then
        match headerTitle afterDot with
        | Some rest =>
            Some {| group1 := firstn (S digits) line; group2 := Some rest |}
        | None => None
        end
      else None
  | _, _ => None
  end.

Definition is_capital (c : N) : bool := ((65 <=? c) && (c <=? 90))%N.

(** [/^([A-Z\s]{5,})$/] *)
Definition capitalsHeader (line : jsstring) : option HeaderMatch :=
  if (5 <=? length line)%nat
     && forallb (fun c => is_capital c || is_space c) line
  then Some {| group1 := line; group2 := None |}
  else None.

(** The three [match] calls, joined by [||]. *)
Definition headerMatch (trimmedLine : jsstring) : option HeaderMatch :=
  match markdownHeader trimmedLine with
  | Some m => Some m
  | None =>
      match numberedHeader trimmedLine with
      | Some m => Some m
      | None => capitalsHeader trimmedLine
      end
  end.

(** Truthiness of a string. *)
Definition truthy (s : jsstring) : bool :=
  match s with [] => false | _ => true end.

Definition pushed (sections : list DocumentSection)
           (currentSection : DocumentSection) : list DocumentSection :=
  if truthy (trim (content currentSection))
  then sections ++ [currentSection] else sections.

(** The loop over the lines. *)
Fixpoint sectionLoop (lines : list jsstring) (sections : list DocumentSection)
         (currentSection : DocumentSection) : list DocumentSection :=
  match lines with
  | [] => pushed sections currentSection
  | line :: rest =>
      match headerMatch (trim line) with
      | Some m =>
          sectionLoop rest (pushed sections currentSection)
            {| title := match group2 m with
                        | Some ((_ :: _) as t) => t
                        | _ => group1 m
                        end;
               content := [];
               level := if startsWith (group1 m) [HASH]
                        then len (group1 m) else 1 |}
      | None =>
          sectionLoop rest sections
            {| title := title currentSection;
               content := content currentSection ++ line ++ [NEWLINE];
               level := level currentSection |}
      end
  end.

Definition extractSections (text : jsstring) : list DocumentSection :=
  sectionLoop (split reLineFeed text) []
    {| title := []; content := []; level := 0 |}.

End Sections.

(* ===================================================================== *)
(** * Errors, timed calls and metadata                                    *)
(* ===================================================================== *)

Module Effects.

Import JS.
Local Open Scope Z_scope.

(** A computation that may throw: the value, or the message of the [Error]. *)
Inductive result (A : Type) : Type :=
| Ok (value : A)
| Err (message : string).
Arguments Ok {A} value.
Arguments Err {A} message.

Definition isOk {A} (r : result A) : bool :=
  match r with Ok _ => true | Err _ => false end.

(** A request to an external service: how long it takes, in milliseconds, and
    how it settles. *)
Record Call (A : Type) : Type := {
  duration : Z;
  answer : result A
}.
Arguments duration {A} _.
Arguments answer {A} _.

(** [Promise.race([call, new Promise((_, reject) => setTimeout(() =>
    reject(new Error(message)), limit))])]: the call if it settles before the
    timer, the timer's rejection otherwise; with the time at which the race
    settles. *)
Definition race {A} (call : Call A) (limit : Z) (message : string)
  : Z * result A :=
  if duration call <? limit then (duration call, answer call)
  else (limit, Err message).

(** Decimal rendering of an integer inside a template string. *)
Definition decimal (z : Z) : string := DecimalString.NilZero.string_of_int (Z.to_int z).

(** A value of a metadata bag ([Record<string, any>]). Integer-valued numbers
    are kept apart from fractional ones. *)
Inductive MetaValue : Type :=
| MUndefined
| MInt (z : Z)
| MNum (x : float)
| MStr (s : jsstring)
| MBool (b : bool)
| MStrs (l : list jsstring).

End Effects.

(* ===================================================================== *)
(** * PineconeVectorStore (pinecone-store.ts)                              *)
(* ===================================================================== *)

Module Store.

Import JS Effects.
Local Open Scope Z_scope.

Abbreviation vector := Chunker.vector.

(** What is sent to the index: [{ id, values, metadata }]. *)
Record PineconeDocument : Type := {
  id : jsstring;
  values : vector;
  metadata : gmap string MetaValue
}.

Record PineconeSearchResult : Type := {
  result_id : jsstring;
  content : MetaValue;
  similarity : float;
  result_metadata : gmap string MetaValue
}.

(** A match of the index: [score] and [metadata] are optional. *)
Record ScoredMatch : Type := {
  match_id : jsstring;
  score : option float;
  match_metadata : option (gmap string MetaValue)
}.

(** One condition of a filter: [{ $eq }], [{ $gte }] or [{ $gte, $lte }]; a
    bound computed from a value that is no number is [None]. *)
Inductive Condition : Type :=
| eq (v : MetaValue)
| gte (z : Z)
| between (lo hi : option Z).

Record QueryRequest : Type := {
  query_vector : vector;
  topK : Z;
  filter : gmap string Condition;
  includeMetadata : bool;
  includeValues : bool
}.

(** The [filters] argument of [searchSimilar], its four fields read. *)
Record SearchFilters : Type := {
  source_type : option jsstring;
  content_type : option jsstring;
  language : option jsstring;
  min_length : option Z
}.

Definition noFilters : SearchFilters :=
  {| source_type := None; content_type := None; language := None;
     min_length := None |}.

(** Pure functions of a text whose values do not matter to what is proved
    below; they are left open. [toLowerCase] is [String.prototype.toLowerCase],
    [toISOString] renders an instant, the other four are [classifyContent],
    [detectLanguage] and the two fields computed by [extractKeywords]. *)
Record TextTools : Type := {
  toLowerCase : jsstring -> jsstring;
  toISOString : Z -> jsstring;
  classifyContent : jsstring -> jsstring;
  detectLanguage : jsstring -> jsstring;
  top_keywords : jsstring -> list jsstring;
  keyword_density : jsstring -> float
}.

(** The two services [addDocument] calls, by attempt. *)
Record Storage : Type := {
  createEmbedding : Z -> jsstring -> Call vector;
  upsert : Z -> PineconeDocument -> Call unit
}.

(** The services a search calls: the embedding of a text and the query of
    the index ([matches] may be [undefined]). [call] tells the requests of
    one search apart: 0 for the search itself, [k + 1] for the context of its
    [k]-th result. *)
Record Search : Type := {
  embed : nat -> jsstring -> result vector;
  query : nat -> QueryRequest -> result (option (list ScoredMatch))
}.

Section WithTools.

Variable tools : TextTools.

Definition extractKeywords (text : jsstring) : gmap string MetaValue :=
  <["top_keywords" := MStrs (top_keywords tools text)]>
    (<["keyword_density" := MNum (keyword_density tools text)]> ∅).

Definition optionalString (s : option jsstring) : MetaValue :=
  match s with Some x => MStr x | None => MUndefined end.

(** ** addDocument *)

(** What a call of [addDocument] did: how it settled and when (milliseconds
    after the call), how each attempt ended (the lines it logs), the back-off
    waits it made, and the documents the index accepted from it. *)
Record AddDocumentRun : Type := {
  returned : result jsstring;
  finished : Z;
  attempts : list (result jsstring);
  waits : list Z;
  accepted : list PineconeDocument
}.

Definition EMBEDDING_TIMEOUT : Z := 30000.
Definition UPSERT_TIMEOUT : Z := 30000.
Definition maxRetries : Z := 3.

(** [Math.min(1000 * Math.pow(2, attempt - 1), 5000)] *)
Definition waitTime (attempt : Z) : Z :=
  Z.min (1000 * 2 ^ (attempt - 1)) 5000.

Definition documentId (agentId knowledgeSourceId chunkIndex now : Z)
  : jsstring :=
  js (decimal agentId ++ "_" ++ decimal knowledgeSourceId ++ "_"
      ++ decimal chunkIndex ++ "_" ++ decimal now)%string.

(** The metadata literal: the fields of [addDocument], then the spread of
    [extractKeywords], then the spread of [additionalMetadata]; a later key
    replaces an earlier one. *)
Definition documentMetadata (knowledgeSourceId agentId : Z) (body : jsstring)
           (chunkIndex : Z) (sourceName sourceType : option jsstring)
           (additionalMetadata : gmap string MetaValue) (attempt now : Z)
  : gmap string MetaValue :=
  additionalMetadata ∪
  (extractKeywords body ∪
   (<["agent_id" := MInt agentId]>
   (<["knowledge_source_id" := MInt knowledgeSourceId]>
   (<["content" := MStr (slice body 0 40000)]>
   (<["chunk_index" := MInt chunkIndex]>
   (<["content_length" := MInt (len body)]>
   (<["word_count" := MInt (Z.of_nat (length (split reSpaces body)))]>
   (<["content_type" := MStr (classifyContent tools body)]>
   (<["language" := MStr (detectLanguage tools body)]>
   (<["source_name" := optionalString sourceName]>
   (<["source_type" := optionalString sourceType]>
   (<["created_at" := MStr (toISOString tools now)]>
   (<["has_numbers" := MBool (existsb is_digit body)]>
   (<["has_urls" := MBool (includes body (js "http://")
                           || includes body (js "https://"))]>
   (<["attempt" := MInt attempt]> ∅))))))))))))))).

Section AddDocument.

Variable storage : Storage.
Variables (knowledgeSourceId agentId chunkIndex : Z).
Variables (sourceName sourceType : option jsstring).
Variable additionalMetadata : gmap string MetaValue.
(** [Date.now()] when [addDocument] is called. *)
Variable startTime : Z.

(** The body of the [try] at one attempt, entered at [clock]: the content as
    the attempt leaves it (the truncation assigns to the parameter), when
    the attempt ends, how it ends, and the document the index accepted. *)
Definition attemptOnce (attempt : Z) (body : jsstring) (clock : Z)
  : jsstring * Z * result jsstring * list PineconeDocument :=
  if (len body =? 0) || (len (trim body) =? 0) then
    (body, clock, Err "Content cannot be empty"%string, [])
  else
    let body := if 40000 <? len body then slice body 0 40000 else body in
    let '(spent, embedding) :=
      race (createEmbedding storage attempt body) EMBEDDING_TIMEOUT
        "Embedding generation timeout" in
    let clock := clock + spent in
    match embedding with
    | Err message => (body, clock, Err message, [])
    | Ok embedding =>
        let now := startTime + clock in
        let document :=
          {| id := documentId agentId knowledgeSourceId chunkIndex now;
             values := embedding;
             metadata :=
               documentMetadata knowledgeSourceId agentId body chunkIndex
                 sourceName sourceType additionalMetadata attempt now |} in
        let request := upsert storage attempt document in
        let '(spent, upserted) :=
          race request UPSERT_TIMEOUT "Pinecone upsert timeout" in
        let stored :=
          match answer request with Ok _ => [document] | Err _ => [] end in
        match upserted with
        | Ok _ => (body, clock + spent, Ok (id document), stored)
        | Err message => (body, clock + spent, Err message, stored)
        end
    end.

(** The retry loop; [remaining] counts the attempts from [attempt] to
    [maxRetries]. *)
Fixpoint attemptLoop (remaining : nat) (attempt : Z) (body : jsstring)
         (clock : Z) (tried : list (result jsstring)) (waited : list Z)
         (stored : list PineconeDocument) (lastError : option string)
  : AddDocumentRun :=
  match remaining with
  | O =>
      {| returned :=
           Err (match lastError with
                | Some message => message
                | None => "Failed to add document after all retries"%string
                end);
         finished := clock; attempts := tried; waits := waited;
         accepted := stored |}
  | S remaining' =>
      let '(body', clock', outcome, documents) :=
        attemptOnce attempt body clock in
      match outcome with
      | Ok documentId =>
          {| returned := Ok documentId; finished := clock';
             attempts := tried ++ [outcome]; waits := waited;
             accepted := stored ++ documents |}
      | Err message =>
          if attempt <? maxRetries then
            attemptLoop remaining' (attempt + 1) body'
              (clock' + waitTime attempt) (tried ++ [outcome])
              (waited ++ [waitTime attempt]) (stored ++ documents)
              (Some message)
          else
            attemptLoop remaining' (attempt + 1) body' clock'
              (tried ++ [outcome]) waited (stored ++ documents) (Some message)
      end
  end.

Definition addDocument (body : jsstring) : AddDocumentRun :=
  attemptLoop (Z.to_nat maxRetries) 1 body 0 [] [] [] None.

End AddDocument.

(** ** searchSimilar *)

Definition truthyString (s : option jsstring) : bool :=
  match s with Some (_ :: _) => true | _ => false end.

Definition truthyNumber (z : option Z) : bool :=
  match z with Some n => negb (n =? 0) | None => false end.

(** The Pinecone filter: the agent, then the constraints that are set. *)
Definition pineconeFilter (agentId : Z) (filters : SearchFilters)
  : gmap string Condition :=
  let f0 : gmap string Condition := <["agent_id" := eq (MInt agentId)]> ∅ in
  let f1 := if truthyString (source_type filters)
            then <["source_type" := eq (optionalString (source_type filters))]> f0
            else f0 in
  let f2 := if truthyString (content_type filters)
            then <["content_type" := eq (optionalString (content_type filters))]> f1
            else f1 in
  let f3 := if truthyString (language filters)
            then <["language" := eq (optionalString (language filters))]> f2
            else f2 in
  if truthyNumber (min_length filters)
  then <["content_length" := gte (default 0 (min_length filters))]> f3
  else f3.

Definition contentOf (m : gmap string MetaValue) : MetaValue :=
  default MUndefined (m !! "content"%string).

(** The loop over the matches: those at or above the threshold that carry
    metadata, in the order of the index. *)
Fixpoint keepRelevant (matches : list ScoredMatch) (threshold : float)
  : list PineconeSearchResult :=
  match matches with
  | [] => []
  | m :: rest =>
      let similarity := Num.orZero (default 0%float (score m)) in
      match match_metadata m with
      | Some md =>
          if Num.geb similarity threshold then
            {| result_id := match_id m; content := contentOf md;
               similarity := similarity; result_metadata := md |}
              :: keepRelevant rest threshold
          else keepRelevant rest threshold
      | None => keepRelevant rest threshold
      end
  end.

Section Searching.

Variable search : Search.

(** [generateEmbedding(text)], sending [text || ' ']. *)
Definition generateEmbedding (call : nat) (text : jsstring) : result vector :=
  embed search call (match text with [] => [SPACE] | _ => text end).

Definition searchSimilar (text : jsstring) (agentId limit : Z)
           (threshold : float) (filters : SearchFilters)
  : result (list PineconeSearchResult) :=
  match generateEmbedding 0 text with
  | Err message => Err message
  | Ok queryEmbedding =>
      match query search 0
              {| query_vector := queryEmbedding; topK := limit * 2;
                 filter := pineconeFilter agentId filters;
                 includeMetadata := true; includeValues := false |} with
      | Err message => Err message
      | Ok matches =>
          Ok (arraySlice (keepRelevant (default [] matches) threshold) 0 limit)
      end
  end.

(** ** hybridSearch *)

(** [\w] *)
Definition is_word (c : N) : bool :=
  ((48 <=? c) && (c <=? 57) || (65 <=? c) && (c <=? 90)
   || (97 <=? c) && (c <=? 122) || (c =? 95))%N.

Definition extractSearchKeywords (text : jsstring) : list jsstring :=
  arraySlice
    (List.filter (fun word => 2 <? len word)
       (split reSpaces
          (List.map (fun c => if is_word c || is_space c then c else SPACE)
             (toLowerCase tools text))))
    0 10.

Definition calculateKeywordSimilarity (keywords : list jsstring)
           (body : jsstring) : float :=
  let contentLower := toLowerCase tools body in
  let matches :=
    length (List.filter (fun keyword =>
                           includes contentLower (toLowerCase tools keyword))
              keywords) in
  if 0 <? Z.of_nat (length keywords)
  then (Num.ofZ (Z.of_nat matches) / Num.ofZ (Z.of_nat (length keywords)))%float
  else 0%float.

(** [Array.prototype.sort] with a comparator: stable, an element moving
    behind those the comparator puts strictly before it. *)
Fixpoint insertSorted {A} (after : A -> A -> bool) (x : A) (l : list A)
  : list A :=
  match l with
  | [] => [x]
  | y :: rest =>
      if after x y then y :: insertSorted after x rest else x :: l
  end.

Fixpoint sortBy {A} (after : A -> A -> bool) (l : list A) : list A :=
  match l with
  | [] => []
  | x :: rest => insertSorted after x (sortBy after rest)
  end.

(** The mapping of one vector result; reading [result.content] as a string
    throws when it is none. *)
Definition enhance (keywords : list jsstring) (vectorWeight keywordWeight : float)
           (r : PineconeSearchResult) : result PineconeSearchResult :=
  match content r with
  | MStr body =>
      let keywordScore := calculateKeywordSimilarity keywords body in
      let hybridScore :=
        (similarity r * vectorWeight + keywordScore * keywordWeight)%float in
      Ok {| result_id := result_id r; content := content r;
            similarity := hybridScore;
            result_metadata :=
              <["hybrid_score" := MNum hybridScore]>
                (<["keyword_score" := MNum keywordScore]>
                   (<["vector_score" := MNum (similarity r)]>
                      (result_metadata r))) |}
  | _ => Err "Cannot read properties of undefined (reading 'toLowerCase')"%string
  end.

Fixpoint mapResult {A B} (f : A -> result B) (l : list A) : result (list B) :=
  match l with
  | [] => Ok []
  | x :: rest =>
      match f x with
      | Err message => Err message
      | Ok y =>
          match mapResult f rest with
          | Err message => Err message
          | Ok ys => Ok (y :: ys)
          end
      end
  end.

(** [(a, b) => b.similarity - a.similarity] is positive: [a] goes after [b]. *)
Definition lowerScore (a b : PineconeSearchResult) : bool :=
  (0 <? similarity b - similarity a)%float.

Definition hybridSearch (text : jsstring) (agentId limit : Z)
           (vectorWeight keywordWeight : float)
  : result (list PineconeSearchResult) :=
  match searchSimilar text agentId (limit * 2) 0.5%float noFilters with
  | Err message => Err message
  | Ok vectorResults =>
      let keywords := extractSearchKeywords text in
      match mapResult (enhance keywords vectorWeight keywordWeight)
              vectorResults with
      | Err message => Err message
      | Ok enhancedResults =>
          Ok (arraySlice (sortBy lowerScore enhancedResults) 0 limit)
      end
  end.

(** ** contextualSearch *)

Definition asInteger (v : option MetaValue) : option Z :=
  match v with Some (MInt z) => Some z | _ => None end.

Definition chunkIndexOf (m : ScoredMatch) : option Z :=
  match match_metadata m with
  | Some md => asInteger (md !! "chunk_index"%string)
  | None => None
  end.

(** [(a, b) => a.chunk_index - b.chunk_index] is positive. *)
Definition laterChunk (a b : ScoredMatch) : bool :=
  match chunkIndexOf a, chunkIndexOf b with
  | Some x, Some y => 0 <? x - y
  | _, _ => false
  end.

(** What [join] writes for an element: [undefined] is the empty string. *)
Definition joined (v : MetaValue) : jsstring :=
  match v with MStr s => s | _ => [] end.

(** The context of the [k]-th result; an error of the embedding or of the
    query is caught and the result returned as it is. *)
Definition withContext (agentId contextWindow : Z) (k : nat)
           (r : PineconeSearchResult) : PineconeSearchResult :=
  let chunkIndex := asInteger (result_metadata r !! "chunk_index"%string) in
  let knowledgeSourceId :=
    default MUndefined (result_metadata r !! "knowledge_source_id"%string) in
  let contextFilter : gmap string Condition :=
    <["agent_id" := eq (MInt agentId)]>
      (<["knowledge_source_id" := eq knowledgeSourceId]>
         (<["chunk_index" :=
              between (option_map (fun i => Z.max 0 (i - contextWindow)) chunkIndex)
                      (option_map (fun i => i + contextWindow) chunkIndex)]> ∅)) in
  match generateEmbedding (S k) [] with
  | Err _ => r
  | Ok dummy =>
      match query search (S k)
              {| query_vector := dummy; topK := contextWindow * 2 + 1;
                 filter := contextFilter;
                 includeMetadata := true; includeValues := false |} with
      | Err _ => r
      | Ok matches =>
          let contextChunks :=
            List.map (fun m => contentOf (default ∅ (match_metadata m)))
              (sortBy laterChunk
                 (List.filter (fun m => match match_metadata m with
                                        | Some _ => true | None => false end)
                    (default [] matches))) in
          let hasContext := 1 <? Z.of_nat (length contextChunks) in
          {| result_id := result_id r;
             content := if hasContext
                        then MStr (join Chunker.PARAGRAPH_BREAK (List.map joined contextChunks))
                        else content r;
             similarity := similarity r;
             result_metadata :=
               <["context_chunks" := MInt (Z.of_nat (length contextChunks))]>
                 (<["has_context" := MBool hasContext]> (result_metadata r)) |}
      end
  end.

Fixpoint mapIndexed {A B} (f : nat -> A -> B) (k : nat) (l : list A) : list B :=
  match l with
  | [] => []
  | x :: rest => f k x :: mapIndexed f (S k) rest
  end.

Definition contextualSearch (text : jsstring) (agentId limit contextWindow : Z)
  : result (list PineconeSearchResult) :=
  match searchSimilar text agentId limit 0.7%float noFilters with
  | Err message => Err message
  | Ok results => Ok (mapIndexed (withContext agentId contextWindow) 0 results)
  end.

End Searching.

(** ** deleteDocuments

    The index is the list of the documents it holds. [deleteMany(filter)]
    removes the documents whose metadata meet every condition of the filter;
    the request may fail, leaving the index as it is. *)

Definition meets (md : gmap string MetaValue) (key : string) (c : Condition)
  : bool :=
  match c, md !! key with
  | eq (MInt v), Some (MInt x) => x =? v
  | eq (MStr v), Some (MStr x) => startsWith x v && (len x =? len v)
  | eq (MBool v), Some (MBool x) => Bool.eqb x v
  | gte lo, Some (MInt x) => lo <=? x
  | between (Some lo) (Some hi), Some (MInt x) => (lo <=? x) && (x <=? hi)
  | _, _ => false
  end.

Definition meetsAll (conditions : gmap string Condition)
           (md : gmap string MetaValue) : bool :=
  forallb (fun kc => meets md (fst kc) (snd kc)) (map_to_list conditions).

Definition deleteMany (conditions : gmap string Condition)
           (index : list PineconeDocument) : list PineconeDocument :=
  List.filter (fun d => negb (meetsAll conditions (metadata d))) index.

(** [deleteDocuments(agentId, knowledgeSourceId?)]: [failure] is the error of
    the request to the index, if it fails. *)
Definition deleteDocuments (failure : option string)
           (agentId : Z) (knowledgeSourceId : option Z)
           (index : list PineconeDocument)
  : result unit * list PineconeDocument :=
  let f0 : gmap string Condition := <["agent_id" := eq (MInt agentId)]> ∅ in
  let f1 := match knowledgeSourceId with
            | Some k => <["knowledge_source_id" := eq (MInt k)]> f0
            | None => f0
            end in
  match failure with
  | Some message => (Err message, index)
  | None => (Ok tt, deleteMany f1 index)
  end.

End WithTools.

End Store.

(* ===================================================================== *)
(** * PineconeRAGProcessor (pinecone-rag-processor.ts)                     *)
(* ===================================================================== *)

Module Processor.

Import JS Effects.
Local Open Scope Z_scope.

(** [sourceData]; an absent field is [None]. *)
Record SourceData : Type := {
  type : string;
  name : jsstring;
  source_url : option jsstring;
  content : option jsstring;
  file_path : option jsstring
}.

Record Settings : Type := {
  chunk_size : Z;
  chunk_overlap : Z;
  chunking_strategy : string
}.

(** [{ success, chunks_count, error? }] *)
Record ProcessingResult : Type := {
  success : bool;
  chunks_count : Z;
  error : option string
}.

(** What lies outside the processor during one ingestion: the two fetchers,
    the sentence embeddings of the chunker, how long chunking takes, and the
    storage services met by the chunk at each position. *)
Record World : Type := {
  processUrl : jsstring -> Call jsstring;
  processYouTube : jsstring -> Call jsstring;
  embedBatch : Z -> list jsstring -> option (list Chunker.vector);
  chunkingTime : Z;
  storageOf : nat -> Store.Storage
}.

Definition strategyOf (s : string) : Chunker.Strategy :=
  if String.eqb s "paragraph" then Chunker.byParagraph
  else if String.eqb s "sentence" then Chunker.bySentence
  else if String.eqb s "recursive" then Chunker.byRecursion
  else if String.eqb s "semantic" then Chunker.bySemantic
  else Chunker.other.

Definition chunkTypeName (k : Chunker.ChunkType) : string :=
  match k with
  | Chunker.paragraph => "paragraph"
  | Chunker.sentence => "sentence"
  | Chunker.recursive => "recursive"
  | Chunker.semantic => "semantic"
  | Chunker.recursive_max_depth => "recursive_max_depth"
  | Chunker.recursive_small => "recursive_small"
  | Chunker.recursive_forced => "recursive_forced"
  end.

(** [chunkText]. The chunker of this model raises nothing, so the [catch]
    that falls back to [chunkTextSimple] is never entered; a [DocumentChunk]
    has the fields of a [SemanticChunk]. *)
Definition chunkText (embed : Z -> list jsstring -> option (list Chunker.vector))
           (fuel : nat) (text : jsstring) (chunkSize overlap : Z)
           (strategy : Chunker.Strategy) : option (list Chunker.SemanticChunk) :=
  Chunker.chunkTextSemantically embed fuel text chunkSize overlap strategy.

Definition EXTRACTION_TIMEOUT : Z := 60000.
Definition CHUNKING_TIMEOUT : Z := 120000.
Definition STORAGE_TIMEOUT : Z := 30000.
Definition batchSize : Z := 5.
Definition delay : Z := 1000.

Definition falsy (s : option jsstring) : bool :=
  match s with Some (_ :: _) => false | _ => true end.

Definition legacyPdf (name : jsstring) (ending : string) : jsstring :=
  js "Legacy PDF: " ++ (match name with [] => js "Unnamed PDF" | _ => name end)
     ++ js ending.

Definition immediately {A} (r : result A) : Call A :=
  {| duration := 0; answer := r |}.

(** [extractContent] *)
Definition extractContent (world : World) (sourceData : SourceData)
  : Call jsstring :=
  let kind := type sourceData in
  if String.eqb kind "url" then
    match source_url sourceData with
    | Some ((_ :: _) as url) => processUrl world url
    | _ => immediately (Err "URL is required for URL type sources"%string)
    end
  else if String.eqb kind "youtube" then
    match source_url sourceData with
    | Some ((_ :: _) as url) => processYouTube world url
    | _ => immediately (Err "URL is required for YouTube type sources"%string)
    end
  else if String.eqb kind "text" then
    match content sourceData with
    | Some ((_ :: _) as body) => immediately (Ok body)
    | _ => immediately (Err "Content is required for text type sources"%string)
    end
  else if String.eqb kind "pdf" then
    match content sourceData with
    | Some ((_ :: _) as body) => immediately (Ok body)
    | _ =>
        if falsy (file_path sourceData) then
          immediately
            (Ok (legacyPdf (name sourceData)
                   " - Please re-upload this PDF for processing."))
        else
          immediately
            (Ok (legacyPdf (name sourceData)
                   " - Content extraction pending. Please re-upload for full processing."))
    end
  else if String.eqb kind "doc" || String.eqb kind "docx"
          || String.eqb kind "pptx" then
    match content sourceData with
    | Some ((_ :: _) as body) => immediately (Ok body)
    | _ => immediately
             (Err ("File type " ++ kind
                   ++ " requires file content to be provided")%string)
    end
  else immediately (Err ("Unsupported source type: " ++ kind)%string).

(** The checks on the extracted content, and the truncation. *)
Definition validated (body : jsstring) : result jsstring :=
  if (len body =? 0) || (len (trim body) =? 0) then
    Err "No content extracted from source or content is empty"%string
  else if includes body (js "Results available at:")
          || includes body (js "full_zip_url") then
    Err "PDF processing incomplete - content extraction from MinerU ZIP file failed. Please try re-uploading the PDF or use a different format."%string
  else if len body <? 10 then
    Err "Content too short - minimum 10 characters required"%string
  else if 1000000 <? len body then Ok (slice body 0 1000000)
  else Ok body.

(** [chunk.metadata] as the object that is spread into the metadata of the
    stored document. *)
Definition optionalInt (z : option Z) : MetaValue :=
  match z with Some n => MInt n | None => MUndefined end.

Definition optionalNum (x : option float) : MetaValue :=
  match x with Some n => MNum n | None => MUndefined end.

Definition chunkMetadata (m : Chunker.ChunkMetadata) : gmap string MetaValue :=
  <["chunk_type" := MStr (js (chunkTypeName (Chunker.chunk_type m)))]>
  (<["start_index" := MInt (Chunker.start_index m)]>
  (<["end_index" := MInt (Chunker.end_index m)]>
  (<["length" := MInt (Chunker.length_ m)]>
  (<["semantic_similarity" := optionalNum (Chunker.semantic_similarity m)]>
  (<["parent_chunk" := optionalInt (Chunker.parent_chunk m)]>
  (<["sentence_count" := optionalInt (Chunker.sentence_count m)]> ∅)))))).

Section Ingestion.

Variable tools : Store.TextTools.
Variable world : World.
Variables (sourceId agentId : Z).
Variable sourceData : SourceData.
Variable settings : Settings.
(** [Date.now()] when [processKnowledgeSource] is called. *)
Variable startTime : Z.

(** Steps 1 and 2: extraction, validation and chunking. [None]: the chunker
    is still running at the end of the fuel. Otherwise the chunks and the
    time spent, or the error thrown. *)
Definition prepare (fuel : nat)
  : option (result (list Chunker.SemanticChunk * Z)) :=
  let '(extractionTime, extracted) :=
    race (extractContent world sourceData) EXTRACTION_TIMEOUT
      "Content extraction timeout after 60s" in
  match extracted with
  | Err message => Some (Err message)
  | Ok body =>
      match validated body with
      | Err message => Some (Err message)
      | Ok body =>
          match chunkText (embedBatch world) fuel body (chunk_size settings)
                  (chunk_overlap settings)
                  (strategyOf (chunking_strategy settings)) with
          | None => None
          | Some chunks =>
              let '(spent, chunked) :=
                race {| duration := chunkingTime world; answer := Ok chunks |}
                  CHUNKING_TIMEOUT "Chunking timeout after 120s" in
              match chunked with
              | Err message => Some (Err message)
              | Ok [] =>
                  Some (Err "No chunks created from content - chunking failed"%string)
              | Ok chunks => Some (Ok (chunks, extractionTime + spent))
              end
          end
      end
  end.

(** The call of [addDocument] for the chunk at [position], made at [clock]
    in batch number [batch]. *)
Definition storeChunk (position : nat) (batch clock : Z)
           (chunk : Chunker.SemanticChunk) : Store.AddDocumentRun :=
  Store.addDocument tools (storageOf world position) sourceId agentId
    (Chunker.chunk_index chunk) (Some (name sourceData))
    (Some (js (type sourceData)))
    (<["batch_index" := MInt batch]>
       (<["processed_at" := MStr (Store.toISOString tools (startTime + clock))]>
          (<["processing_strategy" := MStr (js (chunking_strategy settings))]>
             (<["original_url" := Store.optionalString (source_url sourceData)]>
                (chunkMetadata (Chunker.metadata chunk))))))
    (startTime + clock) (Chunker.content chunk).

(** How the race of one chunk against the storage timer settles, and when. *)
Definition settled (chunk : Chunker.SemanticChunk) (run : Store.AddDocumentRun)
  : Z * result jsstring :=
  race {| duration := Store.finished run; answer := Store.returned run |}
    STORAGE_TIMEOUT
    ("Chunk storage timeout for chunk " ++ decimal (Chunker.chunk_index chunk)).

(** The state of the storage loop: the counter, the last error with the
    time it was caught at within its batch, and the calls made so far. *)
Record Progress : Type := {
  successCount : Z;
  lastError : option string;
  calls : list (Chunker.SemanticChunk * Store.AddDocumentRun)
}.

(** One batch: its chunks are stored concurrently from [clock]. The error
    kept is the one caught last: the latest to settle, the later chunk among
    those settling together. Returns the time the whole batch takes. *)
Fixpoint storeBatch (batch : list Chunker.SemanticChunk) (position : nat)
         (batchIndex clock : Z) (progress : Progress)
         (latestFailure longest : Z) : Progress * Z :=
  match batch with
  | [] => (progress, longest)
  | chunk :: rest =>
      let run := storeChunk position batchIndex clock chunk in
      let '(spent, outcome) := settled chunk run in
      let calls' := calls progress ++ [(chunk, run)] in
      match outcome with
      | Ok _ =>
          storeBatch rest (S position) batchIndex clock
            {| successCount := successCount progress + 1;
               lastError := lastError progress; calls := calls' |}
            latestFailure (Z.max longest spent)
      | Err message =>
          if latestFailure <=? spent then
            storeBatch rest (S position) batchIndex clock
              {| successCount := successCount progress;
                 lastError := Some message; calls := calls' |}
              spent (Z.max longest spent)
          else
            storeBatch rest (S position) batchIndex clock
              {| successCount := successCount progress;
                 lastError := lastError progress; calls := calls' |}
              latestFailure (Z.max longest spent)
      end
  end.

(** The loop [for (i = 0; i < chunks.length; i += batchSize)]; [steps] bounds
    its iterations by the number of chunks. *)
Fixpoint storeLoop (steps : nat) (chunks : list Chunker.SemanticChunk) (i : Z)
         (clock : Z) (progress : Progress) : Progress :=
  match steps with
  | O => progress
  | S steps' =>
      if i <? Z.of_nat (length chunks) then
        let batch := arraySlice chunks i (i + batchSize) in
        let clock := if 0 <? i then clock + delay else clock in
        let '(progress', spent) :=
          storeBatch batch (Z.to_nat i) (i / batchSize) clock progress 0 0 in
        storeLoop steps' chunks (i + batchSize) (clock + spent) progress'
      else progress
  end.

(** Step 4: the report, from the counter. *)
Definition conclude (total : Z) (progress : Progress) : ProcessingResult :=
  if successCount progress =? 0 then
    {| success := false; chunks_count := 0;
       error := Some ("Storage failed: " ++
                      match lastError progress with
                      | Some message => message
                      | None => "Failed to store any chunks"
                      end)%string |}
  else
    {| success := true; chunks_count := successCount progress;
       error := if successCount progress <? total
                then Some ("Partial success: " ++ decimal (successCount progress)
                           ++ "/" ++ decimal total ++ " chunks stored")%string
                else None |}.

(** [processKnowledgeSource]: the report, with the calls of [addDocument]
    that were made, one per chunk, in the order of the chunks. *)
Definition processKnowledgeSource (fuel : nat)
  : option (ProcessingResult *
            list (Chunker.SemanticChunk * Store.AddDocumentRun)) :=
  match prepare fuel with
  | None => None
  | Some (Err message) =>
      Some ({| success := false; chunks_count := 0; error := Some message |}, [])
  | Some (Ok (chunks, clock)) =>
      let progress :=
        storeLoop (length chunks) chunks 0 clock
          {| successCount := 0; lastError := None; calls := [] |} in
      Some (conclude (Z.of_nat (length chunks)) progress, calls progress)
  end.

End Ingestion.

(** ** findRelevantChunks *)

Inductive SearchStrategy : Type :=
| vector | hybrid | contextual | unknown.

(** [{ content, similarity, metadata }] *)
Record RelevantChunk : Type := {
  chunk_content : MetaValue;
  chunk_similarity : float;
  chunk_metadata : gmap string MetaValue
}.

Definition relevant (r : Store.PineconeSearchResult) : RelevantChunk :=
  {| chunk_content := Store.content r;
     chunk_similarity := Store.similarity r;
     chunk_metadata := Store.result_metadata r |}.

(** The search that [findRelevantChunks] delegates to: the body of its
    [try], before the mapping. *)
Definition delegated (tools : Store.TextTools) (search : Store.Search)
           (text : jsstring) (agentId maxChunks : Z) (threshold : float)
           (searchStrategy : SearchStrategy) (filters : Store.SearchFilters)
  : result (list Store.PineconeSearchResult) :=
  match searchStrategy with
  | vector => Store.searchSimilar search text agentId maxChunks threshold filters
  | hybrid => Store.hybridSearch tools search text agentId maxChunks 0.8 0.2
  | contextual => Store.contextualSearch search text agentId maxChunks 2
  | unknown => Store.hybridSearch tools search text agentId maxChunks 0.8 0.2
  end.

(** [findRelevantChunks]: [Ok] is a returned array, [Err] an error thrown to
    the caller. The [catch] returns the empty array. *)
Definition findRelevantChunks (tools : Store.TextTools) (search : Store.Search)
           (text : jsstring) (agentId maxChunks : Z) (threshold : float)
           (searchStrategy : SearchStrategy) (_enableContextual : bool)
           (filters : Store.SearchFilters) : result (list RelevantChunk) :=
  match delegated tools search text agentId maxChunks threshold searchStrategy
          filters with
  | Ok results => Ok (List.map relevant results)
  | Err _ => Ok []
  end.

(** ** deleteKnowledgeSource *)

Definition deleteKnowledgeSource (failure : option string)
           (agentId knowledgeSourceId : Z) (index : list Store.PineconeDocument)
  : result unit * list Store.PineconeDocument :=
  Store.deleteDocuments failure agentId (Some knowledgeSourceId) index.

End Processor.

(* ===================================================================== *)
(** * PineconeRAGProcessor: the text helpers                              *)
(* ===================================================================== *)

Module Helpers.

Import JS Effects.
Local Open Scope Z_scope.

(** [cleanText] *)
Definition cleanText (text : jsstring) : jsstring :=
  trim (replaceAll reLineFeeds [NEWLINE] (replaceAll reSpaces [SPACE] text)).

(** ** extractYouTubeId *)

(** The class [[^&\n?#]]. *)
Definition is_idChar (c : N) : bool :=
  negb ((c =? 38) || (c =? 10) || (c =? 63) || (c =? 35))%N.

(** The group [([^&\n?#]+)] at the start of [s]: its longest run, which must
    not be empty. *)
Definition captureId (s : jsstring) : option jsstring :=
  match spanLength is_idChar s with
  | O => None
  | n => Some (firstn n s)
  end.

(** The alternatives of the first expression, each followed by the group;
    an alternative whose group fails gives way to the next. *)
Fixpoint firstAlternative (alternatives : list jsstring) (s : jsstring)
  : option jsstring :=
  match alternatives with
  | [] => None
  | alternative :: more =>
      match afterLiteral s alternative with
      | Some rest =>
          match captureId rest with
          | Some videoId => Some videoId
          | None => firstAlternative more s
          end
      | None => firstAlternative more s
      end
  end.

(** [/(?:youtube\.com\/watch\?v=|youtu\.be\/|youtube\.com\/embed\/)([^&\n?#]+)/]
    at one position. *)
Definition directId (s : jsstring) : option jsstring :=
  firstAlternative
    [js "youtube.com/watch?v="; js "youtu.be/"; js "youtube.com/embed/"] s.

(** [.*v=([^&\n?#]+)]: the star takes [reach] code units, then fewer, until
    [v=] and a group follow. *)
Fixpoint lastParameter (rest : jsstring) (reach : nat) : option jsstring :=
  let here :=
    match afterLiteral (skipn reach rest) (js "v=") with
    | Some tail => captureId tail
    | None => None
    end in
  match here with
  | Some videoId => Some videoId
  | None =>
      match reach with
      | O => None
      | S fewer => lastParameter rest fewer
      end
  end.

(** [/youtube\.com\/watch\?.*v=([^&\n?#]+)/] at one position. *)
Definition parameterId (s : jsstring) : option jsstring :=
  match afterLiteral s (js "youtube.com/watch?") with
  | Some rest =>
      lastParameter rest
        (spanLength (fun c => negb (is_lineTerminator c)) rest)
  | None => None
  end.

(** [extractYouTubeId]: [None] is [null]. *)
Definition extractYouTubeId (url : jsstring) : option jsstring :=
  match searchFrom directId url with
  | Some videoId => Some videoId
  | None => searchFrom parameterId url
  end.

(** ** chunkTextSimple *)

(** [DocumentChunk] *)
Record DocumentChunk : Type := {
  content : jsstring;
  metadata : gmap string MetaValue;
  chunk_index : Z
}.

(** The [while] loop, on fuel: [None] while it is still running. *)
Fixpoint chunkTextSimpleLoop (fuel : nat) (text : jsstring)
         (chunkSize overlap index chunkIndex : Z) (chunks : list DocumentChunk)
  : option (list DocumentChunk) :=
  match fuel with
  | O => None
  | S fuel' =>
      if index <? len text then
        let end_ := Z.min (index + chunkSize) (len text) in
        let chunk := slice text index end_ in
        let chunks :=
          chunks ++
            [{| content := trim chunk;
                metadata :=
                  <["start_index" := MInt index]>
                    (<["end_index" := MInt end_]>
                       (<["length" := MInt (len chunk)]>
                          (<["chunk_type" := MStr (js "simple")]> ∅)));
                chunk_index := chunkIndex |}] in
        let index := index + (chunkSize - overlap) in
        if len text <=? index then Some chunks
        else chunkTextSimpleLoop fuel' text chunkSize overlap index
               (chunkIndex + 1) chunks
      else Some chunks
  end.

Definition chunkTextSimple (fuel : nat) (text : jsstring)
           (chunkSize overlap : Z) : option (list DocumentChunk) :=
  option_map (List.filter (fun chunk => 0 <? len (content chunk)))
    (chunkTextSimpleLoop fuel text chunkSize overlap 0 0 []).

End Helpers.

(* ===================================================================== *)
(** * The worker (src/worker/index.ts)                                     *)
(* ===================================================================== *)

Module Worker.

Import JS Effects.
Local Open Scope Z_scope.

(** A row of [knowledge_sources], with the columns read or written here. *)
Record KnowledgeSource : Type := {
  agent_id : Z;
  status : string;
  progress_message : string
}.

(** The relational store: [knowledge_sources] by id, and the
    [knowledge_source_id] of each row of [document_chunks]. *)
Record Database : Type := {
  knowledge_sources : gmap Z KnowledgeSource;
  document_chunks : list Z
}.

(** ** DELETE /api/knowledge-sources/:sourceId *)

Inductive Response : Type :=
| notFound            (* 404, "Knowledge source not found or access denied" *)
| deleted.            (* { success: true } *)

Record Service : Type := {
  database : Database;
  index : list Store.PineconeDocument
}.

(** The handler. [mayAccess user agent] stands for the joins of the access
    query (the user owns, or is a member of, the workspace of the agent);
    [failure] is the error of the request to the index, if it fails: it is
    caught and logged. *)
Definition deleteKnowledgeSourceEndpoint (mayAccess : Z -> Z -> bool)
           (failure : option string) (user sourceId : Z) (s : Service)
  : Response * Service :=
  match knowledge_sources (database s) !! sourceId with
  | Some source =>
      if mayAccess user (agent_id source) then
        let '(_, index') :=
          Processor.deleteKnowledgeSource failure sourceId sourceId (index s) in
        (deleted,
         {| database :=
              {| knowledge_sources :=
                   delete sourceId (knowledge_sources (database s));
                 document_chunks :=
                   List.filter (fun k => negb (k =? sourceId))
                     (document_chunks (database s)) |};
            index := index' |})
      else (notFound, s)
  | None => (notFound, s)
  end.

(** ** The queue consumer *)

(** The body of a queue message; [data] is the payload handed to the
    processor, [retryCount] may be absent. *)
Record QueueMessage (Data : Type) : Type := {
  type : string;
  sourceId : Z;
  agentId : Z;
  data : Data;
  tenantId : Z;
  priority : Z;
  retryCount : option Z
}.
Arguments type {Data} _.
Arguments sourceId {Data} _.
Arguments agentId {Data} _.
Arguments data {Data} _.
Arguments tenantId {Data} _.
Arguments priority {Data} _.
Arguments retryCount {Data} _.

(** How the handler settles a message: [message.ack()], or
    [message.retry(body)] with the body to deliver again. *)
Inductive Settlement (Data : Type) : Type :=
| ack
| retry (body : QueueMessage Data).
Arguments ack {Data}.
Arguments retry {Data} body.

Definition setStatus (s : string) (row : KnowledgeSource) : KnowledgeSource :=
  {| agent_id := agent_id row; status := s;
     progress_message := progress_message row |}.

Definition setFailed (message : string) (row : KnowledgeSource)
  : KnowledgeSource :=
  {| agent_id := agent_id row; status := "failed";
     progress_message := message |}.

Section Queue.

Variable Data : Type.

(** [processKnowledgeSourcePineconeWithRetry], seen from the handler: from
    the table, the table it leaves and whether it threw. *)
Variable process :
  gmap Z KnowledgeSource -> QueueMessage Data ->
  gmap Z KnowledgeSource * result unit.

(** The body of the loop of [queueHandler], for one message. *)
Definition handleMessage (table : gmap Z KnowledgeSource)
           (msg : QueueMessage Data)
  : gmap Z KnowledgeSource * Settlement Data :=
  let table := alter (setStatus "processing") (sourceId msg) table in
  match process table msg with
  | (table, Ok _) => (table, ack)
  | (table, Err message) =>
      let count := default 0 (retryCount msg) + 1 in
      if count <=? 3 then
        (table,
         retry {| type := type msg;
                  sourceId := sourceId msg; agentId := agentId msg;
                  data := data msg; tenantId := tenantId msg;
                  priority := priority msg; retryCount := Some count |})
      else
        (alter (setFailed ("Processing failed after " ++ decimal count
                           ++ " attempts: " ++ message))
           (sourceId msg) table,
         ack)
  end.

(** [queueHandler]: the messages of the batch, in turn. *)
Fixpoint queueHandler (messages : list (QueueMessage Data))
         (table : gmap Z KnowledgeSource)
  : gmap Z KnowledgeSource * list (Settlement Data) :=
  match messages with
  | [] => (table, [])
  | msg :: rest =>
      let '(table', settlement) := handleMessage table msg in
      let '(table'', settlements) := queueHandler rest table' in
      (table'', settlement :: settlements)
  end.

End Queue.

(** The queue, for one job: a message the handler retries is delivered
    again, with the body given to [retry], in a batch of its own; an
    acknowledged message is gone. [processAt n] is the processing met by the
    [n]-th delivery. The result is the table and the number of deliveries
    made, or [None] while the job is still in the queue when the fuel ends. *)
Fixpoint deliveries {Data} (fuel : nat)
         (processAt : nat -> gmap Z KnowledgeSource -> QueueMessage Data ->
                      gmap Z KnowledgeSource * result unit)
         (n : nat) (table : gmap Z KnowledgeSource) (msg : QueueMessage Data)
  : option (gmap Z KnowledgeSource * nat) :=
  match fuel with
  | O => None
  | S fuel' =>
      match queueHandler Data (processAt n) [msg] table with
      | (table', [retry body]) => deliveries fuel' processAt (S n) table' body
      | (table', _) => Some (table', S n)
      end
  end.

End Worker.

(* ===================================================================== *)
(** * The worker: retries of a job and the prompt of an execution         *)
(* ===================================================================== *)

Module Pipeline.

Import JS Effects.
Local Open Scope Z_scope.

(** ** processKnowledgeSourcePineconeWithRetry *)

(** What a call did: the database it leaves, how it settled, how each
    attempt ended and the waits made between attempts. *)
Record RetryRun (Database : Type) : Type := {
  database : Database;
  outcome : result unit;
  attempts : list (result unit);
  waits : list Z
}.
Arguments database {Database} _.
Arguments outcome {Database} _.
Arguments attempts {Database} _.
Arguments waits {Database} _.

(** [Math.min(1000 * Math.pow(2, attempt - 1), 30000)] *)
Definition retryWait (attempt : Z) : Z :=
  Z.min (1000 * 2 ^ (attempt - 1)) 30000.

Section Retry.

Variable Database : Type.
(** [updateProgress(env, sourceId, percentage, message, stage)]; the update
    is taken to succeed. *)
Variable updateProgress : Z -> Z -> string -> string -> Database -> Database.
(** [processKnowledgeSourcePinecone] at one attempt: the database it leaves
    and whether it threw. *)
Variable processKnowledgeSourcePinecone :
  Z -> Database -> Database * result unit.

(** The loop; [remaining] counts the attempts from [attempt] to
    [maxRetries]. *)
Fixpoint retryLoop (remaining : nat) (sourceId maxRetries attempt : Z)
         (db : Database) (tried : list (result unit)) (waited : list Z)
         (lastError : option string) : RetryRun Database :=
  match remaining with
  | O =>
      {| database := db;
         outcome :=
           Err (match lastError with
                | Some message => message
                | None => "Processing failed after all retry attempts"%string
                end);
         attempts := tried; waits := waited |}
  | S remaining' =>
      let db :=
        updateProgress sourceId 5
          ("Processing attempt " ++ decimal attempt ++ "/"
           ++ decimal maxRetries ++ "...") "initializing" db in
      match processKnowledgeSourcePinecone attempt db with
      | (db, Ok _) =>
          {| database := db; outcome := Ok tt;
             attempts := tried ++ [Ok tt]; waits := waited |}
      | (db, Err message) =>
          if attempt <? maxRetries then
            let waitTime := retryWait attempt in
            let db :=
              updateProgress sourceId 10
                ("Attempt " ++ decimal attempt ++ " failed, retrying in "
                 ++ decimal (waitTime / 1000) ++ "s...") "retrying" db in
            retryLoop remaining' sourceId maxRetries (attempt + 1) db
              (tried ++ [Err message]) (waited ++ [waitTime]) (Some message)
          else
            retryLoop remaining' sourceId maxRetries (attempt + 1) db
              (tried ++ [Err message]) waited (Some message)
      end
  end.

Definition processKnowledgeSourcePineconeWithRetry (sourceId maxRetries : Z)
           (db : Database) : RetryRun Database :=
  retryLoop (Z.to_nat maxRetries) sourceId maxRetries 1 db [] [] None.

End Retry.

(** ** The prompt of an execution *)

(** Truthiness of a metadata value. *)
Definition truthyValue (v : MetaValue) : bool :=
  match v with
  | MUndefined => false
  | MInt z => negb (z =? 0)
  | MNum x => Num.truthy x
  | MStr s => match s with [] => false | _ => true end
  | MBool b => b
  | MStrs _ => true
  end.

Section Prompt.

(** How a template string writes a value that is not a string; left open. *)
Variable show : MetaValue -> jsstring.

Definition written (v : MetaValue) : jsstring :=
  match v with MStr s => s | _ => show v end.

(** One element of [contextParts]. *)
Definition contextPart (index : nat) (chunk : Processor.RelevantChunk)
  : jsstring :=
  let source_name :=
    default MUndefined (Processor.chunk_metadata chunk !! "source_name"%string) in
  js "[Source " ++ js (decimal (Z.of_nat index + 1))
     ++ (if truthyValue source_name then js " - " ++ written source_name else [])
     ++ js "]" ++ [NEWLINE] ++ written (Processor.chunk_content chunk).

(** [contextMessage] after the chunks were found. *)
Definition contextMessage (relevantChunks : list Processor.RelevantChunk)
           (message : jsstring) : jsstring :=
  match relevantChunks with
  | [] => message
  | _ =>
      js "Context information:" ++ [NEWLINE]
         ++ join [NEWLINE; NEWLINE] (Store.mapIndexed contextPart 0 relevantChunks)
         ++ [NEWLINE; NEWLINE] ++ js "User question: " ++ message
  end.

(** The columns of [agent_knowledge_settings] read by an execution; the row
    is selected only when [enable_rag = 1]. *)
Record KnowledgeSettings : Type := {
  max_chunks_per_query : Z;
  similarity_threshold : float;
  search_strategy : option string;
  enable_contextual_search : bool
}.

(** The [switch] of [findRelevantChunks] on the strategy it is given. *)
Definition searchStrategyOf (name : string) : Processor.SearchStrategy :=
  if String.eqb name "vector" then Processor.vector
  else if String.eqb name "hybrid" then Processor.hybrid
  else if String.eqb name "contextual" then Processor.contextual
  else Processor.unknown.

(** [knowledgeSettings.search_strategy || 'hybrid'] *)
Definition strategyArgument (settings : KnowledgeSettings) : string :=
  match search_strategy settings with
  | Some name => if String.eqb name "" then "hybrid"%string else name
  | None => "hybrid"%string
  end.

(** The message sent to the model: the user's, under the knowledge found
    when RAG is enabled. An error of the retrieval is caught and the
    message sent as it is. *)
Definition withKnowledge (tools : Store.TextTools) (search : Store.Search)
           (knowledgeSettings : option KnowledgeSettings) (agentId : Z)
           (message : jsstring) : jsstring :=
  match knowledgeSettings with
  | None => message
  | Some settings =>
      match Processor.findRelevantChunks tools search message agentId
              (max_chunks_per_query settings) (similarity_threshold settings)
              (searchStrategyOf (strategyArgument settings))
              (enable_contextual_search settings) Store.noFilters with
      | Ok relevantChunks => contextMessage relevantChunks message
      | Err _ => message
      end
  end.

End Prompt.

(** The values [UpdateKnowledgeSettingsSchema] accepts for
    [search_strategy] (shared/types.ts). *)
Definition acceptedSearchStrategies : list string :=
  ["cosine"; "euclidean"; "hybrid"]%string.

(** ** supportsCustomTemperature *)

Definition restrictedModels : list jsstring :=
  [js "o1"; js "o1-preview"; js "o1-mini"; js "o3"; js "o3-mini"].

Definition supportsCustomTemperature (model : jsstring) : bool :=
  negb (existsb (fun restrictedModel => includes model restrictedModel)
          restrictedModels).

End Pipeline.

(* ===================================================================== *)
(** * Vocabulary of the statements                                        *)
(* ===================================================================== *)

Module Spec.

Import JS Effects.
Local Open Scope Z_scope.

(** A string has ink when some code unit of it is not white space. *)
Definition hasInk (s : jsstring) : bool :=
  existsb (fun c => negb (is_space c)) s.

(** A chunk whose content is not empty after trimming. *)
Definition inked (chunk : Chunker.SemanticChunk) : Prop :=
  trim (Chunker.content chunk) <> [].

(** A search result that scores at least [threshold]. *)
Definition atLeast (threshold : float) (r : Store.PineconeSearchResult) : Prop :=
  Num.geb (Store.similarity r) threshold = true.

(** A score that blends a vector score of at least [floor] with a keyword
    score, both recorded in the metadata bag [md], with the two weights. *)
Definition blended (floor vectorWeight keywordWeight : float)
           (md : gmap string MetaValue) (score : float) : Prop :=
  exists v k,
    md !! "vector_score"%string = Some (MNum v) /\
    md !! "keyword_score"%string = Some (MNum k) /\
    Num.geb v floor = true /\
    score = (v * vectorWeight + k * keywordWeight)%float.

(** What each search strategy guarantees about a chunk it returns: a score
    of at least [threshold] under the vector strategy, of at least 0.7 under
    the contextual one, and under the hybrid one (and the default) the blend
    0.8 * vector + 0.2 * keyword of a vector score of at least 0.5. *)
Definition guaranteed (strategy : Processor.SearchStrategy) (threshold : float)
           (c : Processor.RelevantChunk) : Prop :=
  match strategy with
  | Processor.vector => Num.geb (Processor.chunk_similarity c) threshold = true
  | Processor.contextual => Num.geb (Processor.chunk_similarity c) 0.7 = true
  | Processor.hybrid | Processor.unknown =>
      blended 0.5 0.8 0.2 (Processor.chunk_metadata c)
        (Processor.chunk_similarity c)
  end.

(** The content after the truncation of [addDocument]. *)
Definition truncated (body : jsstring) : jsstring :=
  if 40000 <? len body then slice body 0 40000 else body.

(** A document that an attempt of [addDocument] on [body] sends to the
    index: its embedding is the one of the truncated content, its metadata
    the literal built from the truncated content. *)
Definition sentFor (tools : Store.TextTools) (storage : Store.Storage)
           (knowledgeSourceId agentId chunkIndex : Z)
           (sourceName sourceType : option jsstring)
           (additionalMetadata : gmap string MetaValue)
           (body : jsstring) (d : Store.PineconeDocument) : Prop :=
  exists attempt now,
    1 <= attempt <= 3 /\
    answer (Store.createEmbedding storage attempt (truncated body))
    = Ok (Store.values d) /\
    d = {| Store.id :=
             Store.documentId agentId knowledgeSourceId chunkIndex now;
           Store.values := Store.values d;
           Store.metadata :=
             Store.documentMetadata tools knowledgeSourceId agentId
               (truncated body) chunkIndex sourceName sourceType
               additionalMetadata attempt now |}.

(** The length of the [content] kept in the metadata of a document. *)
Definition storedContentLength (d : Store.PineconeDocument) : option Z :=
  match Store.metadata d !! "content"%string with
  | Some (MStr s) => Some (len s)
  | _ => None
  end.

(** A chunk is stored in time when its call of [addDocument] returned the
    id of its document less than 30 seconds after it was made. *)
Definition countedAsStored
           (call : Chunker.SemanticChunk * Store.AddDocumentRun) : bool :=
  isOk (Store.returned (snd call)) && (Store.finished (snd call) <? 30000).

Definition storedCount
           (calls : list (Chunker.SemanticChunk * Store.AddDocumentRun)) : Z :=
  Z.of_nat (length (List.filter countedAsStored calls)).

(** The counter of the storage loop agrees with the calls made so far. *)
Definition counted (progress : Processor.Progress) : Prop :=
  Processor.successCount progress = storedCount (Processor.calls progress).

(** A call recorded by the storage loop is the call of [addDocument] for
    its chunk. *)
Definition recorded (tools : Store.TextTools) (world : Processor.World)
           (sourceId agentId : Z) (sourceData : Processor.SourceData)
           (settings : Processor.Settings) (startTime : Z)
           (call : Chunker.SemanticChunk * Store.AddDocumentRun) : Prop :=
  exists position batch clock,
    snd call = Processor.storeChunk tools world sourceId agentId sourceData
                 settings startTime position batch clock (fst call).

(** A call recorded by the storage loop for the chunk at [position] is the
    call of [addDocument] for that chunk, with the services it meets. *)
Definition recordedAt (tools : Store.TextTools) (world : Processor.World)
           (sourceId agentId : Z) (sourceData : Processor.SourceData)
           (settings : Processor.Settings) (startTime : Z) (position : nat)
           (call : Chunker.SemanticChunk * Store.AddDocumentRun) : Prop :=
  exists batch clock,
    snd call = Processor.storeChunk tools world sourceId agentId sourceData
                 settings startTime position batch clock (fst call).

(** The documents that the calls of an ingestion left in the index. *)
Definition leftInIndex
           (calls : list (Chunker.SemanticChunk * Store.AddDocumentRun))
  : list Store.PineconeDocument :=
  List.concat (List.map (fun call => Store.accepted (snd call)) calls).

(** What a run of [processKnowledgeSource] shows: the report and, for each
    chunk, which attempts succeeded, whether the call fulfilled, and when it
    ended. *)
Definition outline
           (run : Processor.ProcessingResult *
                  list (Chunker.SemanticChunk * Store.AddDocumentRun))
  : Processor.ProcessingResult * list (list bool * bool * Z) :=
  (fst run,
   List.map (fun call => (List.map isOk (Store.attempts (snd call)),
                          isOk (Store.returned (snd call)),
                          Store.finished (snd call)))
     (snd run)).

(** The retry count of a job, [msg.retryCount || 0]. *)
Definition attemptsOf {Data} (msg : Worker.QueueMessage Data) : Z :=
  default 0 (Worker.retryCount msg).

(** [{ ...msg, retryCount }] *)
Definition redelivered {Data} (msg : Worker.QueueMessage Data) (count : Z)
  : Worker.QueueMessage Data :=
  {| Worker.type := Worker.type msg;
     Worker.sourceId := Worker.sourceId msg;
     Worker.agentId := Worker.agentId msg;
     Worker.data := Worker.data msg;
     Worker.tenantId := Worker.tenantId msg;
     Worker.priority := Worker.priority msg;
     Worker.retryCount := Some count |}.

Definition terminalMessage (count : Z) (message : string) : string :=
  ("Processing failed after " ++ decimal count ++ " attempts: " ++ message)%string.

(** A document of the index that belongs to a knowledge source: its metadata
    carry the id of the source and the id of the agent that owns it. *)
Definition belongsTo (agentId knowledgeSourceId : Z)
           (d : Store.PineconeDocument) : bool :=
  match Store.metadata d !! "agent_id"%string,
        Store.metadata d !! "knowledge_source_id"%string with
  | Some (MInt a), Some (MInt k) => (a =? agentId) && (k =? knowledgeSourceId)
  | _, _ => false
  end.

(** ** The storage services, as the attempts of [addDocument] meet them *)

(** A request that is answered, and before the 30 seconds of the timer it
    is raced against. *)
Definition answersInTime {A} (call : Call A) : bool :=
  isOk (answer call) && (duration call <? 30000).

(** The services succeed at the attempt: the embedding of the content, cut
    at 40000 code units, and the upsert of the document are answered in
    time. *)
Definition storageSucceeds (storage : Store.Storage) (attempt : Z)
           (body : jsstring) : Prop :=
  answersInTime (Store.createEmbedding storage attempt (truncated body)) = true /\
  forall document, answersInTime (Store.upsert storage attempt document) = true.

(** The services fail at the attempt: the embedding is not answered in
    time, or the upsert is not. *)
Definition storageFails (storage : Store.Storage) (attempt : Z)
           (body : jsstring) : Prop :=
  answersInTime (Store.createEmbedding storage attempt (truncated body)) = false \/
  forall document, answersInTime (Store.upsert storage attempt document) = false.

(** The services fail at the attempts before the [n]-th and succeed at the
    [n]-th. *)
Definition succeedsAtAttempt (storage : Store.Storage) (body : jsstring)
           (n : nat) : Prop :=
  (forall k, (1 <= k < n)%nat -> storageFails storage (Z.of_nat k) body) /\
  storageSucceeds storage (Z.of_nat n) body.

(** Every request to the services for the content takes at most [ms]
    milliseconds. *)
Definition servicesTake (storage : Store.Storage) (ms : Z) (body : jsstring)
  : Prop :=
  forall attempt,
    duration (Store.createEmbedding storage attempt (truncated body)) <= ms /\
    forall document, duration (Store.upsert storage attempt document) <= ms.

(** The waits after the failed attempts 1 to [n]:
    [min(1000 * 2^(k-1), 5000)] milliseconds after attempt [k]. *)
Definition backoff (n : nat) : list Z :=
  List.map (fun k => Z.min (1000 * 2 ^ (Z.of_nat k - 1)) 5000) (seq 1 n).

(** The index holds a document of the chunk of a call: one that the index
    accepted from the call, with the ids of the agent and of the source, the
    index of the chunk and its content, cut at 40000 code units. *)
Definition inIndex (agentId sourceId : Z)
           (call : Chunker.SemanticChunk * Store.AddDocumentRun) : Prop :=
  exists d,
    In d (Store.accepted (snd call)) /\
    belongsTo agentId sourceId d = true /\
    Store.metadata d !! "chunk_index"%string
    = Some (MInt (Chunker.chunk_index (fst call))) /\
    Store.metadata d !! "content"%string
    = Some (MStr (truncated (Chunker.content (fst call)))).

(** ** What the segmentation keeps *)

(** [t] occurs in [s] as a substring. *)
Definition occursIn (t s : jsstring) : Prop :=
  exists before after, s = before ++ t ++ after.

(** A string that starts and ends with ink: trimming keeps it whole. *)
Definition tight (t : jsstring) : Prop :=
  (exists a u, t = a :: u /\ is_space a = false) /\
  (exists v b, t = v ++ [b] /\ is_space b = false).

(** Some chunk of the list holds [t] in its content. *)
Definition carriedBy (t : jsstring) (chunks : list Chunker.SemanticChunk) : Prop :=
  exists c, In c chunks /\ occursIn t (Chunker.content c).

(** ** The shape of a list of chunks *)

(** The chunks are numbered 0, 1, 2, ... in the order of the list. *)
Definition numbered (chunks : list Chunker.SemanticChunk) : Prop :=
  List.map Chunker.chunk_index chunks
  = List.map Z.of_nat (seq 0 (length chunks)).

(** The span recorded for a chunk is as long as the recorded length, and the
    content, which is trimmed, is no longer than that. *)
Definition wellSpanned (c : Chunker.SemanticChunk) : Prop :=
  Chunker.end_index (Chunker.metadata c)
  = Chunker.start_index (Chunker.metadata c)
    + Chunker.length_ (Chunker.metadata c) /\
  len (Chunker.content c) <= Chunker.length_ (Chunker.metadata c).

(** ** Cleaned text *)

(** White space occurs in [s] only as single spaces: every white-space code
    unit is a space, and no two are adjacent ([afterSpace] tells that the
    code unit before [s] is a space). *)
Fixpoint singleSpaced (afterSpace : bool) (s : jsstring) : bool :=
  match s with
  | [] => true
  | c :: r =>
      if is_space c
      then (c =? SPACE)%N && negb afterSpace && singleSpaced true r
      else singleSpaced false r
  end.

(** ** The index and the job *)

(** A document of the index that belongs to an agent. *)
Definition ownedBy (agentId : Z) (d : Store.PineconeDocument) : bool :=
  match Store.metadata d !! "agent_id"%string with
  | Some (MInt a) => a =? agentId
  | _ => false
  end.

(** The waits after the attempts 1 to [n]. *)
Definition retryWaits (n : nat) : list Z :=
  List.map (fun k => Pipeline.retryWait (Z.of_nat k)) (seq 1 n).

End Spec.

(* ===================================================================== *)
(** * Concrete inputs                                                    *)
(* ===================================================================== *)

Module Fixtures.

Import JS Effects.
Local Open Scope Z_scope.

(** Lower case on ASCII, where it is [toLowerCase]. *)
Definition asciiLower (s : jsstring) : jsstring :=
  List.map (fun c => if ((65 <=? c) && (c <=? 90))%N then (c + 32)%N else c) s.

Definition plainTools : Store.TextTools :=
  {| Store.toLowerCase := asciiLower;
     Store.toISOString := fun z => js (decimal z);
     Store.classifyContent := fun _ => js "general";
     Store.detectLanguage := fun _ => js "unknown";
     Store.top_keywords := fun _ => [];
     Store.keyword_density := fun _ => 0%float |}.

Definition answering {A} (ms : Z) (r : result A) : Call A :=
  {| duration := ms; answer := r |}.

(** ** Retrieval *)

Definition storedChunk (s : float) : Store.ScoredMatch :=
  {| Store.match_id := js "3_7_0_1700000000000";
     Store.score := Some s;
     Store.match_metadata :=
       Some (<["content" := MStr (js "alpha beta")]>
               (<["chunk_index" := MInt 0]>
                  (<["knowledge_source_id" := MInt 7]>
                     (<["agent_id" := MInt 3]> ∅)))) |}.

(** An index that answers the search with one match of score [s], and fails
    the context queries. *)
Definition oneMatch (s : float) : Store.Search :=
  {| Store.embed := fun _ _ => Ok [0.5; 0.5]%float;
     Store.query := fun call _ =>
       match call with
       | O => Ok (Some [storedChunk s])
       | S _ => Err "index unavailable"
       end |}.

Definition noMatch : Store.Search :=
  {| Store.embed := fun _ _ => Ok [0.5; 0.5]%float;
     Store.query := fun _ _ => Ok (Some []) |}.

Definition unavailable : Store.Search :=
  {| Store.embed := fun _ _ => Ok [0.5; 0.5]%float;
     Store.query := fun _ _ => Err "index unavailable" |}.

(** ** Segmentation *)

Definition threeSentences : jsstring :=
  js "Alpha beta gamma delta. Epsilon zeta eta theta. Iota kappa lambda mu.".

(** Two sentences alike, the third unlike them. *)
Definition twoTopics (i : Z) (batch : list jsstring)
  : option (list Chunker.vector) :=
  Some [[1; 0]; [1; 0]; [0; 1]]%float.

Definition gappedSentences : jsstring :=
  js "Aaaaaaaaaa          bbbbbbbbbb. Second sentence here. Third sentence here.".

(** Each sentence unlike its neighbour. *)
Definition alternating (i : Z) (batch : list jsstring)
  : option (list Chunker.vector) :=
  Some [[1; 0]; [0; 1]; [1; 0]]%float.

Definition twoShortParagraphs : jsstring :=
  [70; 105; 114; 115; 116; 32; 112; 97; 114; 116; 46; 10; 32; 10;
   83; 101; 99; 111; 110; 100; 46]%N.

(** ** Ingestion *)

Definition promptStorage : Store.Storage :=
  {| Store.createEmbedding := fun _ _ => answering 100 (Ok [0.5; 0.5]%float);
     Store.upsert := fun _ _ => answering 100 (Ok tt) |}.

(** The upsert fails twice, at once, and succeeds at the third attempt. *)
Definition thirdTimeLucky : Store.Storage :=
  {| Store.createEmbedding := fun _ _ => answering 100 (Ok [0.5; 0.5]%float);
     Store.upsert := fun attempt _ =>
       if attempt <? 3 then answering 100 (Err "503 Service Unavailable")
       else answering 100 (Ok tt) |}.

(** The embedding fails twice, each time after 15 seconds, and succeeds at
    the third attempt. *)
Definition slowFailures : Store.Storage :=
  {| Store.createEmbedding := fun attempt _ =>
       if attempt <? 3 then answering 15000 (Err "504 Gateway Timeout")
       else answering 100 (Ok [0.5; 0.5]%float);
     Store.upsert := fun _ _ => answering 100 (Ok tt) |}.

(** The embedding takes 0.1 s and the upsert 29.95 s; both succeed at the
    first attempt. *)
Definition slowUpsert : Store.Storage :=
  {| Store.createEmbedding := fun _ _ => answering 100 (Ok [0.5; 0.5]%float);
     Store.upsert := fun _ _ => answering 29950 (Ok tt) |}.

Definition worldWith (storage : Store.Storage) : Processor.World :=
  {| Processor.processUrl := fun _ => answering 0 (Err "no network");
     Processor.processYouTube := fun _ => answering 0 (Err "no network");
     Processor.embedBatch := fun _ _ => None;
     Processor.chunkingTime := 5;
     Processor.storageOf := fun _ => storage |}.

Definition twoParagraphs : jsstring :=
  js "First paragraph of the notes." ++ [NEWLINE; NEWLINE]
     ++ js "Second paragraph of the notes.".

Definition notes : Processor.SourceData :=
  {| Processor.type := "text"; Processor.name := js "notes";
     Processor.source_url := None;
     Processor.content := Some twoParagraphs;
     Processor.file_path := None |}.

Definition smallParagraphs : Processor.Settings :=
  {| Processor.chunk_size := 40; Processor.chunk_overlap := 0;
     Processor.chunking_strategy := "paragraph" |}.

Definition oneChunk : Processor.Settings :=
  {| Processor.chunk_size := 2000; Processor.chunk_overlap := 400;
     Processor.chunking_strategy := "paragraph" |}.

(** What a run returned, when it returned. *)
Definition returnedBy
           (run : option (Processor.ProcessingResult *
                          list (Chunker.SemanticChunk * Store.AddDocumentRun)))
  : Processor.ProcessingResult *
    list (Chunker.SemanticChunk * Store.AddDocumentRun) :=
  match run with
  | Some outcome => outcome
  | None => ({| Processor.success := false; Processor.chunks_count := 0;
                Processor.error := None |}, [])
  end.

(** The ingestion of the notes, in chunks of at most 40 code units, with
    the given storage. *)
Definition ingestNotes (storage : Store.Storage)
  : option (Processor.ProcessingResult *
            list (Chunker.SemanticChunk * Store.AddDocumentRun)) :=
  Processor.processKnowledgeSource plainTools (worldWith storage) 7 3 notes
    smallParagraphs 1700000000000 0.

(** Additional metadata that carry a [content] of their own, of 40001 code
    units. *)
Definition ownContent : gmap string MetaValue :=
  <["content" := MStr (repeat 97%N 40001)]> ∅.

(** ** The worker *)

(** Source 7 of agent 3, with one chunk in the index. *)
Definition sourceSeven : Worker.Service :=
  {| Worker.database :=
       {| Worker.knowledge_sources :=
            <[7 := {| Worker.agent_id := 3; Worker.status := "completed";
                      Worker.progress_message := "" |}]> ∅;
          Worker.document_chunks := [] |};
     Worker.index :=
       [{| Store.id := js "3_7_0_1700000000000";
           Store.values := [0.5; 0.5]%float;
           Store.metadata :=
             <["agent_id" := MInt 3]>
               (<["knowledge_source_id" := MInt 7]>
                  (<["content" := MStr (js "alpha beta")]> ∅)) |}] |}.

Definition jobSeven : Worker.QueueMessage unit :=
  {| Worker.type := "rag_processing"; Worker.sourceId := 7;
     Worker.agentId := 3; Worker.data := tt; Worker.tenantId := 1;
     Worker.priority := 1; Worker.retryCount := Some 0 |}.

Definition pendingSeven : gmap Z Worker.KnowledgeSource :=
  <[7 := {| Worker.agent_id := 3; Worker.status := "pending";
            Worker.progress_message := "" |}]> ∅.

(** A processing that fails at every delivery and leaves the table alone. *)
Definition alwaysFailing (n : nat) (table : gmap Z Worker.KnowledgeSource)
           (msg : Worker.QueueMessage unit)
  : gmap Z Worker.KnowledgeSource * result unit :=
  (table, Err "Storage failed: Failed to store any chunks").

(** ** More inputs *)

(** An embedding service that fails at every request. *)
Definition outage (i : Z) (batch : list jsstring)
  : option (list Chunker.vector) := None.

(** The chunks a call returned, when it returned. *)
Definition chunksOf (run : option (list Chunker.SemanticChunk))
  : list Chunker.SemanticChunk := default [] run.

(** The results a search found, when it did not fail. *)
Definition foundBy (r : result (list Store.PineconeSearchResult))
  : list Store.PineconeSearchResult :=
  match r with Ok results => results | Err _ => [] end.

Definition plainLines : jsstring :=
  js "first line" ++ [NEWLINE] ++ js "second line".

Definition videoId : jsstring := js "dQw4w9WgXcQ".

(** Settings written through the settings endpoint. *)
Definition cosineSettings : Pipeline.KnowledgeSettings :=
  {| Pipeline.max_chunks_per_query := 5;
     Pipeline.similarity_threshold := 0.7;
     Pipeline.search_strategy := Some "cosine"%string;
     Pipeline.enable_contextual_search := false |}.

End Fixtures.

(* ===================================================================== *)
(** * Properties of the string and array primitives                       *)
(* ===================================================================== *)

Import JS Effects.
Local Open Scope Z_scope.

Lemma len_nonneg s : 0 <= len s.
Proof. unfold len. lia. Qed.

Lemma len_positive s : (0 <? len s) = true <-> s <> [].
Proof. unfold len. destruct s; simpl; split; intros H; try done; lia. Qed.

Lemma relativeIndex_zero size : 0 <= size -> relativeIndex size 0 = 0.
Proof. intros H. unfold relativeIndex. simpl. lia. Qed.

Lemma relativeIndex_bound size i :
  0 <= size -> 0 <= i -> 0 <= relativeIndex size i <= i.
Proof.
  intros Hs Hi. unfold relativeIndex.
  destruct (Z.ltb_spec i 0); lia.
Qed.

Lemma slice_prefix_length s n : 0 <= n -> len (slice s 0 n) <= n.
Proof.
  intros H. unfold slice. pose proof (len_nonneg s) as Hs.
  rewrite relativeIndex_zero by exact Hs. simpl skipn.
  unfold len at 1. rewrite length_firstn.
  pose proof (relativeIndex_bound (len s) n Hs H). lia.
Qed.

Lemma slice_all s n : len s <= n -> slice s 0 n = s.
Proof.
  intros H. unfold slice. pose proof (len_nonneg s) as Hs.
  rewrite relativeIndex_zero by exact Hs. simpl skipn.
  apply firstn_all2. unfold relativeIndex.
  destruct (Z.ltb_spec n 0); [lia|]. unfold len in *. lia.
Qed.

Lemma arraySlice_prefix_length {A} (l : list A) (limit : Z) :
  0 <= limit -> Z.of_nat (length (arraySlice l 0 limit)) <= limit.
Proof.
  intros H. unfold arraySlice.
  rewrite relativeIndex_zero by lia. simpl skipn.
  rewrite length_firstn.
  pose proof (relativeIndex_bound (Z.of_nat (length l)) limit ltac:(lia) H). lia.
Qed.

Lemma arraySlice_Forall {A} (P : A -> Prop) (l : list A) a b :
  Forall P l -> Forall P (arraySlice l a b).
Proof. intros H. unfold arraySlice. by apply Forall_take, Forall_drop. Qed.

(** ** Trimming and ink *)

Lemma hasInk_app s t : Spec.hasInk (s ++ t) = Spec.hasInk s || Spec.hasInk t.
Proof. apply existsb_app. Qed.

Lemma hasInk_after s t : Spec.hasInk t = true -> Spec.hasInk (s ++ t) = true.
Proof. intros H. rewrite hasInk_app, H. apply orb_true_r. Qed.

Lemma hasInk_cons c t : Spec.hasInk t = true -> Spec.hasInk (c :: t) = true.
Proof. intros H. change (c :: t) with ([c] ++ t). by apply hasInk_after. Qed.

Lemma hasInk_rev s : Spec.hasInk (rev s) = Spec.hasInk s.
Proof.
  induction s as [|c r IH]; [done|].
  simpl rev. rewrite hasInk_app, IH. simpl. rewrite orb_false_r. apply orb_comm.
Qed.

Lemma hasInk_trimStart s : Spec.hasInk (trimStart s) = Spec.hasInk s.
Proof.
  induction s as [|c r IH]; [done|]. simpl.
  destruct (is_space c) eqn:E; simpl; [exact IH|]. by rewrite E.
Qed.

Lemma hasInk_trim s : Spec.hasInk (trim s) = Spec.hasInk s.
Proof.
  unfold trim, trimEnd.
  by rewrite hasInk_rev, hasInk_trimStart, hasInk_rev, hasInk_trimStart.
Qed.

Lemma trimStart_nil s : trimStart s = [] <-> Spec.hasInk s = false.
Proof.
  induction s as [|c r IH]; [done|]. simpl.
  destruct (is_space c); simpl; [exact IH|]. split; discriminate.
Qed.

Lemma trim_nil s : trim s = [] <-> Spec.hasInk s = false.
Proof.
  unfold trim, trimEnd. split.
  - intros H. apply (f_equal (@rev N)) in H. rewrite rev_involutive in H.
    simpl in H. apply trimStart_nil in H.
    by rewrite hasInk_rev, hasInk_trimStart in H.
  - intros H.
    assert (E : trimStart (rev (trimStart s)) = []).
    { apply trimStart_nil. by rewrite hasInk_rev, hasInk_trimStart. }
    by rewrite E.
Qed.

Lemma nonBlank_ink s : (0 <? len (trim s)) = true <-> Spec.hasInk s = true.
Proof.
  rewrite len_positive. pose proof (trim_nil s) as H.
  destruct (Spec.hasInk s); split; intros H'; try done.
  - intros E. apply H in E. discriminate.
  - exfalso. apply H'. by apply H.
Qed.

(** A string with ink is still not empty after two trims. *)
Lemma trimmed_twice s : Spec.hasInk s = true -> trim (trim s) <> [].
Proof.
  intros H E. apply trim_nil in E. rewrite hasInk_trim in E. congruence.
Qed.

(* ===================================================================== *)
(** * Segmentation                                                      *)
(* ===================================================================== *)

(** ** The character sub-splitting *)

(** With a positive overlap the loop never leaves: [start] is set to
    [end - overlap], which stays below the length of the text. *)
Lemma simpleCharacterSplitLoop_diverges fuel text maxSize overlap start chunks :
  0 < overlap -> start < len text ->
  Chunker.simpleCharacterSplitLoop fuel text maxSize overlap start chunks = None.
Proof.
  intros Ho. revert start chunks.
  induction fuel as [|fuel IH]; intros start chunks Hs; simpl; [done|].
  destruct (Z.ltb_spec start (len text)); [|lia].
  apply IH. lia.
Qed.

(** Without overlap it ends, within one step per code unit. *)
Lemma simpleCharacterSplitLoop_terminates fuel text maxSize start chunks :
  0 < maxSize -> 0 <= start ->
  Z.max 0 (len text - start) < Z.of_nat fuel ->
  exists parts,
    Chunker.simpleCharacterSplitLoop fuel text maxSize 0 start chunks
    = Some parts.
Proof.
  intros Hm. revert start chunks.
  induction fuel as [|fuel IH]; intros start chunks H0 Hf; simpl.
  - lia.
  - destruct (Z.ltb_spec start (len text)); [|eauto].
    apply IH; lia.
Qed.

Lemma simpleCharacterSplit_without_overlap text maxSize :
  0 < maxSize ->
  exists parts,
    Chunker.simpleCharacterSplit (S (length text)) text maxSize 0 = Some parts.
Proof.
  intros Hm. unfold Chunker.simpleCharacterSplit.
  apply simpleCharacterSplitLoop_terminates; [exact Hm | lia |].
  unfold len. lia.
Qed.

Lemma simpleCharacterSplit_with_overlap fuel text maxSize overlap :
  0 < overlap -> text <> [] ->
  Chunker.simpleCharacterSplit fuel text maxSize overlap = None.
Proof.
  intros Ho Ht. unfold Chunker.simpleCharacterSplit.
  apply simpleCharacterSplitLoop_diverges; [exact Ho|].
  apply Z.ltb_lt. by apply len_positive.
Qed.

(** C2, at a failing input: three sentences of 23, 23 and 21 code units,
    [maxChunkSize = 20], [overlap = 5], and embeddings that put a breakpoint
    before the third sentence. The first group is 47 code units long, more
    than 1.5 x 20, and its sub-splitting is still running whatever the fuel:
    the segmentation does not return. *)
Theorem semantic_subsplit_never_returns fuel :
  Chunker.chunkTextSemantically Fixtures.twoTopics fuel
    Fixtures.threeSentences 20 5 Chunker.bySemantic = None.
Proof.
  cbn [Chunker.chunkTextSemantically]. unfold Chunker.chunkBySemantic.
  lazy -[Chunker.groupLoop Chunker.chunkByParagraphs].
  cbn [Chunker.groupLoop].
  lazy -[Chunker.groupLoop Chunker.chunkByParagraphs
         Chunker.simpleCharacterSplit Chunker.pushParts].
  rewrite simpleCharacterSplit_with_overlap; [reflexivity | lia | discriminate].
Qed.

Section Segmentation.

Import Chunker.

Variable embedBatch : Z -> list jsstring -> option (list vector).

(** C5, as the code has it: for a text longer than [maxChunkSize] with
    fewer than 3 sentences, the semantic strategy returns exactly what the
    paragraph strategy returns on the same text, size and overlap. *)
Theorem semantic_falls_back_to_paragraphs fuel text maxChunkSize overlap :
  maxChunkSize < len text ->
  (length (splitIntoSentences text) < 3)%nat ->
  chunkTextSemantically embedBatch fuel text maxChunkSize overlap bySemantic
  = chunkTextSemantically embedBatch fuel text maxChunkSize overlap byParagraph.
Proof.
  intros Hlong Hfew. simpl. unfold chunkBySemantic.
  destruct (Z.leb_spec (len text) maxChunkSize); [lia|].
  destruct (Z.leb_spec (Z.of_nat (length (splitIntoSentences text))) 2); [|lia].
  reflexivity.
Qed.

(** ** No blank chunk outside the semantic strategy *)

Lemma accumulated_inked kind currentChunk startIndex chunkIndex :
  Spec.hasInk currentChunk = true ->
  Spec.inked (accumulated kind currentChunk startIndex chunkIndex).
Proof. intros H. unfold Spec.inked. simpl. by apply trimmed_twice. Qed.

Lemma ink_of_nonempty s :
  s = [] \/ Spec.hasInk s = true -> (0 <? len s) = true -> Spec.hasInk s = true.
Proof. intros [->|H] Hl; [discriminate|exact H]. Qed.

Lemma paragraphLoop_inked text maxChunkSize overlap paragraphs chunks
      currentChunk chunkIndex startIndex :
  Forall (fun p => Spec.hasInk p = true) paragraphs ->
  Forall Spec.inked chunks ->
  currentChunk = [] \/ Spec.hasInk currentChunk = true ->
  Forall Spec.inked
    (paragraphLoop text maxChunkSize overlap paragraphs chunks currentChunk
       chunkIndex startIndex).
Proof.
  intros Hp. revert chunks currentChunk chunkIndex startIndex.
  induction Hp as [|p rest Hink Hrest IH];
    intros chunks currentChunk chunkIndex startIndex Hchunks Hcur; simpl.
  - destruct (0 <? len (trim currentChunk)) eqn:E; [|exact Hchunks].
    apply Forall_app. split; [exact Hchunks|]. constructor; [|constructor].
    apply accumulated_inked. by apply nonBlank_ink.
  - assert (Htrim : Spec.hasInk (trim p) = true) by (by rewrite hasInk_trim).
    destruct (0 <? len currentChunk) eqn:Elen.
    + rewrite andb_true_r.
      destruct (maxChunkSize <? len currentChunk + len (trim p)).
      * apply IH.
        -- apply Forall_app. split; [exact Hchunks|]. constructor; [|constructor].
           apply accumulated_inked. by apply ink_of_nonempty.
        -- right. apply hasInk_after. by do 2 apply hasInk_cons.
      * apply IH; [exact Hchunks|].
        right. apply hasInk_after. by do 2 apply hasInk_cons.
    + rewrite andb_false_r. apply IH; [exact Hchunks|by right].
Qed.

Lemma filter_nonBlank_ink pieces :
  Forall (fun p => Spec.hasInk p = true) (List.filter nonBlank pieces).
Proof.
  apply List.Forall_forall. intros p Hp.
  apply List.filter_In in Hp as [_ Hp]. by apply nonBlank_ink.
Qed.

Lemma chunkByParagraphs_inked text maxChunkSize overlap :
  Forall Spec.inked (chunkByParagraphs text maxChunkSize overlap).
Proof.
  unfold chunkByParagraphs.
  apply paragraphLoop_inked; [apply filter_nonBlank_ink | constructor | by left].
Qed.

Lemma appendDot_ink s : Spec.hasInk (appendDot s) = true.
Proof. unfold appendDot. rewrite hasInk_app. simpl. apply orb_true_r. Qed.

Lemma longer_trimmed_ink n pieces :
  0 <= n ->
  Forall (fun s => Spec.hasInk s = true)
    (List.filter (fun s => n <? len s) (List.map trim pieces)).
Proof.
  intros Hn. apply List.Forall_forall. intros s Hs.
  apply List.filter_In in Hs as [Hin Hlen].
  apply List.in_map_iff in Hin as (x & <- & _).
  rewrite hasInk_trim. apply (proj1 (nonBlank_ink x)).
  apply Z.ltb_lt. apply Z.ltb_lt in Hlen. lia.
Qed.

Lemma splitIntoSentences_ink text :
  Forall (fun s => Spec.hasInk s = true) (splitIntoSentences text).
Proof.
  unfold splitIntoSentences.
  destruct (_ <=? 1).
  - apply List.Forall_forall. intros s Hs.
    apply List.in_map_iff in Hs as (x & <- & _). apply appendDot_ink.
  - apply List.Forall_forall. intros s Hs.
    apply List.in_map_iff in Hs as (x & <- & Hx).
    destruct (endsWithTerminator x); [|apply appendDot_ink].
    revert x Hx. apply List.Forall_forall. by apply longer_trimmed_ink.
Qed.

Lemma sentenceLoop_inked text maxChunkSize overlap sentences chunks
      currentChunk chunkIndex startIndex :
  Forall (fun s => Spec.hasInk s = true) sentences ->
  Forall Spec.inked chunks ->
  currentChunk = [] \/ Spec.hasInk currentChunk = true ->
  Forall Spec.inked
    (sentenceLoop text maxChunkSize overlap sentences chunks currentChunk
       chunkIndex startIndex).
Proof.
  intros Hs. revert chunks currentChunk chunkIndex startIndex.
  induction Hs as [|s rest Hink Hrest IH];
    intros chunks currentChunk chunkIndex startIndex Hchunks Hcur; simpl.
  - destruct (0 <? len (trim currentChunk)) eqn:E; [|exact Hchunks].
    apply Forall_app. split; [exact Hchunks|]. constructor; [|constructor].
    apply accumulated_inked. by apply nonBlank_ink.
  - destruct (0 <? len currentChunk) eqn:Elen.
    + rewrite andb_true_r.
      destruct (maxChunkSize <? len currentChunk + len s).
      * apply IH.
        -- apply Forall_app. split; [exact Hchunks|]. constructor; [|constructor].
           apply accumulated_inked. by apply ink_of_nonempty.
        -- right. apply hasInk_after. by apply hasInk_cons.
      * apply IH; [exact Hchunks|].
        right. apply hasInk_after. by apply hasInk_cons.
    + rewrite andb_false_r. apply IH; [exact Hchunks|by right].
Qed.

Lemma chunkBySentences_inked text maxChunkSize overlap :
  Forall Spec.inked (chunkBySentences text maxChunkSize overlap).
Proof.
  unfold chunkBySentences.
  apply sentenceLoop_inked; [apply splitIntoSentences_ink | constructor | by left].
Qed.

Lemma chunkRecursively_inked text maxChunkSize overlap :
  Forall Spec.inked (chunkRecursively text maxChunkSize overlap).
Proof.
  unfold chunkRecursively. apply List.Forall_forall. intros chunk H.
  apply List.filter_In in H as [_ H]. by apply len_positive in H.
Qed.

(** The paragraph, sentence and recursive strategies (and the default) never
    return a chunk whose trimmed content is empty. *)
Lemma segment_inked_unless_semantic fuel text maxChunkSize overlap strategy
      chunks :
  strategy <> bySemantic ->
  chunkTextSemantically embedBatch fuel text maxChunkSize overlap strategy
  = Some chunks ->
  Forall Spec.inked chunks.
Proof.
  intros Hs. destruct strategy; simpl; try done; intros [= <-];
    auto using chunkByParagraphs_inked, chunkBySentences_inked,
               chunkRecursively_inked.
Qed.

End Segmentation.

(** The instance of C5 for a text of two lines, 61 code units long, that the
    sentence splitter reads as two sentences. *)
Lemma semantic_falls_back_witness :
  Chunker.chunkTextSemantically Fixtures.twoTopics 0 Fixtures.twoParagraphs
    40 0 Chunker.bySemantic
  = Chunker.chunkTextSemantically Fixtures.twoTopics 0 Fixtures.twoParagraphs
      40 0 Chunker.byParagraph.
Proof.
  apply (semantic_falls_back_to_paragraphs Fixtures.twoTopics 0
           Fixtures.twoParagraphs 40 0); vm_compute; [reflexivity | lia].
Defined.

(** C5 as stated fails on a short text: "First part.", a line holding one
    space, "Second." has two sentences and fits in one chunk of 2000, so the
    semantic strategy returns the whole text as one chunk tagged [semantic],
    the inner line kept, where the paragraph strategy returns the two
    paragraphs joined by an empty line in a chunk tagged [paragraph]. *)
Lemma semantic_short_text_differs :
  (length (Chunker.splitIntoSentences Fixtures.twoShortParagraphs) < 3)%nat /\
  exists a b,
    Chunker.chunkTextSemantically Fixtures.twoTopics 0
      Fixtures.twoShortParagraphs 2000 400 Chunker.bySemantic = Some [a] /\
    Chunker.chunkTextSemantically Fixtures.twoTopics 0
      Fixtures.twoShortParagraphs 2000 400 Chunker.byParagraph = Some [b] /\
    Chunker.chunk_type (Chunker.metadata a) = Chunker.semantic /\
    Chunker.chunk_type (Chunker.metadata b) = Chunker.paragraph /\
    Chunker.content a = Fixtures.twoShortParagraphs /\
    Chunker.content b = js "First part." ++ [NEWLINE; NEWLINE] ++ js "Second.".
Proof.
  split; [vm_compute; lia|].
  do 2 eexists. repeat split; vm_compute; reflexivity.
Qed.

(** C6, at two failing inputs of the semantic strategy. A text of one space
    fits in one chunk and is returned as a chunk whose content is empty. A
    text whose first sentence holds ten spaces in a row, with
    [maxChunkSize = 10] and no overlap, has that sentence sub-split in parts
    of which the second is nine spaces: a chunk with empty content again. *)
Theorem semantic_returns_blank_chunk :
  (exists blank,
      Chunker.chunkTextSemantically Fixtures.twoTopics 0 [SPACE] 2000 400
        Chunker.bySemantic = Some [blank] /\
      trim (Chunker.content blank) = []) /\
  (exists first blank rest,
      Chunker.chunkTextSemantically Fixtures.alternating 40
        Fixtures.gappedSentences 10 0 Chunker.bySemantic
      = Some (first :: blank :: rest) /\
      trim (Chunker.content blank) = []).
Proof.
  split.
  - eexists. split; vm_compute; reflexivity.
  - do 3 eexists. split; vm_compute; reflexivity.
Qed.

(* ===================================================================== *)
(** * Retrieval                                                          *)
(* ===================================================================== *)

Section Retrieval.

Variable tools : Store.TextTools.
Variable search : Store.Search.

Lemma keepRelevant_atLeast matches threshold :
  Forall (Spec.atLeast threshold) (Store.keepRelevant matches threshold).
Proof.
  induction matches as [|m rest IH]; simpl; [constructor|].
  destruct (Store.match_metadata m) as [md|]; [|exact IH].
  destruct (Num.geb _ threshold) eqn:E; [|exact IH].
  constructor; [exact E | exact IH].
Qed.

Lemma searchSimilar_atLeast text agentId limit threshold filters results :
  Store.searchSimilar search text agentId limit threshold filters = Ok results ->
  Forall (Spec.atLeast threshold) results.
Proof.
  unfold Store.searchSimilar.
  destruct (Store.generateEmbedding search 0 text); [|discriminate].
  destruct (Store.query search 0 _); [|discriminate].
  intros [= <-]. apply arraySlice_Forall, keepRelevant_atLeast.
Qed.

Lemma searchSimilar_length text agentId limit threshold filters results :
  0 <= limit ->
  Store.searchSimilar search text agentId limit threshold filters = Ok results ->
  Z.of_nat (length results) <= limit.
Proof.
  intros Hl. unfold Store.searchSimilar.
  destruct (Store.generateEmbedding search 0 text); [|discriminate].
  destruct (Store.query search 0 _); [|discriminate].
  intros [= <-]. by apply arraySlice_prefix_length.
Qed.

(** Sorting keeps every element. *)
Lemma insertSorted_Forall {A} (P : A -> Prop) after x l :
  P x -> Forall P l -> Forall P (Store.insertSorted after x l).
Proof.
  intros Hx. induction 1 as [|y rest Hy Hrest IH]; simpl.
  - by constructor.
  - destruct (after x y); constructor; auto.
Qed.

Lemma sortBy_Forall {A} (P : A -> Prop) after (l : list A) :
  Forall P l -> Forall P (Store.sortBy after l).
Proof.
  induction 1 as [|x rest Hx Hrest IH]; simpl; [constructor|].
  by apply insertSorted_Forall.
Qed.

Lemma mapResult_Forall {A B} (f : A -> result B) (P : A -> Prop)
      (Q : B -> Prop) l ys :
  (forall x y, P x -> f x = Ok y -> Q y) ->
  Forall P l -> Store.mapResult f l = Ok ys -> Forall Q ys.
Proof.
  intros Hf Hl. revert ys.
  induction Hl as [|x rest Hx Hrest IH]; simpl; intros ys.
  - intros [= <-]. constructor.
  - destruct (f x) as [y|] eqn:Ey; [|discriminate].
    destruct (Store.mapResult f rest) as [ys'|]; [|discriminate].
    intros [= <-]. constructor; eauto.
Qed.

(** A hybrid result blends the vector score it was built from, and keeps
    both scores in its metadata. *)
Lemma enhance_blended keywords vectorWeight keywordWeight floor r e :
  Spec.atLeast floor r ->
  Store.enhance tools keywords vectorWeight keywordWeight r = Ok e ->
  Spec.blended floor vectorWeight keywordWeight (Store.result_metadata e)
    (Store.similarity e).
Proof.
  unfold Store.enhance. intros Hr.
  destruct (Store.content r); try discriminate.
  intros [= <-]. simpl. do 2 eexists.
  split; [|split; [|split; [exact Hr | reflexivity]]].
  - rewrite lookup_insert_ne by done.
    rewrite lookup_insert_ne by done.
    by rewrite lookup_insert_eq.
  - rewrite lookup_insert_ne by done.
    by rewrite lookup_insert_eq.
Qed.

Lemma hybridSearch_blended text agentId limit vectorWeight keywordWeight
      results :
  Store.hybridSearch tools search text agentId limit vectorWeight keywordWeight
  = Ok results ->
  Forall (fun r => Spec.blended 0.5 vectorWeight keywordWeight
                     (Store.result_metadata r) (Store.similarity r)) results.
Proof.
  unfold Store.hybridSearch.
  destruct (Store.searchSimilar _ _ _ _ _ _) as [vectorResults|] eqn:Es;
    [|discriminate].
  destruct (Store.mapResult _ _) as [enhanced|] eqn:Em; [|discriminate].
  intros [= <-]. apply arraySlice_Forall, sortBy_Forall.
  eapply mapResult_Forall; [|eapply searchSimilar_atLeast; exact Es|exact Em].
  intros x y Hx Hy. eapply enhance_blended; eauto.
Qed.

Lemma hybridSearch_length text agentId limit vectorWeight keywordWeight results :
  0 <= limit ->
  Store.hybridSearch tools search text agentId limit vectorWeight keywordWeight
  = Ok results ->
  Z.of_nat (length results) <= limit.
Proof.
  intros Hl. unfold Store.hybridSearch.
  destruct (Store.searchSimilar _ _ _ _ _ _); [|discriminate].
  destruct (Store.mapResult _ _); [|discriminate].
  intros [= <-]. by apply arraySlice_prefix_length.
Qed.

Lemma mapIndexed_length {A B} (f : nat -> A -> B) k l :
  length (Store.mapIndexed f k l) = length l.
Proof. revert k. induction l; simpl; intros; [done|]. by rewrite IHl. Qed.

Lemma mapIndexed_Forall {A B} (f : nat -> A -> B) (P : A -> Prop)
      (Q : B -> Prop) k l :
  (forall k x, P x -> Q (f k x)) ->
  Forall P l -> Forall Q (Store.mapIndexed f k l).
Proof.
  intros Hf Hl. revert k.
  induction Hl; simpl; intros k; constructor; auto.
Qed.

(** Adding the context changes neither the score nor the number of results. *)
Lemma withContext_similarity agentId contextWindow k r :
  Store.similarity (Store.withContext search agentId contextWindow k r)
  = Store.similarity r.
Proof.
  unfold Store.withContext.
  destruct (Store.generateEmbedding search (S k) []); [|done].
  destruct (Store.query search (S k) _); done.
Qed.

Lemma contextualSearch_atLeast text agentId limit contextWindow results :
  Store.contextualSearch search text agentId limit contextWindow = Ok results ->
  Forall (Spec.atLeast 0.7) results.
Proof.
  unfold Store.contextualSearch.
  destruct (Store.searchSimilar _ _ _ _ _ _) as [found|] eqn:Es; [|discriminate].
  intros [= <-].
  eapply mapIndexed_Forall; [|eapply searchSimilar_atLeast; exact Es].
  intros k x Hx. unfold Spec.atLeast. by rewrite withContext_similarity.
Qed.

Lemma contextualSearch_length text agentId limit contextWindow results :
  0 <= limit ->
  Store.contextualSearch search text agentId limit contextWindow = Ok results ->
  Z.of_nat (length results) <= limit.
Proof.
  intros Hl. unfold Store.contextualSearch.
  destruct (Store.searchSimilar _ _ _ _ _ _) as [found|] eqn:Es; [|discriminate].
  intros [= <-]. rewrite mapIndexed_length.
  eapply searchSimilar_length; eauto.
Qed.

Lemma delegated_guaranteed text agentId maxChunks threshold strategy filters
      results :
  Processor.delegated tools search text agentId maxChunks threshold strategy
    filters = Ok results ->
  Forall (Spec.guaranteed strategy threshold)
    (List.map Processor.relevant results).
Proof.
  intros H. apply Forall_map.
  destruct strategy; simpl in *.
  - eapply searchSimilar_atLeast; eauto.
  - eapply hybridSearch_blended; eauto.
  - eapply contextualSearch_atLeast; eauto.
  - eapply hybridSearch_blended; eauto.
Qed.

Lemma delegated_length text agentId maxChunks threshold strategy filters
      results :
  0 <= maxChunks ->
  Processor.delegated tools search text agentId maxChunks threshold strategy
    filters = Ok results ->
  Z.of_nat (length results) <= maxChunks.
Proof.
  intros Hm H. destruct strategy; simpl in H.
  - eapply searchSimilar_length; eauto.
  - eapply hybridSearch_length; eauto.
  - eapply contextualSearch_length; eauto.
  - eapply hybridSearch_length; eauto.
Qed.


Lemma generateEmbedding_ok call text :
  (forall t, exists v, Store.embed search call t = Ok v) ->
  exists v, Store.generateEmbedding search call text = Ok v.
Proof. intros He. unfold Store.generateEmbedding. apply He. Qed.

Lemma searchSimilar_raises text agentId limit threshold filters message :
  (forall request, Store.query search 0 request = Err message) ->
  (forall t, exists v, Store.embed search 0 t = Ok v) ->
  Store.searchSimilar search text agentId limit threshold filters = Err message.
Proof.
  intros Hq He. unfold Store.searchSimilar.
  destruct (generateEmbedding_ok 0 text He) as [v ->]. by rewrite Hq.
Qed.

Lemma searchSimilar_no_match text agentId limit threshold filters :
  (forall request, Store.query search 0 request = Ok (Some []) \/
                   Store.query search 0 request = Ok None) ->
  (forall t, exists v, Store.embed search 0 t = Ok v) ->
  Store.searchSimilar search text agentId limit threshold filters = Ok [].
Proof.
  intros Hq He. unfold Store.searchSimilar.
  destruct (generateEmbedding_ok 0 text He) as [v ->].
  destruct (Hq {| Store.query_vector := v; Store.topK := limit * 2;
                  Store.filter := Store.pineconeFilter agentId filters;
                  Store.includeMetadata := true;
                  Store.includeValues := false |}) as [-> | ->];
    simpl; unfold arraySlice; simpl; by rewrite firstn_nil.
Qed.


End Retrieval.





(* ===================================================================== *)
(** * Storing a chunk                                                   *)
(* ===================================================================== *)

Lemma truncated_length body : len (Spec.truncated body) <= 40000.
Proof.
  unfold Spec.truncated. destruct (Z.ltb_spec 40000 (len body)); [|lia].
  by apply slice_prefix_length.
Qed.

Lemma truncated_idempotent body :
  Spec.truncated (Spec.truncated body) = Spec.truncated body.
Proof.
  pose proof (truncated_length body).
  unfold Spec.truncated at 1.
  destruct (Z.ltb_spec 40000 (len (Spec.truncated body))); [lia|done].
Qed.

Lemma race_ok {A} (call : Call A) limit message spent (value : A) :
  race call limit message = (spent, Ok value) ->
  answer call = Ok value /\ spent = duration call /\ duration call < limit.
Proof.
  unfold race. destruct (Z.ltb_spec (duration call) limit); [|discriminate].
  intros [= <- E]. auto.
Qed.

(** ** The attempts of [addDocument] and the services *)

Lemma race_spent {A} (call : Call A) limit message :
  fst (race call limit message) <= duration call.
Proof. unfold race. destruct (Z.ltb_spec (duration call) limit); simpl; lia. Qed.

Lemma race_answered {A} (call : Call A) message :
  Spec.answersInTime call = true ->
  exists value, race call 30000 message = (duration call, Ok value).
Proof.
  unfold Spec.answersInTime, race. intros H.
  apply andb_prop in H as [Ha ->]. destruct (answer call); [by eexists|done].
Qed.

Lemma race_unanswered {A} (call : Call A) message :
  Spec.answersInTime call = false ->
  exists spent failure, race call 30000 message = (spent, Err failure).
Proof.
  unfold Spec.answersInTime, race. intros H.
  destruct (duration call <? 30000); [|by do 2 eexists].
  destruct (answer call); [done | by do 2 eexists].
Qed.

Lemma ink_of_prefix n s : Spec.hasInk (firstn n s) = true -> Spec.hasInk s = true.
Proof.
  revert n. induction s as [|c r IH]; intros [|n]; simpl; try done.
  destruct (negb (is_space c)); [done|]. apply IH.
Qed.

Lemma trim_truncated body : trim (Spec.truncated body) <> [] -> trim body <> [].
Proof.
  unfold Spec.truncated. destruct (40000 <? len body); [|done].
  intros H Hb. apply H. apply trim_nil. apply trim_nil in Hb.
  destruct (Spec.hasInk (slice body 0 40000)) eqn:E; [|done].
  unfold slice in E. rewrite relativeIndex_zero in E by apply len_nonneg.
  apply ink_of_prefix in E. change (Z.to_nat 0) with 0%nat in E.
  rewrite skipn_O in E.
  congruence.
Qed.

Lemma notBlank body :
  trim body <> [] -> (len body =? 0) || (len (trim body) =? 0) = false.
Proof.
  intros H. apply orb_false_iff. split; apply Z.eqb_neq; unfold len.
  - destruct body; [done | simpl; lia].
  - destruct (trim body); [done | simpl; lia].
Qed.

Section AddDocument.

Variable tools : Store.TextTools.
Variable storage : Store.Storage.
Variables (knowledgeSourceId agentId chunkIndex : Z).
Variables (sourceName sourceType : option jsstring).
Variable additionalMetadata : gmap string MetaValue.
Variable startTime : Z.

Abbreviation attemptOnce :=
  (Store.attemptOnce tools storage knowledgeSourceId agentId chunkIndex
     sourceName sourceType additionalMetadata startTime).
Abbreviation attemptLoop :=
  (Store.attemptLoop tools storage knowledgeSourceId agentId chunkIndex
     sourceName sourceType additionalMetadata startTime).
Abbreviation addDocument :=
  (Store.addDocument tools storage knowledgeSourceId agentId chunkIndex
     sourceName sourceType additionalMetadata startTime).
Abbreviation sentFor :=
  (Spec.sentFor tools storage knowledgeSourceId agentId chunkIndex sourceName
     sourceType additionalMetadata).

(** An attempt leaves the content as it is or truncated. *)
Lemma attemptOnce_body attempt body clock :
  fst (fst (fst (attemptOnce attempt body clock))) = body \/
  fst (fst (fst (attemptOnce attempt body clock))) = Spec.truncated body.
Proof.
  unfold Store.attemptOnce.
  destruct (_ || _); [by left|]. fold (Spec.truncated body).
  destruct (race (Store.createEmbedding _ _ _) _ _)
    as [spent [embedding|message]]; [|by right].
  destruct (race (Store.upsert _ _ _) _ _) as [spent' [u|message]]; by right.
Qed.

Lemma attemptOnce_sent attempt body clock d :
  1 <= attempt <= 3 ->
  In d (snd (attemptOnce attempt body clock)) -> sentFor body d.
Proof.
  intros Ha. unfold Store.attemptOnce.
  destruct (_ || _); [simpl; tauto|]. fold (Spec.truncated body).
  destruct (race (Store.createEmbedding _ _ _) _ _)
    as [spent [embedding|message]] eqn:Er; [|simpl; tauto].
  apply race_ok in Er as (Ea & _ & _).
  set (document := {| Store.id := _ |}).
  assert (Hd : In d (match answer (Store.upsert storage attempt document) with
                     | Ok _ => [document] | Err _ => [] end) ->
               sentFor body d).
  { destruct (answer (Store.upsert storage attempt document)); simpl; [|tauto].
    intros [<-|[]]. exists attempt, (startTime + (clock + spent)).
    split; [exact Ha|]. split; [exact Ea|reflexivity]. }
  destruct (race (Store.upsert _ _ _) _ _) as [spent' [u|message]]; simpl;
    by apply Hd.
Qed.

(** An attempt that succeeds has had its document accepted by the index. *)
Lemma attemptOnce_returns attempt body clock documentId :
  snd (fst (attemptOnce attempt body clock)) = Ok documentId ->
  exists d, In d (snd (attemptOnce attempt body clock)) /\
            Store.id d = documentId.
Proof.
  unfold Store.attemptOnce.
  destruct (_ || _); [discriminate|].
  destruct (race (Store.createEmbedding _ _ _) _ _)
    as [spent [embedding|message]]; [|discriminate].
  set (document := {| Store.id := _ |}).
  destruct (race (Store.upsert _ _ _) _ _) as [spent' [u|message]] eqn:Eu;
    [|discriminate].
  apply race_ok in Eu as (Eu & _ & _). destruct u.
  simpl. intros [= <-]. rewrite Eu. exists document. simpl. auto.
Qed.

Lemma sentFor_truncated body d : sentFor (Spec.truncated body) d -> sentFor body d.
Proof. unfold Spec.sentFor. by rewrite truncated_idempotent. Qed.

Lemma attemptLoop_accepted body0 remaining attempt body clock tried waited
      stored lastError :
  1 <= attempt -> attempt + Z.of_nat remaining = 4 ->
  body = body0 \/ body = Spec.truncated body0 ->
  Forall (sentFor body0) stored ->
  Forall (sentFor body0)
    (Store.accepted (attemptLoop remaining attempt body clock tried waited
                       stored lastError)).
Proof.
  revert attempt body clock tried waited stored lastError.
  induction remaining as [|remaining IH];
    intros attempt body clock tried waited stored lastError Ha Hsum Hbody Hstored;
    simpl; [exact Hstored|].
  pose proof (attemptOnce_body attempt body clock) as Hb.
  pose proof (attemptOnce_sent attempt body clock) as Hsent.
  destruct (attemptOnce attempt body clock)
    as [[[body' clock'] outcome] documents].
  simpl in Hb, Hsent.
  assert (Hdocs : Forall (sentFor body0) (stored ++ documents)).
  { apply Forall_app. split; [exact Hstored|].
    apply List.Forall_forall. intros d Hd.
    destruct Hbody as [->| ->]; [|apply sentFor_truncated];
      apply Hsent; [lia|exact Hd|lia|exact Hd]. }
  assert (Hbody' : body' = body0 \/ body' = Spec.truncated body0).
  { destruct Hb as [->| ->]; [exact Hbody|].
    destruct Hbody as [->| ->]; [by right|]. right. apply truncated_idempotent. }
  destruct outcome as [documentId|message]; [exact Hdocs|].
  destruct (attempt <? Store.maxRetries); apply IH; auto; lia.
Qed.

(** Every document the index accepts from [addDocument] was built from the
    truncated content, with the embedding of that content. *)
Lemma addDocument_accepted body :
  Forall (sentFor body) (Store.accepted (addDocument body)).
Proof.
  unfold Store.addDocument.
  apply attemptLoop_accepted;
    [lia | unfold Store.maxRetries; lia | by left | constructor].
Qed.

(** The log of the attempts: at most three; a wait of [waitTime n] after
    each failed attempt [n] that is followed by another; the call settles as
    an attempt that succeeds, and fails only after three failures. *)
Lemma addDocument_attempts body :
  let run := addDocument body in
  (length (Store.attempts run) <= 3)%nat /\
  Store.waits run
  = firstn (length (Store.attempts run) - 1)
      [Store.waitTime 1; Store.waitTime 2] /\
  (forall documentId, In (Ok documentId) (Store.attempts run) ->
                      Store.returned run = Ok documentId) /\
  (forall message, Store.returned run = Err message ->
                   length (Store.attempts run) = 3%nat /\
                   Forall (fun outcome => isOk outcome = false)
                     (Store.attempts run)).
Proof.
  unfold Store.addDocument.
  change (Z.to_nat Store.maxRetries) with 3%nat. cbn [Store.attemptLoop].
  destruct (attemptOnce 1 body 0) as [[[b1 c1] [i1|m1]] d1]; cbn.
  { repeat split; try done; try lia. by intros i [[= ->]|[]]. }
  destruct (attemptOnce (1 + 1) b1 (c1 + Store.waitTime 1))
    as [[[b2 c2] [i2|m2]] d2]; cbn.
  { repeat split; try done; try lia. by intros i [[=]|[[= ->]|[]]]. }
  destruct (attemptOnce (1 + 1 + 1) b2 (c2 + Store.waitTime (1 + 1)))
    as [[[b3 c3] [i3|m3]] d3]; cbn.
  { repeat split; try done; try lia. by intros i [[=]|[[=]|[[= ->]|[]]]]. }
  repeat split; try done; try lia.
  - by intros i [[=]|[[=]|[[=]|[]]]].
  - repeat constructor.
Qed.

(** A call that fulfils has had a document with the returned id accepted. *)
Lemma addDocument_returns body documentId :
  Store.returned (addDocument body) = Ok documentId ->
  exists d, In d (Store.accepted (addDocument body)) /\ Store.id d = documentId.
Proof.
  unfold Store.addDocument.
  change (Z.to_nat Store.maxRetries) with 3%nat. cbn [Store.attemptLoop].
  pose proof (attemptOnce_returns 1 body 0) as H1.
  destruct (attemptOnce 1 body 0) as [[[b1 c1] [i1|m1]] d1]; cbn in *.
  { intros [= <-]. apply (H1 i1 eq_refl). }
  clear H1.
  pose proof (attemptOnce_returns (1 + 1) b1 (c1 + Store.waitTime 1)) as H2.
  destruct (attemptOnce (1 + 1) b1 (c1 + Store.waitTime 1))
    as [[[b2 c2] [i2|m2]] d2]; cbn in *.
  { intros [= <-]. destruct (H2 i2 eq_refl) as (d & Hd & Hi).
    exists d. split; [|exact Hi]. apply in_or_app. by right. }
  clear H2.
  pose proof (attemptOnce_returns (1 + 1 + 1) b2
                (c2 + Store.waitTime (1 + 1))) as H3.
  destruct (attemptOnce (1 + 1 + 1) b2 (c2 + Store.waitTime (1 + 1)))
    as [[[b3 c3] [i3|m3]] d3]; cbn in *.
  { intros [= <-]. destruct (H3 i3 eq_refl) as (d & Hd & Hi).
    exists d. split; [|exact Hi]. apply in_or_app. by right. }
  discriminate.
Qed.

(** With no [content] key among the additional metadata, the [content] of
    the metadata is the copy made by [addDocument]. *)
Lemma documentMetadata_content body attempt now :
  additionalMetadata !! "content"%string = None ->
  Store.documentMetadata tools knowledgeSourceId agentId body chunkIndex
    sourceName sourceType additionalMetadata attempt now !! "content"%string
  = Some (MStr (slice body 0 40000)).
Proof.
  intros Hno. unfold Store.documentMetadata.
  rewrite lookup_union_r by exact Hno.
  rewrite lookup_union_r.
  - rewrite lookup_insert_ne by done. rewrite lookup_insert_ne by done.
    by rewrite lookup_insert_eq.
  - unfold Store.extractKeywords. rewrite lookup_insert_ne by done.
    by rewrite lookup_insert_ne.
Qed.


(** An attempt at which the services succeed returns the id of its
    document, which the index holds. *)
Lemma attemptOnce_succeeds body attempt b clock :
  trim (Spec.truncated body) <> [] ->
  b = body \/ b = Spec.truncated body ->
  Spec.storageSucceeds storage attempt body ->
  exists clock' documentId document,
    attemptOnce attempt b clock
    = (Spec.truncated body, clock', Ok documentId, [document]) /\
    forall ms, Spec.servicesTake storage ms body -> clock' <= clock + 2 * ms.
Proof.
  intros Hink Hb [He Hu].
  assert (Eb : Spec.truncated b = Spec.truncated body)
    by (destruct Hb as [->| ->]; [done | apply truncated_idempotent]).
  assert (Hnb : trim b <> [])
    by (destruct Hb as [->| ->]; [by apply trim_truncated | done]).
  unfold Store.attemptOnce. rewrite (notBlank b Hnb).
  fold (Spec.truncated b). rewrite Eb.
  unfold Store.EMBEDDING_TIMEOUT, Store.UPSERT_TIMEOUT.
  destruct (race_answered _ "Embedding generation timeout" He) as [embedding ->].
  set (document := {| Store.id := _ |}).
  destruct (race_answered _ "Pinecone upsert timeout" (Hu document)) as [u Eu].
  rewrite Eu.
  assert (Ea : answer (Store.upsert storage attempt document) = Ok u).
  { unfold race in Eu. destruct (_ <? _); [by injection Eu | done]. }
  rewrite Ea. do 3 eexists. split; [reflexivity|].
  intros ms Hms. destruct (Hms attempt) as [H1 H2]. specialize (H2 document). lia.
Qed.

(** An attempt at which the services fail throws. *)
Lemma attemptOnce_fails body attempt b clock :
  trim (Spec.truncated body) <> [] ->
  b = body \/ b = Spec.truncated body ->
  Spec.storageFails storage attempt body ->
  exists clock' message documents,
    attemptOnce attempt b clock
    = (Spec.truncated body, clock', Err message, documents) /\
    forall ms, 0 <= ms -> Spec.servicesTake storage ms body ->
               clock' <= clock + 2 * ms.
Proof.
  intros Hink Hb Hf.
  assert (Eb : Spec.truncated b = Spec.truncated body)
    by (destruct Hb as [->| ->]; [done | apply truncated_idempotent]).
  assert (Hnb : trim b <> [])
    by (destruct Hb as [->| ->]; [by apply trim_truncated | done]).
  unfold Store.attemptOnce. rewrite (notBlank b Hnb).
  fold (Spec.truncated b). rewrite Eb.
  unfold Store.EMBEDDING_TIMEOUT, Store.UPSERT_TIMEOUT.
  pose proof (race_spent (Store.createEmbedding storage attempt
                            (Spec.truncated body)) 30000
                "Embedding generation timeout") as Hse.
  destruct (race (Store.createEmbedding _ _ _) _ _)
    as [spent [embedding|message]] eqn:Ee.
  - destruct Hf as [He|Hu].
    { destruct (race_unanswered _ "Embedding generation timeout" He)
        as (s & m & E). rewrite E in Ee. discriminate. }
    set (document := {| Store.id := _ |}).
    pose proof (race_spent (Store.upsert storage attempt document) 30000
                  "Pinecone upsert timeout") as Hsu.
    destruct (race_unanswered _ "Pinecone upsert timeout" (Hu document))
      as (s & m & Eu).
    rewrite Eu in *. do 3 eexists. split; [reflexivity|].
    intros ms H0 Hms. destruct (Hms attempt) as [H1 H2].
    specialize (H2 document). simpl in *. lia.
  - do 3 eexists. split; [reflexivity|].
    intros ms H0 Hms. destruct (Hms attempt) as [H1 H2]. simpl in *. lia.
Qed.

(** The log of a call in which the services fail at the attempts before the
    [n]-th and succeed at the [n]-th: [n] attempts, the last one successful,
    the back-off waits in between, the id returned, a document in the index;
    and the call ends after the time of its requests and its waits. *)
Lemma addDocument_retried body n :
  trim (Spec.truncated body) <> [] ->
  (1 <= n <= 3)%nat ->
  Spec.succeedsAtAttempt storage body n ->
  List.map isOk (Store.attempts (addDocument body))
  = repeat false (n - 1) ++ [true] /\
  Store.waits (addDocument body) = Spec.backoff (n - 1) /\
  isOk (Store.returned (addDocument body)) = true /\
  Store.accepted (addDocument body) <> [] /\
  forall ms, 0 <= ms -> Spec.servicesTake storage ms body ->
             Store.finished (addDocument body) <= 6 * ms + 3000.
Proof.
  intros Hink Hn [Hbefore Hat].
  unfold Store.addDocument. change (Z.to_nat Store.maxRetries) with 3%nat.
  destruct n as [|[|[|[|n]]]]; try lia; cbn [Store.attemptLoop].
  - destruct (attemptOnce_succeeds body 1 body 0 Hink (or_introl eq_refl) Hat)
      as (c1 & i1 & d1 & -> & T1).
    simpl. repeat split; try done.
    intros ms H0 Hms. specialize (T1 ms Hms). lia.
  - destruct (attemptOnce_fails body 1 body 0 Hink (or_introl eq_refl)
                (Hbefore 1%nat ltac:(lia))) as (c1 & m1 & d1 & -> & T1).
    change (1 <? Store.maxRetries) with true. cbv iota.
    destruct (attemptOnce_succeeds body (1 + 1) (Spec.truncated body)
                (c1 + Store.waitTime 1) Hink (or_intror eq_refl) Hat)
      as (c2 & i2 & d2 & -> & T2).
    simpl. repeat split; try done.
    + by destruct d1.
    + intros ms H0 Hms. specialize (T1 ms H0 Hms). specialize (T2 ms Hms).
      change (Store.waitTime 1) with 1000 in T2. lia.
  - destruct (attemptOnce_fails body 1 body 0 Hink (or_introl eq_refl)
                (Hbefore 1%nat ltac:(lia))) as (c1 & m1 & d1 & -> & T1).
    change (1 <? Store.maxRetries) with true. cbv iota.
    destruct (attemptOnce_fails body (1 + 1) (Spec.truncated body)
                (c1 + Store.waitTime 1) Hink (or_intror eq_refl)
                (Hbefore 2%nat ltac:(lia))) as (c2 & m2 & d2 & -> & T2).
    change (1 + 1 <? Store.maxRetries) with true. cbv iota.
    destruct (attemptOnce_succeeds body (1 + 1 + 1) (Spec.truncated body)
                (c2 + Store.waitTime (1 + 1)) Hink (or_intror eq_refl) Hat)
      as (c3 & i3 & d3 & -> & T3).
    simpl. repeat split; try done.
    + by destruct d1, d2.
    + intros ms H0 Hms. specialize (T1 ms H0 Hms). specialize (T2 ms H0 Hms).
      specialize (T3 ms Hms).
      change (Store.waitTime 1) with 1000 in T2.
      change (Store.waitTime (1 + 1)) with 2000 in T3. lia.
Qed.

(** The log of a call in which the services fail at the three attempts:
    three failed attempts, the two waits, an error thrown. *)
Lemma addDocument_gives_up body :
  trim (Spec.truncated body) <> [] ->
  (forall k, (1 <= k <= 3)%nat -> Spec.storageFails storage (Z.of_nat k) body) ->
  List.map isOk (Store.attempts (addDocument body)) = [false; false; false] /\
  Store.waits (addDocument body) = Spec.backoff 2 /\
  isOk (Store.returned (addDocument body)) = false.
Proof.
  intros Hink Hf.
  unfold Store.addDocument. change (Z.to_nat Store.maxRetries) with 3%nat.
  cbn [Store.attemptLoop].
  destruct (attemptOnce_fails body 1 body 0 Hink (or_introl eq_refl)
              (Hf 1%nat ltac:(lia))) as (c1 & m1 & d1 & -> & _).
  change (1 <? Store.maxRetries) with true. cbv iota.
  destruct (attemptOnce_fails body (1 + 1) (Spec.truncated body)
              (c1 + Store.waitTime 1) Hink (or_intror eq_refl)
              (Hf 2%nat ltac:(lia))) as (c2 & m2 & d2 & -> & _).
  change (1 + 1 <? Store.maxRetries) with true. cbv iota.
  destruct (attemptOnce_fails body (1 + 1 + 1) (Spec.truncated body)
              (c2 + Store.waitTime (1 + 1)) Hink (or_intror eq_refl)
              (Hf 3%nat ltac:(lia))) as (c3 & m3 & d3 & -> & _).
  change (1 + 1 + 1 <? Store.maxRetries) with false. cbv iota.
  simpl. done.
Qed.

End AddDocument.



(** ** The owner of a document *)

Section Owner.

Variable tools : Store.TextTools.

Lemma documentMetadata_owner knowledgeSourceId agentId body chunkIndex
      sourceName sourceType additionalMetadata attempt now :
  additionalMetadata !! "agent_id"%string = None ->
  additionalMetadata !! "knowledge_source_id"%string = None ->
  Store.documentMetadata tools knowledgeSourceId agentId body chunkIndex
    sourceName sourceType additionalMetadata attempt now !! "agent_id"%string
  = Some (MInt agentId) /\
  Store.documentMetadata tools knowledgeSourceId agentId body chunkIndex
    sourceName sourceType additionalMetadata attempt now
    !! "knowledge_source_id"%string
  = Some (MInt knowledgeSourceId).
Proof.
  intros H1 H2. unfold Store.documentMetadata, Store.extractKeywords. split.
  - rewrite lookup_union_r by exact H1. rewrite lookup_union_r.
    + by rewrite lookup_insert_eq.
    + rewrite lookup_insert_ne by done. by rewrite lookup_insert_ne.
  - rewrite lookup_union_r by exact H2. rewrite lookup_union_r.
    + rewrite lookup_insert_ne by done. by rewrite lookup_insert_eq.
    + rewrite lookup_insert_ne by done. by rewrite lookup_insert_ne.
Qed.

Lemma sentFor_belongsTo storage knowledgeSourceId agentId chunkIndex sourceName
      sourceType additionalMetadata body d :
  additionalMetadata !! "agent_id"%string = None ->
  additionalMetadata !! "knowledge_source_id"%string = None ->
  Spec.sentFor tools storage knowledgeSourceId agentId chunkIndex sourceName
    sourceType additionalMetadata body d ->
  Spec.belongsTo agentId knowledgeSourceId d = true.
Proof.
  intros H1 H2 (attempt & now & _ & _ & ->). unfold Spec.belongsTo. simpl.
  destruct (documentMetadata_owner knowledgeSourceId agentId
              (Spec.truncated body) chunkIndex sourceName sourceType
              additionalMetadata attempt now H1 H2) as [-> ->].
  by rewrite !Z.eqb_refl.
Qed.

Lemma documentMetadata_chunk_index knowledgeSourceId agentId body chunkIndex
      sourceName sourceType additionalMetadata attempt now :
  additionalMetadata !! "chunk_index"%string = None ->
  Store.documentMetadata tools knowledgeSourceId agentId body chunkIndex
    sourceName sourceType additionalMetadata attempt now !! "chunk_index"%string
  = Some (MInt chunkIndex).
Proof.
  intros H. unfold Store.documentMetadata, Store.extractKeywords.
  rewrite lookup_union_r by exact H. rewrite lookup_union_r.
  - repeat (rewrite lookup_insert_ne by done). by rewrite lookup_insert_eq.
  - rewrite lookup_insert_ne by done. by rewrite lookup_insert_ne.
Qed.

End Owner.

(* ===================================================================== *)
(** * Ingestion                                                         *)
(* ===================================================================== *)

Lemma storedCount_app l1 l2 :
  Spec.storedCount (l1 ++ l2) = Spec.storedCount l1 + Spec.storedCount l2.
Proof. unfold Spec.storedCount. rewrite List.filter_app, length_app. lia. Qed.

Lemma storedCount_bounds made :
  0 <= Spec.storedCount made <= Z.of_nat (length made).
Proof.
  unfold Spec.storedCount.
  pose proof (List.filter_length_le Spec.countedAsStored made). lia.
Qed.

Lemma storedCount_all made :
  Forall (fun call => Spec.countedAsStored call = true) made ->
  Spec.storedCount made = Z.of_nat (length made).
Proof.
  intros H. unfold Spec.storedCount. f_equal. f_equal.
  induction H as [|call rest Hc Hrest IH]; simpl; [done|].
  by rewrite Hc, IH.
Qed.

Lemma arraySlice_next {A} (l : list A) i :
  0 <= i -> i < Z.of_nat (length l) ->
  firstn (Z.to_nat i) l ++ arraySlice l i (i + Processor.batchSize)
  = firstn (Z.to_nat (i + Processor.batchSize)) l.
Proof.
  intros H0 Hi. unfold arraySlice, relativeIndex, Processor.batchSize.
  destruct (Z.ltb_spec i 0); [lia|].
  destruct (Z.ltb_spec (i + 5) 0); [lia|].
  rewrite (Z.min_l i) by lia.
  destruct (Z.le_ge_cases (i + 5) (Z.of_nat (length l))).
  - rewrite (Z.min_l (i + 5)) by lia.
    replace (Z.to_nat (i + 5 - i)) with 5%nat by lia.
    replace (Z.to_nat (i + 5)) with (Z.to_nat i + 5)%nat by lia.
    by rewrite take_take_drop.
  - rewrite (Z.min_r (i + 5)) by lia.
    rewrite (firstn_all2 (n := Z.to_nat (i + 5))) by lia.
    rewrite (firstn_all2 (n := Z.to_nat (Z.of_nat (length l) - i))).
    + apply firstn_skipn.
    + rewrite length_skipn. lia.
Qed.

Section Ingestion.

Variable tools : Store.TextTools.
Variable world : Processor.World.
Variables (sourceId agentId : Z).
Variable sourceData : Processor.SourceData.
Variable settings : Processor.Settings.
Variable startTime : Z.

Abbreviation storeChunk :=
  (Processor.storeChunk tools world sourceId agentId sourceData settings
     startTime).
Abbreviation storeBatch :=
  (Processor.storeBatch tools world sourceId agentId sourceData settings
     startTime).
Abbreviation storeLoop :=
  (Processor.storeLoop tools world sourceId agentId sourceData settings
     startTime).
Abbreviation processKnowledgeSource :=
  (Processor.processKnowledgeSource tools world sourceId agentId sourceData
     settings startTime).

Abbreviation recorded :=
  (Spec.recorded tools world sourceId agentId sourceData settings startTime).
Abbreviation recordedAt :=
  (Spec.recordedAt tools world sourceId agentId sourceData settings startTime).

(** ** The storage loop *)

(** The race of a call against the storage timer is won exactly when the
    call returned its document in time. *)
Lemma settled_counted chunk run :
  isOk (snd (Processor.settled chunk run)) = Spec.countedAsStored (chunk, run).
Proof.
  unfold Processor.settled, race, Spec.countedAsStored,
    Processor.STORAGE_TIMEOUT. simpl.
  destruct (Store.finished run <? 30000); simpl;
    [by rewrite andb_true_r | by rewrite andb_false_r].
Qed.

Lemma storeBatch_counted batch position batchIndex clock progress latest
      longest :
  Spec.counted progress ->
  Spec.counted
    (fst (storeBatch batch position batchIndex clock progress latest longest)).
Proof.
  revert position progress latest longest.
  induction batch as [|chunk rest IH];
    intros position progress latest longest Hc; simpl; [exact Hc|].
  destruct (Processor.settled chunk _) as [spent outcome] eqn:Es.
  assert (Hcall : Spec.storedCount
                    [(chunk, storeChunk position batchIndex clock chunk)]
                  = if isOk outcome then 1 else 0).
  { unfold Spec.storedCount. cbn [List.filter].
    rewrite <- settled_counted, Es. simpl. by destruct (isOk outcome). }
  destruct outcome as [documentId|message].
  - apply IH. unfold Spec.counted in *; simpl.
    rewrite storedCount_app, Hcall, Hc. simpl. lia.
  - destruct (latest <=? spent); apply IH; unfold Spec.counted in *; simpl;
      rewrite storedCount_app, Hcall, Hc; simpl; lia.
Qed.

Lemma storeBatch_calls batch position batchIndex clock progress latest longest :
  List.map fst
    (Processor.calls
       (fst (storeBatch batch position batchIndex clock progress latest longest)))
  = List.map fst (Processor.calls progress) ++ batch.
Proof.
  revert position progress latest longest.
  induction batch as [|chunk rest IH]; intros position progress latest longest;
    simpl; [by rewrite app_nil_r|].
  destruct (Processor.settled chunk _) as [spent outcome].
  destruct outcome as [documentId|message]; [|destruct (latest <=? spent)];
    rewrite IH; simpl; rewrite List.map_app; simpl; by rewrite <- app_assoc.
Qed.

Lemma storeBatch_recorded batch position batchIndex clock progress latest
      longest :
  Forall recorded (Processor.calls progress) ->
  Forall recorded
    (Processor.calls
       (fst (storeBatch batch position batchIndex clock progress latest longest))).
Proof.
  revert position progress latest longest.
  induction batch as [|chunk rest IH]; intros position progress latest longest Hr;
    simpl; [exact Hr|].
  assert (Hnew : Forall recorded
                   (Processor.calls progress ++
                      [(chunk, storeChunk position batchIndex clock chunk)])).
  { apply Forall_app. split; [exact Hr|]. constructor; [|constructor].
    by exists position, batchIndex, clock. }
  destruct (Processor.settled chunk _) as [spent outcome].
  destruct outcome as [documentId|message]; [|destruct (latest <=? spent)];
    by apply IH.
Qed.

Lemma storeLoop_invariant (P : Processor.Progress -> Prop) :
  (forall batch position batchIndex clock progress latest longest,
      P progress ->
      P (fst (storeBatch batch position batchIndex clock progress latest
                longest))) ->
  forall steps chunks i clock progress,
    P progress -> P (storeLoop steps chunks i clock progress).
Proof.
  intros Hbatch steps chunks.
  induction steps as [|steps IH]; intros i clock progress Hp; simpl; [exact Hp|].
  destruct (i <? Z.of_nat (length chunks)); [|exact Hp].
  destruct (storeBatch _ _ _ _ _ _ _) as [progress' spent] eqn:Eb.
  apply IH.
  pose proof (Hbatch (arraySlice chunks i (i + Processor.batchSize))
                (Z.to_nat i) (i / Processor.batchSize)
                (if 0 <? i then clock + Processor.delay else clock)
                progress 0 0 Hp) as H.
  by rewrite Eb in H.
Qed.

(** The loop calls [addDocument] once for each chunk, in their order. *)
Lemma storeLoop_calls steps chunks i clock progress :
  0 <= i ->
  Z.of_nat (length chunks) <= i + Processor.batchSize * Z.of_nat steps ->
  List.map fst (Processor.calls progress) = firstn (Z.to_nat i) chunks ->
  List.map fst (Processor.calls (storeLoop steps chunks i clock progress))
  = chunks.
Proof.
  revert i clock progress.
  induction steps as [|steps IH]; intros i clock progress H0 Hsteps Hp; simpl.
  - rewrite Hp. apply firstn_all2. unfold Processor.batchSize in *. lia.
  - destruct (Z.ltb_spec i (Z.of_nat (length chunks))).
    + destruct (storeBatch _ _ _ _ _ _ _) as [progress' spent] eqn:Eb.
      apply IH; [unfold Processor.batchSize; lia
                | unfold Processor.batchSize in *; lia |].
      pose proof (storeBatch_calls
                    (arraySlice chunks i (i + Processor.batchSize))
                    (Z.to_nat i) (i / Processor.batchSize)
                    (if 0 <? i then clock + Processor.delay else clock)
                    progress 0 0) as H'.
      rewrite Eb in H'. simpl in H'. rewrite H', Hp.
      by apply arraySlice_next.
    + rewrite Hp. apply firstn_all2. lia.
Qed.

(** ** The calls of a run *)

Lemma processKnowledgeSource_stores fuel chunks clock :
  Processor.prepare world sourceData settings fuel = Some (Ok (chunks, clock)) ->
  exists progress,
    processKnowledgeSource fuel
    = Some (Processor.conclude (Z.of_nat (length chunks)) progress,
            Processor.calls progress) /\
    Spec.counted progress /\
    Forall recorded (Processor.calls progress) /\
    List.map fst (Processor.calls progress) = chunks.
Proof.
  intros Hp. unfold Processor.processKnowledgeSource. rewrite Hp.
  eexists. split; [reflexivity|]. split; [|split].
  - apply (storeLoop_invariant Spec.counted); [|reflexivity].
    intros. by apply storeBatch_counted.
  - apply (storeLoop_invariant
             (fun progress => Forall recorded (Processor.calls progress)));
      [|constructor].
    intros. by apply storeBatch_recorded.
  - apply storeLoop_calls;
      [lia | unfold Processor.batchSize; lia | reflexivity].
Qed.

(** Either nothing was stored because an earlier step failed, or the report
    is drawn from the counter of the storage loop. *)
Lemma processKnowledgeSource_cases fuel report made :
  processKnowledgeSource fuel = Some (report, made) ->
  (made = [] /\ Processor.success report = false /\
   Processor.chunks_count report = 0) \/
  (exists progress chunks clock,
      Processor.prepare world sourceData settings fuel
      = Some (Ok (chunks, clock)) /\
      made = Processor.calls progress /\ made <> [] /\
      report = Processor.conclude (Z.of_nat (length chunks)) progress /\
      Spec.counted progress /\ Forall recorded made /\
      List.map fst made = chunks).
Proof.
  intros H.
  destruct (Processor.prepare world sourceData settings fuel)
    as [[[chunks clock]|message]|] eqn:Hp.
  - destruct (processKnowledgeSource_stores fuel chunks clock Hp)
      as (progress & E & Hc & Hr & Hm).
    rewrite E in H. injection H as <- <-.
    destruct (Processor.calls progress) as [|call rest] eqn:Ecalls.
    + left. simpl in Hm. subst chunks. unfold Processor.conclude.
      rewrite Hc, Ecalls. simpl. done.
    + right. exists progress, chunks, clock. rewrite Ecalls.
      repeat split; try done.
  - unfold Processor.processKnowledgeSource in H. rewrite Hp in H.
    injection H as <- <-. by left.
  - unfold Processor.processKnowledgeSource in H. by rewrite Hp in H.
Qed.

(** ** The position of a call *)

Lemma storeBatch_positions batch position batchIndex clock progress latest
      longest :
  length (Processor.calls progress) = position ->
  (forall p call, nth_error (Processor.calls progress) p = Some call ->
                  recordedAt p call) ->
  forall p call,
    nth_error
      (Processor.calls
         (fst (storeBatch batch position batchIndex clock progress latest
                 longest))) p = Some call ->
    recordedAt p call.
Proof.
  revert position progress latest longest.
  induction batch as [|chunk rest IH];
    intros position progress latest longest Hlen Hpos; simpl; [exact Hpos|].
  assert (Hnew : forall p call,
             nth_error (Processor.calls progress ++
                          [(chunk, storeChunk position batchIndex clock chunk)])
               p = Some call ->
             recordedAt p call).
  { intros p call Hp.
    destruct (Nat.lt_ge_cases p (length (Processor.calls progress))) as [Hlt|Hge].
    - rewrite nth_error_app1 in Hp by exact Hlt. by apply Hpos.
    - rewrite nth_error_app2 in Hp by exact Hge.
      destruct (p - length (Processor.calls progress))%nat as [|k] eqn:Ek;
        [|by destruct k].
      injection Hp as <-. replace p with position by lia.
      by exists batchIndex, clock. }
  assert (Hlen' : length (Processor.calls progress ++
                            [(chunk, storeChunk position batchIndex clock chunk)])
                  = S position)
    by (rewrite length_app; simpl; lia).
  destruct (Processor.settled chunk _) as [spent outcome].
  destruct outcome as [documentId|message]; [|destruct (latest <=? spent)];
    by apply IH.
Qed.

Lemma storeLoop_positions steps chunks i clock progress :
  0 <= i ->
  List.map fst (Processor.calls progress) = firstn (Z.to_nat i) chunks ->
  (forall p call, nth_error (Processor.calls progress) p = Some call ->
                  recordedAt p call) ->
  forall p call,
    nth_error (Processor.calls (storeLoop steps chunks i clock progress)) p
    = Some call ->
    recordedAt p call.
Proof.
  revert i clock progress.
  induction steps as [|steps IH]; intros i clock progress H0 Hp Hpos; simpl;
    [exact Hpos|].
  destruct (Z.ltb_spec i (Z.of_nat (length chunks))); [|exact Hpos].
  destruct (storeBatch _ _ _ _ _ _ _) as [progress' spent] eqn:Eb.
  assert (Eprogress : progress'
                      = fst (storeBatch
                               (arraySlice chunks i (i + Processor.batchSize))
                               (Z.to_nat i) (i / Processor.batchSize)
                               (if 0 <? i then clock + Processor.delay else clock)
                               progress 0 0))
    by (by rewrite Eb).
  apply IH; [unfold Processor.batchSize; lia | |].
  - rewrite Eprogress, storeBatch_calls, Hp. by apply arraySlice_next.
  - rewrite Eprogress. apply storeBatch_positions; [|exact Hpos].
    apply (f_equal (@length _)) in Hp.
    rewrite length_map, length_firstn in Hp. lia.
Qed.

Lemma processKnowledgeSource_positions fuel report made :
  processKnowledgeSource fuel = Some (report, made) ->
  forall p call, nth_error made p = Some call -> recordedAt p call.
Proof.
  unfold Processor.processKnowledgeSource.
  destruct (Processor.prepare world sourceData settings fuel)
    as [[[chunks clock]|message]|]; [| |discriminate].
  - intros [= <- <-]. apply storeLoop_positions; [lia|reflexivity|].
    intros p call Hp. by destruct p.
  - intros [= <- <-] p call Hp. by destruct p.
Qed.

(** ** What the index holds *)

Lemma recorded_belongsTo call d :
  recorded call -> In d (Store.accepted (snd call)) ->
  Spec.belongsTo agentId sourceId d = true.
Proof.
  intros (position & batch & clock & E) Hd. rewrite E in Hd.
  unfold Processor.storeChunk in Hd.
  match type of Hd with
  | In d (Store.accepted (Store.addDocument _ _ _ _ _ _ _ ?extra _ _)) =>
      pose proof (addDocument_accepted tools (Processor.storageOf world position)
                    sourceId agentId (Chunker.chunk_index (fst call))
                    (Some (Processor.name sourceData))
                    (Some (js (Processor.type sourceData)))
                    extra (startTime + clock) (Chunker.content (fst call)))
        as Hall
  end.
  rewrite List.Forall_forall in Hall. specialize (Hall d Hd).
  revert Hall. apply sentFor_belongsTo; unfold Processor.chunkMetadata.
  - repeat (rewrite lookup_insert_ne by done). done.
  - repeat (rewrite lookup_insert_ne by done). done.
Qed.

Lemma recorded_in_index call :
  recorded call -> Spec.countedAsStored call = true ->
  Spec.inIndex agentId sourceId call.
Proof.
  intros Hrec Hc. pose proof Hrec as (position & batch & clock & E).
  unfold Spec.countedAsStored in Hc. apply andb_prop in Hc as [Hok _].
  destruct (Store.returned (snd call)) as [documentId|] eqn:Er; [|done].
  rewrite E in Er. unfold Processor.storeChunk in Er.
  apply addDocument_returns in Er as (d & Hd & _).
  pose proof Hd as Hsent.
  apply (proj1 (List.Forall_forall _ _) (addDocument_accepted _ _ _ _ _ _ _ _ _ _))
    in Hsent.
  fold (storeChunk position batch clock (fst call)) in Hd. rewrite <- E in Hd.
  exists d. split; [exact Hd|]. split; [eapply recorded_belongsTo; eauto|].
  destruct Hsent as (attempt & now & _ & _ & ->). simpl. split.
  - apply documentMetadata_chunk_index. unfold Processor.chunkMetadata.
    repeat (rewrite lookup_insert_ne by done). done.
  - rewrite documentMetadata_content.
    + by rewrite slice_all by apply truncated_length.
    + unfold Processor.chunkMetadata.
      repeat (rewrite lookup_insert_ne by done). done.
Qed.

(** ** The report *)


(** ** The retries of a chunk *)

(** A chunk whose storage succeeds at one of the three attempts, with
    services that answer fast enough, is stored in time. *)
Lemma recordedAt_counted position call n ms :
  recordedAt position call ->
  trim (Spec.truncated (Chunker.content (fst call))) <> [] ->
  (1 <= n <= 3)%nat ->
  Spec.succeedsAtAttempt (Processor.storageOf world position)
    (Chunker.content (fst call)) n ->
  0 <= ms -> 6 * ms + 3000 < 30000 ->
  Spec.servicesTake (Processor.storageOf world position) ms
    (Chunker.content (fst call)) ->
  Spec.countedAsStored call = true.
Proof.
  intros (batch & clock & E) Hink Hn Hs H0 Hms Ht.
  unfold Spec.countedAsStored. rewrite E. unfold Processor.storeChunk.
  match goal with
  | |- context [Store.addDocument ?t ?s ?k ?a ?c ?sn ?sy ?m ?st ?b] =>
      destruct (addDocument_retried t s k a c sn sy m st b n Hink Hn Hs)
        as (_ & _ & Hok & _ & Htime)
  end.
  rewrite Hok. simpl. apply Z.ltb_lt. specialize (Htime ms H0 Ht). lia.
Qed.


End Ingestion.

Lemma Forall_of_forallb {A} (p : A -> bool) (P : A -> Prop) (l : list A) :
  (forall x, p x = true -> P x) -> forallb p l = true -> Forall P l.
Proof.
  intros Hp Hl. apply List.Forall_forall. intros x Hx.
  apply Hp. by apply (proj1 (forallb_forall p l) Hl).
Qed.





(* ===================================================================== *)
(** * The worker                                                        *)
(* ===================================================================== *)

(** ** Deleting a knowledge source *)

Lemma meetsAll_false conditions md key condition :
  conditions !! key = Some condition ->
  Store.meets md key condition = false ->
  Store.meetsAll conditions md = false.
Proof.
  intros Hk Hm. unfold Store.meetsAll.
  destruct (forallb _ _) eqn:E; [|done].
  rewrite forallb_forall in E.
  specialize (E (key, condition)). simpl in E. rewrite <- Hm. symmetry. apply E.
  apply list_elem_of_In. by apply elem_of_map_to_list.
Qed.

(** The endpoint hands the id of the source to [deleteKnowledgeSource] as the
    id of the agent too, so a chunk of the source stays in the index unless
    the agent that owns it happens to have the id of the source. *)
Lemma endpoint_keeps_chunks mayAccess failure user sourceId s d owner :
  owner <> sourceId ->
  Spec.belongsTo owner sourceId d = true ->
  In d (Worker.index s) ->
  In d (Worker.index
          (snd (Worker.deleteKnowledgeSourceEndpoint mayAccess failure user
                  sourceId s))).
Proof.
  intros Hne Hd Hin. unfold Worker.deleteKnowledgeSourceEndpoint.
  destruct (Worker.knowledge_sources (Worker.database s) !! sourceId)
    as [source|]; [|exact Hin].
  destruct (mayAccess user (Worker.agent_id source)); [|exact Hin].
  unfold Processor.deleteKnowledgeSource, Store.deleteDocuments.
  destruct failure; simpl; [exact Hin|].
  unfold Store.deleteMany. apply List.filter_In. split; [exact Hin|].
  apply negb_true_iff.
  apply (meetsAll_false _ _ "agent_id"%string (Store.eq (MInt sourceId))).
  - rewrite lookup_insert_ne by done. by rewrite lookup_insert_eq.
  - unfold Spec.belongsTo in Hd. unfold Store.meets.
    destruct (Store.metadata d !! "agent_id"%string) as [[|a| | | |]|];
      try discriminate.
    destruct (Store.metadata d !! "knowledge_source_id"%string)
      as [[|k| | | |]|]; try discriminate.
    apply andb_prop in Hd as [Ha _]. apply Z.eqb_eq in Ha. subst a.
    by apply Z.eqb_neq.
Qed.

(** C9, at a failing input: source 7 belongs to agent 3 and has one chunk in
    the index, whose metadata carry [agent_id = 3] and
    [knowledge_source_id = 7]. The request deletes the record and answers
    with success; the chunk is still in the index. *)
Theorem delete_endpoint_leaves_chunks :
  fst (Worker.deleteKnowledgeSourceEndpoint (fun _ _ => true) None 1 7
         Fixtures.sourceSeven) = Worker.deleted /\
  Worker.knowledge_sources
    (Worker.database
       (snd (Worker.deleteKnowledgeSourceEndpoint (fun _ _ => true) None 1 7
               Fixtures.sourceSeven))) !! 7 = None /\
  List.map (Spec.belongsTo 3 7)
    (Worker.index
       (snd (Worker.deleteKnowledgeSourceEndpoint (fun _ _ => true) None 1 7
               Fixtures.sourceSeven))) = [true].
Proof. repeat split; vm_compute; reflexivity. Qed.

(** ** The queue consumer *)

Section Queue.

Variable Data : Type.

Lemma handleMessage_failure process table (msg : Worker.QueueMessage Data)
      table' message :
  process (alter (Worker.setStatus "processing") (Worker.sourceId msg) table) msg
  = (table', Err message) ->
  Worker.handleMessage Data process table msg =
  if Spec.attemptsOf msg + 1 <=? 3
  then (table', Worker.retry (Spec.redelivered msg (Spec.attemptsOf msg + 1)))
  else (alter (Worker.setFailed
                 (Spec.terminalMessage (Spec.attemptsOf msg + 1) message))
          (Worker.sourceId msg) table', Worker.ack).
Proof. unfold Worker.handleMessage. by intros ->. Qed.

Lemma handleMessage_cases process table (msg : Worker.QueueMessage Data) :
  (exists table', Worker.handleMessage Data process table msg
                  = (table', Worker.ack)) \/
  (exists table',
      Worker.handleMessage Data process table msg
      = (table', Worker.retry (Spec.redelivered msg (Spec.attemptsOf msg + 1)))
      /\ Spec.attemptsOf msg + 1 <= 3).
Proof.
  unfold Worker.handleMessage.
  destruct (process _ msg) as [table' [u|message]]; [left; eauto|].
  fold (Spec.attemptsOf msg).
  destruct (Z.leb_spec (Spec.attemptsOf msg + 1) 3); [right|left]; eauto.
Qed.

Lemma deliveries_step fuel processAt n table (msg : Worker.QueueMessage Data) :
  Worker.deliveries (S fuel) processAt n table msg =
  match Worker.handleMessage Data (processAt n) table msg with
  | (table', Worker.retry body) =>
      Worker.deliveries fuel processAt (S n) table' body
  | (table', Worker.ack) => Some (table', S n)
  end.
Proof.
  simpl. destruct (Worker.handleMessage Data (processAt n) table msg)
    as [table' [|body]]; reflexivity.
Qed.

(** A job that is done within some fuel is done, the same way, within more. *)
Lemma deliveries_more_fuel fuel processAt n table
      (msg : Worker.QueueMessage Data) outcome :
  Worker.deliveries fuel processAt n table msg = Some outcome ->
  Worker.deliveries (S fuel) processAt n table msg = Some outcome.
Proof.
  revert n table msg.
  induction fuel as [|fuel IH]; intros n table msg; [discriminate|].
  rewrite (deliveries_step (S fuel)), (deliveries_step fuel).
  destruct (Worker.handleMessage Data (processAt n) table msg)
    as [table' [|body]]; [done|]. apply IH.
Qed.

(** The queue is done with a job within [4 - retryCount] deliveries. *)
Lemma deliveries_bounded processAt fuel n table (msg : Worker.QueueMessage Data) :
  0 <= Spec.attemptsOf msg ->
  (Z.to_nat (4 - Spec.attemptsOf msg) <= fuel)%nat ->
  (1 <= fuel)%nat ->
  exists table' total,
    Worker.deliveries fuel processAt n table msg = Some (table', total) /\
    (n < total)%nat /\
    (total <= n + Nat.max 1 (Z.to_nat (4 - Spec.attemptsOf msg)))%nat.
Proof.
  revert n table msg.
  induction fuel as [|fuel IH]; intros n table msg Hk Hfuel H1; [lia|].
  rewrite deliveries_step.
  destruct (handleMessage_cases (processAt n) table msg)
    as [[table' E]|[table' [E Hle]]]; rewrite E.
  - exists table', (S n). split; [done|]. lia.
  - destruct (IH (S n) table' (Spec.redelivered msg (Spec.attemptsOf msg + 1)))
      as (table'' & total & Ed & Hlt & Hbound).
    + unfold Spec.attemptsOf; simpl. fold (Spec.attemptsOf msg). lia.
    + unfold Spec.attemptsOf at 1; simpl. lia.
    + unfold Spec.attemptsOf in *; simpl in *. lia.
    + exists table'', total. split; [exact Ed|].
      unfold Spec.attemptsOf in Hbound at 1; simpl in Hbound. lia.
Qed.

(** When every delivery fails, a job enqueued with retry count [k <= 3] is
    delivered [4 - k] times, and its source, if still in the table, is left
    with status [failed]. *)
Lemma deliveries_all_fail processAt :
  (forall n table (msg : Worker.QueueMessage Data),
      exists table' message, processAt n table msg = (table', Err message)) ->
  forall fuel n table (msg : Worker.QueueMessage Data),
    0 <= Spec.attemptsOf msg <= 3 ->
    (Z.to_nat (4 - Spec.attemptsOf msg) <= fuel)%nat ->
    exists final,
      Worker.deliveries fuel processAt n table msg
      = Some (final, (n + Z.to_nat (4 - Spec.attemptsOf msg))%nat) /\
      forall row, final !! Worker.sourceId msg = Some row ->
                  Worker.status row = "failed"%string.
Proof.
  intros Hfail.
  induction fuel as [|fuel IH]; intros n table msg Hk Hfuel; [lia|].
  rewrite deliveries_step.
  destruct (Hfail n (alter (Worker.setStatus "processing")
                       (Worker.sourceId msg) table) msg)
    as (table' & message & E).
  rewrite (handleMessage_failure _ _ _ _ _ E).
  destruct (Z.leb_spec (Spec.attemptsOf msg + 1) 3).
  - destruct (IH (S n) table' (Spec.redelivered msg (Spec.attemptsOf msg + 1)))
      as (final & Ed & Hrow).
    + unfold Spec.attemptsOf at 1 3; simpl. lia.
    + unfold Spec.attemptsOf at 1; simpl. lia.
    + exists final. split; [|exact Hrow].
      rewrite Ed. unfold Spec.attemptsOf at 1; simpl. do 2 f_equal. lia.
  - eexists. split.
    + do 2 f_equal. lia.
    + intros row. rewrite lookup_alter_eq.
      destruct (table' !! Worker.sourceId msg); simpl; [|discriminate].
      by intros [= <-].
Qed.


End Queue.


(* ===================================================================== *)
(** * What the segmentation keeps                                         *)
(* ===================================================================== *)

Lemma trimStart_keeps x c z :
  is_space c = false -> trimStart (x ++ c :: z) = trimStart x ++ c :: z.
Proof.
  intros Hc. induction x as [|a x IH]; simpl.
  - by rewrite Hc.
  - destruct (is_space a); [exact IH | reflexivity].
Qed.

Lemma trimEnd_keeps x c z :
  is_space c = false -> trimEnd (x ++ c :: z) = x ++ c :: trimEnd z.
Proof.
  intros Hc. unfold trimEnd.
  rewrite rev_app_distr. simpl rev. rewrite <- app_assoc. simpl.
  rewrite trimStart_keeps by exact Hc.
  rewrite rev_app_distr. simpl rev. rewrite rev_involutive.
  by rewrite <- app_assoc.
Qed.

Lemma trimStart_head s :
  Spec.hasInk s = true ->
  exists a u, trimStart s = a :: u /\ is_space a = false.
Proof.
  induction s as [|c r IH]; [done|]. simpl.
  destruct (is_space c) eqn:E; simpl.
  - exact IH.
  - intros _. by exists c, r.
Qed.

Lemma trim_tight s : Spec.hasInk s = true -> Spec.tight (trim s).
Proof.
  intros H. destruct (trimStart_head s H) as (a & u & E & Ha).
  unfold trim. rewrite E.
  change (a :: u) with ([] ++ a :: u). rewrite trimEnd_keeps by exact Ha.
  simpl. split; [by exists a, (trimEnd u)|].
  unfold trimEnd.
  destruct (Spec.hasInk (rev u)) eqn:Hu.
  - destruct (trimStart_head _ Hu) as (b & w & Eb & Hb). rewrite Eb.
    simpl rev. exists (a :: rev w), b. by rewrite app_comm_cons.
  - apply trimStart_nil in Hu. rewrite Hu. simpl. by exists [], a.
Qed.

Lemma tight_appendDot t :
  Spec.tight t -> Spec.tight (Chunker.appendDot t).
Proof.
  intros [(a & u & -> & Ha) _]. unfold Chunker.appendDot. split.
  - by exists a, (u ++ [DOT]).
  - by exists (a :: u), DOT.
Qed.

Lemma tight_nonempty t : Spec.tight t -> t <> [].
Proof. by intros [(a & u & -> & _) _]. Qed.

(** Trimming a string keeps a tight substring of it. *)
Lemma trimStart_around before t after :
  Spec.tight t ->
  trimStart (before ++ t ++ after) = trimStart before ++ t ++ after.
Proof.
  intros [(a & u & -> & Ha) _].
  rewrite <- !app_comm_cons. by apply trimStart_keeps.
Qed.

Lemma trimEnd_around before t after :
  Spec.tight t ->
  trimEnd (before ++ t ++ after) = before ++ t ++ trimEnd after.
Proof.
  intros [_ (v & b & -> & Hb)].
  rewrite <- !app_assoc. simpl. rewrite !(app_assoc before v).
  by apply trimEnd_keeps.
Qed.

(** Trimming a string keeps a tight substring of it. *)
Lemma trim_around before t after :
  Spec.tight t ->
  trim (before ++ t ++ after) = trimStart before ++ t ++ trimEnd after.
Proof.
  intros Ht. unfold trim.
  by rewrite trimStart_around, trimEnd_around.
Qed.

Lemma occursIn_trim t s :
  Spec.tight t -> Spec.occursIn t s -> Spec.occursIn t (trim s).
Proof.
  intros Ht (before & after & ->). rewrite trim_around by exact Ht.
  by exists (trimStart before), (trimEnd after).
Qed.

Lemma occursIn_self t : Spec.occursIn t t.
Proof. exists [], []. by rewrite app_nil_r. Qed.

Lemma occursIn_after t s x : Spec.occursIn t s -> Spec.occursIn t (x ++ s).
Proof.
  intros (before & after & ->). exists (x ++ before), after.
  by rewrite <- app_assoc.
Qed.

Lemma occursIn_before t s x : Spec.occursIn t s -> Spec.occursIn t (s ++ x).
Proof.
  intros (before & after & ->). exists before, (after ++ x).
  by rewrite <- !app_assoc.
Qed.

Lemma occursIn_tail t x gap : Spec.occursIn t (x ++ gap ++ t).
Proof. do 2 apply occursIn_after. apply occursIn_self. Qed.

Lemma occursIn_ink t s :
  Spec.tight t -> Spec.occursIn t s -> Spec.hasInk s = true.
Proof.
  intros [(a & u & -> & Ha) _] (before & after & ->).
  rewrite !hasInk_app. simpl. rewrite Ha. simpl. apply orb_true_r.
Qed.

Section Preservation.

Import Chunker.

Lemma carriedBy_app t chunks more :
  Spec.carriedBy t chunks -> Spec.carriedBy t (chunks ++ more).
Proof. intros (c & Hc & Ho). exists c. split; [apply in_or_app; by left | exact Ho]. Qed.

Lemma carriedBy_accumulated t kind currentChunk startIndex chunkIndex chunks :
  Spec.tight t -> Spec.occursIn t currentChunk ->
  Spec.carriedBy t
    (chunks ++ [accumulated kind currentChunk startIndex chunkIndex]).
Proof.
  intros Ht Ho. exists (accumulated kind currentChunk startIndex chunkIndex).
  split; [apply in_or_app; right; by left|]. simpl. by apply occursIn_trim.
Qed.

Lemma paragraphLoop_extends text maxChunkSize overlap paragraphs chunks
      currentChunk chunkIndex startIndex :
  exists more,
    paragraphLoop text maxChunkSize overlap paragraphs chunks currentChunk
      chunkIndex startIndex = chunks ++ more.
Proof.
  revert chunks currentChunk chunkIndex startIndex.
  induction paragraphs as [|p rest IH];
    intros chunks currentChunk chunkIndex startIndex; simpl.
  - destruct (0 <? len (trim currentChunk)); [by eexists|].
    exists []. by rewrite app_nil_r.
  - destruct (_ && _).
    + edestruct IH as (more & ->). rewrite <- app_assoc. by eexists.
    + destruct (0 <? len currentChunk); apply IH.
Qed.

Lemma paragraphLoop_current t text maxChunkSize overlap paragraphs chunks
      currentChunk chunkIndex startIndex :
  Spec.tight t -> Spec.occursIn t currentChunk ->
  Spec.carriedBy t
    (paragraphLoop text maxChunkSize overlap paragraphs chunks currentChunk
       chunkIndex startIndex).
Proof.
  intros Ht. revert chunks currentChunk chunkIndex startIndex.
  induction paragraphs as [|p rest IH];
    intros chunks currentChunk chunkIndex startIndex Ho; simpl.
  - assert (E : (0 <? len (trim currentChunk)) = true).
    { apply nonBlank_ink. by apply (occursIn_ink t). }
    rewrite E. by apply carriedBy_accumulated.
  - destruct (_ && _).
    + edestruct paragraphLoop_extends as (more & ->).
      apply carriedBy_app. by apply carriedBy_accumulated.
    + destruct (0 <? len currentChunk) eqn:E.
      * apply IH. by apply (occursIn_before t currentChunk).
      * exfalso. destruct Ho as (before & after & ->).
        apply Z.ltb_ge in E. pose proof (tight_nonempty t Ht) as Hne.
        unfold len in E. rewrite !length_app in E.
        destruct t; [done|]. simpl in E. lia.
Qed.

Lemma paragraphLoop_units text maxChunkSize overlap paragraphs chunks
      currentChunk chunkIndex startIndex p :
  In p paragraphs -> Spec.hasInk p = true ->
  Spec.carriedBy (trim p)
    (paragraphLoop text maxChunkSize overlap paragraphs chunks currentChunk
       chunkIndex startIndex).
Proof.
  intros Hin Hink. revert chunks currentChunk chunkIndex startIndex.
  induction paragraphs as [|q rest IH];
    intros chunks currentChunk chunkIndex startIndex; [done|].
  destruct Hin as [->|Hin]; [|simpl; destruct (_ && _);
                               [|destruct (0 <? len currentChunk)]; by apply IH].
  pose proof (trim_tight p Hink) as Ht. simpl.
  destruct (_ && _); [|destruct (0 <? len currentChunk)];
    apply paragraphLoop_current; try exact Ht.
  - exact (occursIn_tail (trim p) _ PARAGRAPH_BREAK).
  - exact (occursIn_tail (trim p) _ PARAGRAPH_BREAK).
  - apply occursIn_self.
Qed.

Lemma sentenceLoop_extends text maxChunkSize overlap sentences chunks
      currentChunk chunkIndex startIndex :
  exists more,
    sentenceLoop text maxChunkSize overlap sentences chunks currentChunk
      chunkIndex startIndex = chunks ++ more.
Proof.
  revert chunks currentChunk chunkIndex startIndex.
  induction sentences as [|p rest IH];
    intros chunks currentChunk chunkIndex startIndex; simpl.
  - destruct (0 <? len (trim currentChunk)); [by eexists|].
    exists []. by rewrite app_nil_r.
  - destruct (_ && _).
    + edestruct IH as (more & ->). rewrite <- app_assoc. by eexists.
    + destruct (0 <? len currentChunk); apply IH.
Qed.

Lemma sentenceLoop_current t text maxChunkSize overlap sentences chunks
      currentChunk chunkIndex startIndex :
  Spec.tight t -> Spec.occursIn t currentChunk ->
  Spec.carriedBy t
    (sentenceLoop text maxChunkSize overlap sentences chunks currentChunk
       chunkIndex startIndex).
Proof.
  intros Ht. revert chunks currentChunk chunkIndex startIndex.
  induction sentences as [|p rest IH];
    intros chunks currentChunk chunkIndex startIndex Ho; simpl.
  - assert (E : (0 <? len (trim currentChunk)) = true).
    { apply nonBlank_ink. by apply (occursIn_ink t). }
    rewrite E. by apply carriedBy_accumulated.
  - destruct (_ && _).
    + edestruct sentenceLoop_extends as (more & ->).
      apply carriedBy_app. by apply carriedBy_accumulated.
    + destruct (0 <? len currentChunk) eqn:E.
      * apply IH. by apply (occursIn_before t currentChunk).
      * exfalso. destruct Ho as (before & after & ->).
        apply Z.ltb_ge in E. pose proof (tight_nonempty t Ht) as Hne.
        unfold len in E. rewrite !length_app in E.
        destruct t; [done|]. simpl in E. lia.
Qed.

Lemma sentenceLoop_units text maxChunkSize overlap sentences chunks
      currentChunk chunkIndex startIndex s :
  In s sentences -> Spec.tight s ->
  Spec.carriedBy s
    (sentenceLoop text maxChunkSize overlap sentences chunks currentChunk
       chunkIndex startIndex).
Proof.
  intros Hin Ht. revert chunks currentChunk chunkIndex startIndex.
  induction sentences as [|q rest IH];
    intros chunks currentChunk chunkIndex startIndex; [done|].
  destruct Hin as [->|Hin]; [|simpl; destruct (_ && _);
                               [|destruct (0 <? len currentChunk)]; by apply IH].
  simpl.
  destruct (_ && _); [|destruct (0 <? len currentChunk)];
    apply sentenceLoop_current; try exact Ht.
  - exact (occursIn_tail s _ [SPACE]).
  - exact (occursIn_tail s _ [SPACE]).
  - apply occursIn_self.
Qed.

Lemma longer_trimmed_tight n pieces :
  0 <= n ->
  Forall Spec.tight (List.filter (fun s => n <? len s) (List.map trim pieces)).
Proof.
  intros Hn. apply List.Forall_forall. intros s Hs.
  apply List.filter_In in Hs as [Hin Hlen].
  apply List.in_map_iff in Hin as (x & <- & _).
  apply trim_tight. apply (proj1 (nonBlank_ink x)).
  apply Z.ltb_lt. apply Z.ltb_lt in Hlen. lia.
Qed.

Lemma splitIntoSentences_tight text :
  Forall Spec.tight (splitIntoSentences text).
Proof.
  unfold splitIntoSentences.
  destruct (_ <=? 1).
  - apply List.Forall_forall. intros s Hs.
    apply List.in_map_iff in Hs as (x & <- & Hx). apply tight_appendDot.
    revert x Hx. apply List.Forall_forall. by apply longer_trimmed_tight.
  - apply List.Forall_forall. intros s Hs.
    apply List.in_map_iff in Hs as (x & <- & Hx).
    assert (Ht : Spec.tight x).
    { revert x Hx. apply List.Forall_forall. by apply longer_trimmed_tight. }
    destruct (endsWithTerminator x); [exact Ht | by apply tight_appendDot].
Qed.

(** X1: [chunkByParagraphs] loses no paragraph: every paragraph of the text
    that is not blank occurs, trimmed, in the content of some chunk. *)
Theorem chunkByParagraphs_keeps_paragraphs text maxChunkSize overlap p :
  In p (split reBlankLine text) -> trim p <> [] ->
  exists chunk,
    In chunk (chunkByParagraphs text maxChunkSize overlap) /\
    Spec.occursIn (trim p) (content chunk).
Proof.
  intros Hin Hne.
  assert (Hink : Spec.hasInk p = true).
  { destruct (Spec.hasInk p) eqn:E; [done|]. by apply trim_nil in E. }
  apply paragraphLoop_units; [|exact Hink].
  apply List.filter_In. split; [exact Hin|]. by apply nonBlank_ink.
Qed.

(** X2: [chunkBySentences] loses no sentence: every sentence that
    [splitIntoSentences] finds in the text occurs in the content of some
    chunk. *)
Theorem chunkBySentences_keeps_sentences text maxChunkSize overlap s :
  In s (splitIntoSentences text) ->
  exists chunk,
    In chunk (chunkBySentences text maxChunkSize overlap) /\
    Spec.occursIn s (content chunk).
Proof.
  intros Hin. apply sentenceLoop_units; [exact Hin|].
  revert s Hin. apply List.Forall_forall, splitIntoSentences_tight.
Qed.

End Preservation.

(** An instance of X1: the second of the two paragraphs of the notes, cut in
    chunks of at most 40 code units. *)
Lemma chunkByParagraphs_keeps_paragraphs_witness :
  exists chunk,
    In chunk (Chunker.chunkByParagraphs Fixtures.twoParagraphs 40 0) /\
    Spec.occursIn (trim (js "Second paragraph of the notes."))
      (Chunker.content chunk).
Proof.
  apply chunkByParagraphs_keeps_paragraphs.
  - vm_compute. right. left. reflexivity.
  - vm_compute. discriminate.
Defined.

(** An instance of X2: the second of three sentences, cut in chunks of at
    most 50 code units. *)
Lemma chunkBySentences_keeps_sentences_witness :
  exists chunk,
    In chunk (Chunker.chunkBySentences Fixtures.threeSentences 50 0) /\
    Spec.occursIn (js "Epsilon zeta eta theta.") (Chunker.content chunk).
Proof.
  apply chunkBySentences_keeps_sentences.
  vm_compute. right. left. reflexivity.
Defined.

(* ===================================================================== *)
(** * The shape of the chunks                                             *)
(* ===================================================================== *)

Lemma trimStart_length s : (length (trimStart s) <= length s)%nat.
Proof.
  induction s as [|c r IH]; simpl; [lia|].
  destruct (is_space c); simpl; lia.
Qed.

Lemma len_trim s : len (trim s) <= len s.
Proof.
  unfold len, trim, trimEnd. rewrite length_rev.
  pose proof (trimStart_length (rev (trimStart s))) as H1.
  rewrite length_rev in H1. pose proof (trimStart_length s). lia.
Qed.

Section Shape.

Import Chunker.

Lemma numbered_nil : Spec.numbered [].
Proof. reflexivity. Qed.

Lemma numbered_snoc chunks c :
  Spec.numbered chunks -> chunk_index c = Z.of_nat (length chunks) ->
  Spec.numbered (chunks ++ [c]).
Proof.
  unfold Spec.numbered. intros H E.
  rewrite List.map_app, length_app, seq_app, List.map_app, H. simpl. by rewrite E.
Qed.

(** ** Paragraph and sentence loops *)

Lemma paragraphLoop_numbered text maxChunkSize overlap paragraphs chunks
      currentChunk chunkIndex startIndex :
  Spec.numbered chunks -> chunkIndex = Z.of_nat (length chunks) ->
  Spec.numbered
    (paragraphLoop text maxChunkSize overlap paragraphs chunks currentChunk
       chunkIndex startIndex).
Proof.
  revert chunks currentChunk chunkIndex startIndex.
  induction paragraphs as [|p rest IH];
    intros chunks currentChunk chunkIndex startIndex Hn Hi; simpl.
  - destruct (0 <? len (trim currentChunk)); [|exact Hn].
    by apply numbered_snoc.
  - destruct (_ && _).
    + apply IH; [by apply numbered_snoc|]. rewrite length_app. simpl. lia.
    + destruct (0 <? len currentChunk); by apply IH.
Qed.

Lemma sentenceLoop_numbered text maxChunkSize overlap sentences chunks
      currentChunk chunkIndex startIndex :
  Spec.numbered chunks -> chunkIndex = Z.of_nat (length chunks) ->
  Spec.numbered
    (sentenceLoop text maxChunkSize overlap sentences chunks currentChunk
       chunkIndex startIndex).
Proof.
  revert chunks currentChunk chunkIndex startIndex.
  induction sentences as [|p rest IH];
    intros chunks currentChunk chunkIndex startIndex Hn Hi; simpl.
  - destruct (0 <? len (trim currentChunk)); [|exact Hn].
    by apply numbered_snoc.
  - destruct (_ && _).
    + apply IH; [by apply numbered_snoc|]. rewrite length_app. simpl. lia.
    + destruct (0 <? len currentChunk); by apply IH.
Qed.

Lemma paragraphLoop_Forall (P : SemanticChunk -> Prop) text maxChunkSize overlap
      paragraphs chunks currentChunk chunkIndex startIndex :
  (forall body start index, P (accumulated paragraph body start index)) ->
  Forall P chunks ->
  Forall P
    (paragraphLoop text maxChunkSize overlap paragraphs chunks currentChunk
       chunkIndex startIndex).
Proof.
  intros HP. revert chunks currentChunk chunkIndex startIndex.
  induction paragraphs as [|p rest IH];
    intros chunks currentChunk chunkIndex startIndex Hc; simpl.
  - destruct (0 <? len (trim currentChunk)); [|exact Hc].
    apply Forall_app. split; [exact Hc|]. by constructor.
  - destruct (_ && _).
    + apply IH. apply Forall_app. split; [exact Hc|]. by constructor.
    + destruct (0 <? len currentChunk); by apply IH.
Qed.

Lemma sentenceLoop_Forall (P : SemanticChunk -> Prop) text maxChunkSize overlap
      sentences chunks currentChunk chunkIndex startIndex :
  (forall body start index, P (accumulated sentence body start index)) ->
  Forall P chunks ->
  Forall P
    (sentenceLoop text maxChunkSize overlap sentences chunks currentChunk
       chunkIndex startIndex).
Proof.
  intros HP. revert chunks currentChunk chunkIndex startIndex.
  induction sentences as [|p rest IH];
    intros chunks currentChunk chunkIndex startIndex Hc; simpl.
  - destruct (0 <? len (trim currentChunk)); [|exact Hc].
    apply Forall_app. split; [exact Hc|]. by constructor.
  - destruct (_ && _).
    + apply IH. apply Forall_app. split; [exact Hc|]. by constructor.
    + destruct (0 <? len currentChunk); by apply IH.
Qed.

(** ** The recursion *)

(** A property of the array that every push of [recursiveChunk] keeps is
    kept by the whole recursion. *)
Lemma accumulateLoop_invariant (Q : list SemanticChunk -> Prop) recurse
      maxChunkSize overlap gap slack units currentChunk chunkStart chunks :
  (forall body parentIndex chunks, Q chunks -> Q (recurse body parentIndex chunks)) ->
  Q chunks ->
  Q (accumulateLoop recurse maxChunkSize overlap gap slack units currentChunk
       chunkStart chunks).
Proof.
  intros HR. revert currentChunk chunkStart chunks.
  induction units as [|u rest IH]; intros currentChunk chunkStart chunks Hq; simpl.
  - destruct (0 <? len (trim currentChunk)); [by apply HR | exact Hq].
  - destruct (_ && _); [apply IH; by apply HR|].
    destruct (0 <? len currentChunk); by apply IH.
Qed.

Lemma recursiveChunk_invariant (Q : list SemanticChunk -> Prop) maxChunkSize
      overlap :
  (forall kind withParent sentences body parentIndex chunks,
      Q chunks ->
      Q (emitted kind maxChunkSize withParent sentences body parentIndex chunks)) ->
  forall budget body parentIndex chunks,
    Q chunks -> Q (recursiveChunk budget maxChunkSize overlap body parentIndex chunks).
Proof.
  intros HE. induction budget as [|budget IH]; intros body parentIndex chunks Hq.
  - simpl. by apply HE.
  - cbn [recursiveChunk].
    destruct (len body <=? maxChunkSize); [by apply HE|].
    destruct (len body <? 50); [by apply HE|].
    destruct (1 <? _); [by apply accumulateLoop_invariant|].
    destruct (1 <? _); [by apply accumulateLoop_invariant|].
    destruct (_ && _); [|by apply HE].
    by do 2 apply IH.
Qed.

Lemma emitted_numbered kind maxChunkSize withParent sentences body parentIndex
      chunks :
  Spec.numbered chunks ->
  Spec.numbered
    (emitted kind maxChunkSize withParent sentences body parentIndex chunks).
Proof.
  intros H. unfold emitted. destruct (0 <? len (trim body)); [|exact H].
  by apply numbered_snoc.
Qed.

Lemma emitted_Forall (P : SemanticChunk -> Prop) kind maxChunkSize withParent
      sentences body parentIndex chunks :
  (forall c, content c = trim body -> trim body <> [] ->
             start_index (metadata c) = parentIndex ->
             end_index (metadata c) = parentIndex + len body ->
             length_ (metadata c) = len body -> P c) ->
  Forall P chunks ->
  Forall P (emitted kind maxChunkSize withParent sentences body parentIndex chunks).
Proof.
  intros HP H. unfold emitted. destruct (0 <? len (trim body)) eqn:E; [|exact H].
  apply Forall_app. split; [exact H|]. constructor; [|constructor].
  apply HP; try reflexivity. by apply len_positive.
Qed.

(** Every chunk pushed by the recursion has ink, so the final filter of
    [chunkRecursively] removes nothing. *)
Lemma chunkRecursively_unfiltered text maxChunkSize overlap :
  chunkRecursively text maxChunkSize overlap
  = recursiveChunk 11 maxChunkSize overlap text 0 [].
Proof.
  unfold chunkRecursively.
  apply forallb_filter_id. apply forallb_forall. apply List.Forall_forall.
  apply (recursiveChunk_invariant
           (Forall (fun c => (0 <? len (trim (content c))) = true)));
    [|constructor].
  intros. apply emitted_Forall; [|assumption].
  intros c Hc Hne _ _ _. rewrite Hc. apply len_positive.
  apply trimmed_twice. destruct (Spec.hasInk body) eqn:E; [done|].
  by apply trim_nil in E.
Qed.

Lemma chunkRecursively_numbered text maxChunkSize overlap :
  Spec.numbered (chunkRecursively text maxChunkSize overlap).
Proof.
  rewrite chunkRecursively_unfiltered.
  apply (recursiveChunk_invariant Spec.numbered); [|apply numbered_nil].
  intros. by apply emitted_numbered.
Qed.

(** ** The semantic loop *)

Lemma pushParts_numbered text similarity parts chunks chunkIndex :
  Spec.numbered chunks -> chunkIndex = Z.of_nat (length chunks) ->
  Spec.numbered (fst (pushParts text similarity parts chunks chunkIndex)) /\
  snd (pushParts text similarity parts chunks chunkIndex)
  = Z.of_nat (length (fst (pushParts text similarity parts chunks chunkIndex))).
Proof.
  revert chunks chunkIndex.
  induction parts as [|part rest IH]; intros chunks chunkIndex Hn Hi; simpl.
  - by split.
  - apply IH; [by apply numbered_snoc|]. rewrite length_app. simpl. lia.
Qed.

Lemma pushParts_Forall (P : SemanticChunk -> Prop) text similarity parts chunks
      chunkIndex :
  (forall index part, P (semanticPart text similarity index part)) ->
  Forall P chunks ->
  Forall P (fst (pushParts text similarity parts chunks chunkIndex)).
Proof.
  intros HP. revert chunks chunkIndex.
  induction parts as [|part rest IH]; intros chunks chunkIndex H; simpl; [exact H|].
  apply IH. apply Forall_app. split; [exact H|]. by constructor.
Qed.

Lemma groupLoop_numbered fuel text maxChunkSize overlap sentences similarities
      breakpoints i chunks chunkIndex result :
  Spec.numbered chunks -> chunkIndex = Z.of_nat (length chunks) ->
  groupLoop fuel text maxChunkSize overlap sentences similarities breakpoints i
    chunks chunkIndex = Some result ->
  Spec.numbered result.
Proof.
  revert i chunks chunkIndex.
  induction breakpoints as [|start rest IH]; intros i chunks chunkIndex Hn Hi;
    simpl; [by intros [= <-]|].
  destruct rest as [|end_ rest']; [by intros [= <-]|].
  destruct (len _ =? 0); [by apply IH|].
  destruct (3 * maxChunkSize <? _).
  - destruct (simpleCharacterSplit _ _ _ _) as [parts|]; [|done].
    pose proof (pushParts_numbered text (similarityBefore similarities i start)
                  parts chunks chunkIndex Hn Hi) as [H1 H2].
    destruct (pushParts _ _ _ _ _) as [chunks' chunkIndex']. by apply IH.
  - apply IH; [by apply numbered_snoc|]. rewrite length_app. simpl. lia.
Qed.

Lemma groupLoop_Forall (P : SemanticChunk -> Prop) fuel text maxChunkSize
      overlap sentences similarities breakpoints i chunks chunkIndex result :
  (forall similarity index part, P (semanticPart text similarity index part)) ->
  (forall c, length_ (metadata c) = len (content c) ->
             end_index (metadata c)
             = start_index (metadata c) + len (content c) -> P c) ->
  Forall P chunks ->
  groupLoop fuel text maxChunkSize overlap sentences similarities breakpoints i
    chunks chunkIndex = Some result ->
  Forall P result.
Proof.
  intros HP1 HP2. revert i chunks chunkIndex.
  induction breakpoints as [|start rest IH]; intros i chunks chunkIndex Hc;
    simpl; [by intros [= <-]|].
  destruct rest as [|end_ rest']; [by intros [= <-]|].
  destruct (len _ =? 0); [by apply IH|].
  destruct (3 * maxChunkSize <? _).
  - destruct (simpleCharacterSplit _ _ _ _) as [parts|]; [|done].
    pose proof (pushParts_Forall P text (similarityBefore similarities i start)
                  parts chunks chunkIndex (HP1 _) Hc) as H1.
    destruct (pushParts _ _ _ _ _) as [chunks' chunkIndex']. by apply IH.
  - apply IH. apply Forall_app. split; [exact Hc|]. constructor; [|constructor].
    by apply HP2.
Qed.

Variable embedBatch : Z -> list jsstring -> option (list vector).

Lemma chunkByParagraphs_numbered text maxChunkSize overlap :
  Spec.numbered (chunkByParagraphs text maxChunkSize overlap).
Proof. by apply paragraphLoop_numbered. Qed.

Lemma chunkBySemantic_numbered fuel text maxChunkSize overlap chunks :
  chunkBySemantic embedBatch fuel text maxChunkSize overlap = Some chunks ->
  Spec.numbered chunks.
Proof.
  unfold chunkBySemantic.
  destruct (len text <=? maxChunkSize); [by intros [= <-]|].
  destruct (_ || _); [intros [= <-]; apply chunkByParagraphs_numbered|].
  destruct (_ <? 2); [intros [= <-]; apply chunkByParagraphs_numbered|].
  destruct (_ =? 0); [intros [= <-]; apply chunkByParagraphs_numbered|].
  destruct (_ <=? 2); [intros [= <-]; apply chunkByParagraphs_numbered|].
  destruct (groupLoop _ _ _ _ _ _ _ _ _ _) as [result|] eqn:E; [|done].
  apply groupLoop_numbered in E; [|apply numbered_nil|reflexivity].
  destruct result; intros [= <-]; [apply chunkByParagraphs_numbered|exact E].
Qed.

(** X3: whatever the strategy, the chunks that [chunkTextSemantically]
    returns are numbered 0, 1, 2, ... in the order of the array. *)
Theorem chunks_numbered_in_order fuel text maxChunkSize overlap strategy chunks :
  chunkTextSemantically embedBatch fuel text maxChunkSize overlap strategy
  = Some chunks ->
  List.map chunk_index chunks = List.map Z.of_nat (seq 0 (length chunks)).
Proof.
  destruct strategy; simpl; try (intros [= <-]).
  - apply chunkByParagraphs_numbered.
  - by apply sentenceLoop_numbered.
  - apply chunkRecursively_numbered.
  - apply chunkBySemantic_numbered.
  - apply chunkRecursively_numbered.
Qed.

Lemma accumulated_wellSpanned kind body start index :
  Spec.wellSpanned (accumulated kind body start index).
Proof. split; simpl; [reflexivity | apply len_trim]. Qed.

Lemma chunkByParagraphs_wellSpanned text maxChunkSize overlap :
  Forall Spec.wellSpanned (chunkByParagraphs text maxChunkSize overlap).
Proof.
  apply paragraphLoop_Forall; [|constructor].
  intros. apply accumulated_wellSpanned.
Qed.

Lemma chunkRecursively_wellSpanned text maxChunkSize overlap :
  Forall Spec.wellSpanned (chunkRecursively text maxChunkSize overlap).
Proof.
  rewrite chunkRecursively_unfiltered.
  apply (recursiveChunk_invariant (Forall Spec.wellSpanned)); [|constructor].
  intros. apply emitted_Forall; [|assumption].
  intros c Hc _ Hs He Hl. split; [lia|]. rewrite Hc, Hl. apply len_trim.
Qed.

Lemma chunkBySemantic_wellSpanned fuel text maxChunkSize overlap chunks :
  chunkBySemantic embedBatch fuel text maxChunkSize overlap = Some chunks ->
  Forall Spec.wellSpanned chunks.
Proof.
  unfold chunkBySemantic.
  destruct (len text <=? maxChunkSize).
  { intros [= <-]. constructor; [|constructor].
    split; simpl; [lia | apply len_trim]. }
  destruct (_ || _); [intros [= <-]; apply chunkByParagraphs_wellSpanned|].
  destruct (_ <? 2); [intros [= <-]; apply chunkByParagraphs_wellSpanned|].
  destruct (_ =? 0); [intros [= <-]; apply chunkByParagraphs_wellSpanned|].
  destruct (_ <=? 2); [intros [= <-]; apply chunkByParagraphs_wellSpanned|].
  destruct (groupLoop _ _ _ _ _ _ _ _ _ _) as [result|] eqn:E; [|done].
  apply (groupLoop_Forall Spec.wellSpanned) in E.
  - destruct result; intros [= <-]; [apply chunkByParagraphs_wellSpanned|exact E].
  - intros. split; simpl; [reflexivity | apply len_trim].
  - intros c Hl He. split; lia.
  - constructor.
Qed.

(** X4: whatever the strategy, the [end_index] of a chunk is its
    [start_index] plus its recorded [length], and its content has at most
    [length] code units. *)
Theorem chunks_span_their_length fuel text maxChunkSize overlap strategy chunks :
  chunkTextSemantically embedBatch fuel text maxChunkSize overlap strategy
  = Some chunks ->
  Forall (fun c =>
            end_index (metadata c)
            = start_index (metadata c) + length_ (metadata c) /\
            len (content c) <= length_ (metadata c)) chunks.
Proof.
  destruct strategy; simpl; try (intros [= <-]).
  - apply chunkByParagraphs_wellSpanned.
  - apply sentenceLoop_Forall; [|constructor]. intros. apply accumulated_wellSpanned.
  - apply chunkRecursively_wellSpanned.
  - apply chunkBySemantic_wellSpanned.
  - apply chunkRecursively_wellSpanned.
Qed.

End Shape.

(** An instance of X3: the three chunks that the semantic strategy makes of
    three sentences, each unlike its neighbour. *)
Lemma chunks_numbered_in_order_witness :
  length (Fixtures.chunksOf
            (Chunker.chunkTextSemantically Fixtures.alternating 40
               Fixtures.gappedSentences 30 0 Chunker.bySemantic)) = 3%nat /\
  List.map Chunker.chunk_index
    (Fixtures.chunksOf
       (Chunker.chunkTextSemantically Fixtures.alternating 40
          Fixtures.gappedSentences 30 0 Chunker.bySemantic))
  = [0; 1; 2].
Proof.
  split; [vm_compute; reflexivity|].
  apply (chunks_numbered_in_order Fixtures.alternating 40
           Fixtures.gappedSentences 30 0 Chunker.bySemantic).
  vm_compute. reflexivity.
Defined.

(** An instance of X4: the chunks that the recursive strategy makes of the
    notes. *)
Lemma chunks_span_their_length_witness :
  Forall (fun c =>
            Chunker.end_index (Chunker.metadata c)
            = Chunker.start_index (Chunker.metadata c)
              + Chunker.length_ (Chunker.metadata c) /\
            len (Chunker.content c) <= Chunker.length_ (Chunker.metadata c))
    (Chunker.chunkRecursively Fixtures.twoParagraphs 40 0).
Proof.
  apply (chunks_span_their_length Fixtures.outage 0 Fixtures.twoParagraphs 40 0
           Chunker.byRecursion).
  reflexivity.
Defined.

(* ===================================================================== *)
(** * Sentences, overlap and the embedding service                        *)
(* ===================================================================== *)

Section Sentences.

Import Chunker.

Lemma endsWithTerminator_appendDot s : endsWithTerminator (appendDot s) = true.
Proof. unfold endsWithTerminator, appendDot. by rewrite rev_app_distr. Qed.

Lemma len_appendDot s : len (appendDot s) = len s + 1.
Proof. unfold appendDot, len. rewrite length_app. simpl. lia. Qed.

Lemma splitIntoSentences_each text s :
  In s (splitIntoSentences text) -> endsWithTerminator s = true /\ 6 < len s.
Proof.
  unfold splitIntoSentences. destruct (_ <=? 1); intros Hs.
  - apply List.in_map_iff in Hs as (x & <- & Hx).
    apply List.filter_In in Hx as [_ Hx]. apply Z.ltb_lt in Hx.
    rewrite endsWithTerminator_appendDot, len_appendDot. split; [done | lia].
  - apply List.in_map_iff in Hs as (x & <- & Hx).
    apply List.filter_In in Hx as [_ Hx]. apply Z.ltb_lt in Hx.
    destruct (endsWithTerminator x) eqn:E; [split; [done | lia]|].
    rewrite endsWithTerminator_appendDot, len_appendDot. split; [done | lia].
Qed.

(** X5: every sentence that [splitIntoSentences] returns ends with [.], [!]
    or [?] and has more than six code units. *)
Theorem splitIntoSentences_shape text :
  Forall (fun s => endsWithTerminator s = true /\ 6 < len s)
    (splitIntoSentences text).
Proof. apply List.Forall_forall. apply splitIntoSentences_each. Qed.

(** ** The overlap *)

Lemma firstFitting_bound suffixes overlapSize :
  0 <= overlapSize -> len (firstFitting suffixes overlapSize) <= overlapSize.
Proof.
  intros H. induction suffixes as [|suffix more IH]; simpl; [exact H|].
  destruct (Z.leb_spec (len (join [SPACE] suffix)) overlapSize); [lia | exact IH].
Qed.

Lemma sliceFrom_last text n :
  0 < n -> n < len text -> len (sliceFrom text (- n)) = n.
Proof.
  intros H0 H1. unfold sliceFrom, slice, relativeIndex.
  destruct (Z.ltb_spec (- n) 0); [|lia].
  destruct (Z.ltb_spec (len text) 0); [lia|].
  unfold len in *. rewrite length_firstn, length_skipn. lia.
Qed.

Lemma getOverlapText_length text overlapSize :
  0 < overlapSize -> len (getOverlapText text overlapSize) <= overlapSize.
Proof.
  intros H. unfold getOverlapText.
  destruct (Z.leb_spec (len text) overlapSize); [lia|].
  pose proof (firstFitting_bound (suffixesFromLast (splitIntoSentences text))
                overlapSize ltac:(lia)) as Hb.
  destruct (firstFitting _ _); [|exact Hb].
  rewrite sliceFrom_last; lia.
Qed.

(** X6: for a positive overlap size, the overlap taken from a text has at
    most that many code units, and it is empty only when the text is. *)
Theorem getOverlapText_bounded text overlapSize :
  0 < overlapSize ->
  len (getOverlapText text overlapSize) <= overlapSize /\
  (text <> [] -> getOverlapText text overlapSize <> []).
Proof.
  intros H. split; [by apply getOverlapText_length|].
  intros Hne. unfold getOverlapText.
  destruct (Z.leb_spec (len text) overlapSize); [exact Hne|].
  destruct (firstFitting _ _); [|done].
  intros E. apply (f_equal len) in E. rewrite sliceFrom_last in E by lia.
  change (len []) with 0 in E. lia.
Qed.

Lemma join_nonempty sep s rest : s <> [] -> join sep (s :: rest) <> [].
Proof. intros H. simpl. destruct rest; [exact H|]. by destruct s. Qed.

Lemma suffixesFromLast_heads sentences :
  Forall (fun suffix => exists s rest, suffix = s :: rest /\ In s sentences)
    (suffixesFromLast sentences).
Proof.
  induction sentences as [|s r IH]; simpl; [constructor|].
  apply Forall_app. split.
  - eapply Forall_impl; [exact IH|]. intros suffix (x & rest & -> & Hx).
    exists x, rest. split; [done | by right].
  - constructor; [|constructor]. exists s, r. split; [done | by left].
Qed.

Lemma firstFitting_none suffixes :
  Forall (fun suffix => join [SPACE] suffix <> []) suffixes ->
  firstFitting suffixes 0 = [].
Proof.
  induction 1 as [|suffix more Hne _ IH]; simpl; [done|].
  destruct (Z.leb_spec (len (join [SPACE] suffix)) 0) as [Hl|]; [|exact IH].
  exfalso. apply Hne. unfold len in Hl. destruct (join _ _); [done | simpl in Hl; lia].
Qed.

(** X7: with an overlap size of 0, [getOverlapText] returns the whole text
    ([slice(-0)] is [slice(0)]). *)
Theorem getOverlapText_zero text : getOverlapText text 0 = text.
Proof.
  unfold getOverlapText.
  destruct (Z.leb_spec (len text) 0) as [Hl|Hl]; [reflexivity|].
  rewrite firstFitting_none.
  - unfold sliceFrom. simpl. apply slice_all. lia.
  - eapply Forall_impl; [apply suffixesFromLast_heads|].
    intros suffix (s & rest & -> & Hs). apply join_nonempty.
    destruct (splitIntoSentences_each text s Hs) as [_ Hlen].
    intros ->. unfold len in Hlen. simpl in Hlen. lia.
Qed.

(** ** Embedding outage *)

Variable embedBatch : Z -> list jsstring -> option (list vector).

Lemma embedLoop_outage steps limitedSentences i embeddings :
  (forall i batch, embedBatch i batch = None) ->
  embedLoop embedBatch steps limitedSentences i embeddings = embeddings.
Proof.
  intros H. revert i.
  induction steps as [|steps IH]; intros i; simpl; [done|].
  destruct (i <? _); [|done].
  destruct (List.filter _ _); [apply IH|]. rewrite H. apply IH.
Qed.

(** X8: when every embedding request fails, the semantic strategy still
    returns: the chunks of the paragraph strategy for a text longer than
    [maxChunkSize], the trimmed text as a single chunk otherwise. *)
Theorem chunkBySemantic_without_embeddings fuel text maxChunkSize overlap :
  (forall i batch, embedBatch i batch = None) ->
  exists chunks,
    chunkTextSemantically embedBatch fuel text maxChunkSize overlap bySemantic
    = Some chunks /\
    (maxChunkSize < len text ->
     chunks = chunkByParagraphs text maxChunkSize overlap) /\
    (len text <= maxChunkSize ->
     List.map content chunks = [trim text]).
Proof.
  intros H. simpl. unfold chunkBySemantic.
  destruct (Z.leb_spec (len text) maxChunkSize).
  - eexists. split; [reflexivity|]. split; [lia | done].
  - destruct (_ || _).
    { eexists. split; [reflexivity|]. split; [done | lia]. }
    rewrite embedLoop_outage by exact H. simpl.
    eexists. split; [reflexivity|]. split; [done | lia].
Qed.

End Sentences.

(** An instance of X6: an overlap of at most 30 code units out of three
    sentences. *)
Lemma getOverlapText_bounded_witness :
  len (Chunker.getOverlapText Fixtures.threeSentences 30) <= 30 /\
  (Fixtures.threeSentences <> [] ->
   Chunker.getOverlapText Fixtures.threeSentences 30 <> []).
Proof. apply (getOverlapText_bounded Fixtures.threeSentences 30). lia. Defined.

(** An instance of X8: three sentences in chunks of at most 20 code units,
    while the embedding service is down. *)
Lemma chunkBySemantic_without_embeddings_witness :
  exists chunks,
    Chunker.chunkTextSemantically Fixtures.outage 0 Fixtures.threeSentences 20 5
      Chunker.bySemantic = Some chunks /\
    (20 < len Fixtures.threeSentences ->
     chunks = Chunker.chunkByParagraphs Fixtures.threeSentences 20 5) /\
    (len Fixtures.threeSentences <= 20 ->
     List.map Chunker.content chunks = [trim Fixtures.threeSentences]).
Proof.
  apply (chunkBySemantic_without_embeddings Fixtures.outage 0
           Fixtures.threeSentences 20 5).
  intros i batch. reflexivity.
Defined.

(* ===================================================================== *)
(** * The character split                                                 *)
(* ===================================================================== *)

Lemma slice_inside s a b :
  0 <= a -> a <= b ->
  slice s a b
  = firstn (Z.to_nat (Z.min b (len s) - Z.min a (len s)))
      (skipn (Z.to_nat (Z.min a (len s))) s).
Proof.
  intros Ha Hb. unfold slice, relativeIndex.
  destruct (Z.ltb_spec a 0); [lia|]. destruct (Z.ltb_spec b 0); [lia|]. done.
Qed.

Lemma len_slice_inside s a b :
  0 <= a -> a <= b -> a <= len s ->
  len (slice s a b) = Z.min b (len s) - a.
Proof.
  intros Ha Hb Hl. rewrite slice_inside by lia.
  unfold len in *. rewrite length_firstn, length_skipn. lia.
Qed.

(** A shorter slice from the same start is a prefix of a longer one. *)
Lemma slice_prefix s a b c :
  0 <= a -> a <= b -> b <= c ->
  exists rest, slice s a c = slice s a b ++ rest.
Proof.
  intros Ha Hb Hc. rewrite !slice_inside by lia.
  set (l := skipn _ s).
  exists (firstn (Z.to_nat (Z.min c (len s) - Z.min b (len s)))
            (skipn (Z.to_nat (Z.min b (len s) - Z.min a (len s))) l)).
  rewrite take_take_drop. f_equal. lia.
Qed.

Lemma lastIndexOfCharFrom_bound s c i found :
  found < i ->
  lastIndexOfCharFrom s c i found < i + len s.
Proof.
  revert i found. induction s as [|x r IH]; intros i found H; simpl.
  - unfold len. simpl. lia.
  - replace (i + len (x :: r)) with ((i + 1) + len r)
      by (unfold len; simpl; lia).
    apply IH. destruct (x =? c)%N; lia.
Qed.

Lemma lastIndexOfChar_bound s c : lastIndexOfChar s c < len s.
Proof.
  unfold lastIndexOfChar.
  pose proof (lastIndexOfCharFrom_bound s c 0 (-1) ltac:(lia)). lia.
Qed.

Section SubSplit.

Import Chunker.

(** The loop of [simpleCharacterSplit] without overlap, from [start]: it adds
    one part per window of [maxSize] code units, each a prefix of its window
    that is not empty. *)
Lemma simpleCharacterSplitLoop_windows fuel text maxSize start chunks :
  0 < maxSize -> 0 <= start ->
  Z.max 0 (len text - start) < Z.of_nat fuel ->
  exists parts,
    simpleCharacterSplitLoop fuel text maxSize 0 start chunks
    = Some (chunks ++ parts) /\
    Z.of_nat (length parts) = (Z.max 0 (len text - start) + maxSize - 1) / maxSize /\
    forall k part,
      nth_error parts k = Some part ->
      part <> [] /\
      exists rest,
        slice text (start + Z.of_nat k * maxSize)
          (start + (Z.of_nat k + 1) * maxSize) = part ++ rest.
Proof.
  intros Hm. revert start chunks.
  induction fuel as [|fuel IH]; intros start chunks H0 Hf; [lia|].
  cbn [simpleCharacterSplitLoop].
  destruct (Z.ltb_spec start (len text)) as [Hlt|Hge].
  - set (end_ := Z.min (start + maxSize) (len text)).
    set (chunk := if end_ <? len text then _ else _).
    rewrite Z.sub_0_r.
    destruct (IH end_ (chunks ++ [chunk]) ltac:(lia) ltac:(lia))
      as (parts & -> & Hcount & Hparts).
    exists (chunk :: parts). rewrite <- app_assoc. split; [done|].
    assert (Hwhole : slice text start (start + maxSize) = slice text start end_).
    { rewrite !slice_inside by lia. do 3 f_equal. lia. }
    assert (Hlen : len (slice text start end_) = end_ - start).
    { rewrite len_slice_inside by lia. lia. }
    assert (Hchunk : chunk <> [] /\
                     exists rest, slice text start (start + maxSize) = chunk ++ rest).
    { subst chunk. destruct (end_ <? len text).
      - pose proof (lastIndexOfChar_bound (slice text start end_) SPACE) as Hb.
        destruct (Z.ltb_spec (4 * maxSize)
                    (5 * lastIndexOfChar (slice text start end_) SPACE)) as [Hcut|].
        + split.
          * intros E. apply (f_equal len) in E.
            rewrite len_slice_inside in E by lia. unfold len in E at 2.
            simpl in E. lia.
          * rewrite Hwhole. apply slice_prefix; lia.
        + split.
          * intros E. rewrite E in Hlen. unfold len in Hlen at 1.
            simpl in Hlen. lia.
          * exists []. by rewrite app_nil_r.
      - split.
        + intros E. rewrite E in Hlen. unfold len in Hlen at 1.
          simpl in Hlen. lia.
        + exists []. by rewrite app_nil_r. }
    split.
    + simpl length. rewrite Nat2Z.inj_succ, Hcount.
      destruct (Z.le_gt_cases (len text) (start + maxSize)).
      * replace (Z.max 0 (len text - end_)) with 0 by lia.
        replace (Z.max 0 (len text - start)) with (len text - start) by lia.
        rewrite (Z.div_small (0 + maxSize - 1)) by lia.
        change (Z.succ 0) with 1.
        apply (Z.div_unique _ _ 1 (len text - start - 1)); lia.
      * replace (Z.max 0 (len text - end_)) with (len text - start - maxSize) by lia.
        replace (Z.max 0 (len text - start)) with (len text - start) by lia.
        replace (len text - start + maxSize - 1)
          with (len text - start - maxSize + maxSize - 1 + 1 * maxSize) by lia.
        rewrite Z.div_add by lia. lia.
    + intros [|k] part Hk.
      * injection Hk as <-. destruct Hchunk as [Hne (rest & Hrest)].
        split; [exact Hne|]. exists rest. rewrite <- Hrest. f_equal; lia.
      * simpl in Hk. destruct (Hparts k part Hk) as [Hne (rest & Hrest)].
        split; [exact Hne|].
        destruct (Z.le_gt_cases (len text) (start + maxSize)).
        -- (* the loop has ended: no further part *)
           exfalso. replace (Z.max 0 (len text - end_)) with 0 in Hcount by lia.
           rewrite (Z.div_small (0 + maxSize - 1)) in Hcount by lia.
           destruct parts; [by destruct k | simpl in Hcount; lia].
        -- exists rest. rewrite <- Hrest. f_equal; lia.
  - exists []. rewrite app_nil_r. split; [done|]. split.
    + replace (Z.max 0 (len text - start)) with 0 by lia.
      rewrite (Z.div_small (0 + maxSize - 1)) by lia. done.
    + intros k part Hk. by destruct k.
Qed.

Lemma len_slice_window s a b : 0 <= a -> a <= b -> len (slice s a b) <= b - a.
Proof.
  intros Ha Hb. rewrite slice_inside by lia.
  unfold len. rewrite length_firstn. lia.
Qed.

(** X9: without overlap, [simpleCharacterSplit] returns one part for each
    window of [maxSize] code units of the text; each part is a prefix of
    its window, is not empty and has at most [maxSize] code units. *)
Theorem simpleCharacterSplit_by_windows (text : jsstring) maxSize :
  0 < maxSize ->
  exists parts,
    simpleCharacterSplit (S (length text)) text maxSize 0 = Some parts /\
    Z.of_nat (length parts) = (len text + maxSize - 1) / maxSize /\
    forall k part,
      nth_error parts k = Some part ->
      0 < len part <= maxSize /\
      exists rest,
        slice text (Z.of_nat k * maxSize) ((Z.of_nat k + 1) * maxSize)
        = part ++ rest.
Proof.
  intros Hm. unfold simpleCharacterSplit.
  destruct (simpleCharacterSplitLoop_windows (S (length text)) text maxSize 0 []
              Hm ltac:(lia)) as (parts & E & Hcount & Hparts).
  { unfold len. lia. }
  exists parts. split; [exact E|]. split.
  - rewrite Hcount. f_equal. pose proof (len_nonneg text). lia.
  - intros k part Hk. destruct (Hparts k part Hk) as [Hne (rest & Hrest)].
    split; [|exists rest; exact Hrest]. split.
    + apply Z.ltb_lt. by apply len_positive.
    + assert (Hw : len (part ++ rest) <= maxSize).
      { rewrite <- Hrest.
        etransitivity; [apply len_slice_window; nia | lia]. }
      unfold len in *. rewrite length_app in Hw. lia.
Qed.

End SubSplit.

(** An instance of X9: three sentences in windows of 20 code units. *)
Lemma simpleCharacterSplit_by_windows_witness :
  exists parts,
    Chunker.simpleCharacterSplit (S (length Fixtures.threeSentences))
      Fixtures.threeSentences 20 0 = Some parts /\
    Z.of_nat (length parts) = (len Fixtures.threeSentences + 20 - 1) / 20 /\
    forall k part,
      nth_error parts k = Some part ->
      0 < len part <= 20 /\
      exists rest,
        slice Fixtures.threeSentences (Z.of_nat k * 20) ((Z.of_nat k + 1) * 20)
        = part ++ rest.
Proof. apply (simpleCharacterSplit_by_windows Fixtures.threeSentences 20). lia. Defined.

(* ===================================================================== *)
(** * Blank text                                                          *)
(* ===================================================================== *)

Lemma splitAux_blank m prev s skip cur :
  Spec.hasInk s = false -> Spec.hasInk cur = false ->
  Forall (fun piece => Spec.hasInk piece = false) (splitAux m prev s skip cur).
Proof.
  revert prev skip cur.
  induction s as [|c r IH]; intros prev skip cur Hs Hcur; simpl.
  - constructor; [|constructor]. by rewrite hasInk_rev.
  - simpl in Hs. apply orb_false_iff in Hs as [Hc Hr].
    destruct skip as [|k]; [|by apply IH].
    destruct (m prev (c :: r)) as [[|k]|].
    + apply IH; [exact Hr|]. simpl. by rewrite Hc.
    + constructor; [by rewrite hasInk_rev | by apply IH].
    + apply IH; [exact Hr|]. simpl. by rewrite Hc.
Qed.

Lemma split_blank m s :
  Spec.hasInk s = false ->
  Forall (fun piece => Spec.hasInk piece = false) (split m s).
Proof. intros H. by apply splitAux_blank. Qed.

Lemma filter_none {A} (p : A -> bool) (l : list A) :
  Forall (fun x => p x = false) l -> List.filter p l = [].
Proof.
  induction 1 as [|x l Hx _ IH]; simpl; [done|]. by rewrite Hx.
Qed.

Lemma blank_paragraphs text :
  Spec.hasInk text = false ->
  List.filter Chunker.nonBlank (split reBlankLine text) = [].
Proof.
  intros H. apply filter_none.
  eapply Forall_impl; [by apply split_blank|].
  intros piece Hp. unfold Chunker.nonBlank.
  destruct (0 <? len (trim piece)) eqn:E; [|done].
  apply nonBlank_ink in E. congruence.
Qed.

Lemma blank_longer_trimmed m n text :
  0 <= n -> Spec.hasInk text = false ->
  List.filter (fun s => n <? len s) (List.map trim (split m text)) = [].
Proof.
  intros Hn H. apply filter_none. apply Forall_map.
  eapply Forall_impl; [by apply split_blank|].
  intros piece Hp. simpl. apply trim_nil in Hp. rewrite Hp.
  apply Z.ltb_ge. unfold len. simpl. lia.
Qed.

Lemma blank_sentences text :
  Spec.hasInk text = false -> Chunker.splitIntoSentences text = [].
Proof.
  intros H. unfold Chunker.splitIntoSentences.
  rewrite !blank_longer_trimmed by (lia || exact H). reflexivity.
Qed.

Lemma hasInk_firstn n s : Spec.hasInk s = false -> Spec.hasInk (firstn n s) = false.
Proof.
  revert n. induction s as [|c r IH]; intros [|n] H; simpl; try done.
  simpl in H. apply orb_false_iff in H as [Hc Hr]. by rewrite Hc, IH.
Qed.

Lemma hasInk_skipn n s : Spec.hasInk s = false -> Spec.hasInk (skipn n s) = false.
Proof.
  revert n. induction s as [|c r IH]; intros [|n] H; simpl; try done.
  simpl in H. apply orb_false_iff in H as [Hc Hr]. by apply IH.
Qed.

Lemma slice_blank s a b : Spec.hasInk s = false -> trim (slice s a b) = [].
Proof.
  intros H. apply trim_nil. unfold slice. by apply hasInk_firstn, hasInk_skipn.
Qed.

Section Blank.

Import Chunker.

Variable embedBatch : Z -> list jsstring -> option (list vector).

Lemma emitted_blank kind maxChunkSize withParent sentences body parentIndex chunks :
  Spec.hasInk body = false ->
  emitted kind maxChunkSize withParent sentences body parentIndex chunks = chunks.
Proof.
  intros H. unfold emitted. apply trim_nil in H. by rewrite H.
Qed.

Lemma recursiveChunk_blank budget maxChunkSize overlap body parentIndex chunks :
  Spec.hasInk body = false ->
  recursiveChunk budget maxChunkSize overlap body parentIndex chunks = chunks.
Proof.
  intros H. destruct budget as [|budget]; cbn [recursiveChunk].
  - by apply emitted_blank.
  - destruct (len body <=? maxChunkSize); [by apply emitted_blank|].
    destruct (len body <? 50); [by apply emitted_blank|].
    rewrite blank_paragraphs by exact H. simpl.
    rewrite blank_sentences by exact H. simpl.
    rewrite slice_blank by exact H. simpl. by apply emitted_blank.
Qed.

(** X10: a text of white space only gives no chunk under the paragraph, the
    sentence and the recursive strategy. *)
Theorem blank_text_has_no_chunk fuel text maxChunkSize overlap strategy :
  trim text = [] -> strategy <> bySemantic ->
  chunkTextSemantically embedBatch fuel text maxChunkSize overlap strategy
  = Some [].
Proof.
  intros Hb Hs. apply trim_nil in Hb.
  assert (Hr : chunkRecursively text maxChunkSize overlap = []).
  { unfold chunkRecursively. by rewrite recursiveChunk_blank. }
  destruct strategy; simpl; try done; f_equal; try exact Hr.
  - unfold chunkByParagraphs. by rewrite blank_paragraphs.
  - unfold chunkBySentences. by rewrite blank_sentences.
Qed.

End Blank.

(** An instance of X10: a space, a line feed and a space, under the
    recursive strategy. *)
Lemma blank_text_has_no_chunk_witness :
  Chunker.chunkTextSemantically Fixtures.outage 0 [SPACE; NEWLINE; SPACE] 2000
    400 Chunker.byRecursion = Some [].
Proof.
  apply blank_text_has_no_chunk; [reflexivity | discriminate].
Defined.

(* ===================================================================== *)
(** * The size of a chunk                                                 *)
(* ===================================================================== *)

Section Sizes.

Import Chunker.

Lemma len_app s t : len (s ++ t) = len s + len t.
Proof. unfold len. rewrite length_app. lia. Qed.

Lemma splitAux_nonempty m prev s skip cur : splitAux m prev s skip cur <> [].
Proof.
  revert prev skip cur. induction s as [|c r IH]; intros prev skip cur; [done|].
  simpl. destruct skip; [|apply IH].
  destruct (m prev (c :: r)) as [[|k]|]; [apply IH | done | apply IH].
Qed.

(** The paragraph loop keeps the chunk being built, and so the chunks it
    pushes, within the larger of [maxChunkSize + 2] and of the longest
    paragraph under an overlap. *)
Lemma paragraphLoop_bounded longest text maxChunkSize overlap paragraphs chunks
      currentChunk chunkIndex startIndex :
  0 < overlap ->
  Forall (fun p => len (trim p) <= longest) paragraphs ->
  len currentChunk <= Z.max (maxChunkSize + 2) (overlap + 2 + longest) ->
  Forall (fun c => length_ (metadata c)
                   <= Z.max (maxChunkSize + 2) (overlap + 2 + longest)) chunks ->
  Forall (fun c => length_ (metadata c)
                   <= Z.max (maxChunkSize + 2) (overlap + 2 + longest))
    (paragraphLoop text maxChunkSize overlap paragraphs chunks currentChunk
       chunkIndex startIndex).
Proof.
  intros Ho Hp. revert chunks currentChunk chunkIndex startIndex.
  induction Hp as [|p rest Hlen _ IH];
    intros chunks currentChunk chunkIndex startIndex Hcur Hchunks;
    cbn [paragraphLoop]; cbv zeta.
  - destruct (0 <? len (trim currentChunk)); [|exact Hchunks].
    apply Forall_app. split; [exact Hchunks|]. by constructor.
  - destruct (Z.ltb_spec 0 (len currentChunk)) as [Hpos|Hzero].
    + rewrite andb_true_r.
      destruct (Z.ltb_spec maxChunkSize (len currentChunk + len (trim p))).
      * apply IH.
        -- rewrite !len_app.
           pose proof (getOverlapText_length currentChunk overlap Ho).
           change (len PARAGRAPH_BREAK) with 2. lia.
        -- apply Forall_app. split; [exact Hchunks|]. by constructor.
      * apply IH; [|exact Hchunks].
        rewrite !len_app. change (len PARAGRAPH_BREAK) with 2. lia.
    + rewrite andb_false_r. apply IH; [|exact Hchunks].
      pose proof (len_nonneg (trim p)). lia.
Qed.

(** X11: under a positive overlap, a chunk of [chunkByParagraphs] has at
    most [maxChunkSize + 2] code units, or at most the overlap, a paragraph
    break and the longest paragraph when that is more. *)
Theorem chunkByParagraphs_bounded longest text maxChunkSize overlap :
  0 < overlap ->
  Forall (fun p => len (trim p) <= longest) (split reBlankLine text) ->
  Forall (fun c =>
            len (content c) <= length_ (metadata c) /\
            length_ (metadata c)
            <= Z.max (maxChunkSize + 2) (overlap + 2 + longest))
    (chunkByParagraphs text maxChunkSize overlap).
Proof.
  intros Ho Hp.
  assert (H0 : 0 <= longest).
  { destruct (split reBlankLine text) as [|p l] eqn:E.
    - by apply splitAux_nonempty in E.
    - inversion Hp as [|? ? H1 _]. pose proof (len_nonneg (trim p)). lia. }
  apply Forall_and. split.
  - eapply Forall_impl; [apply chunkByParagraphs_wellSpanned|].
    by intros c [_ H].
  - unfold chunkByParagraphs. apply paragraphLoop_bounded; try done.
    + apply List.Forall_forall. intros p Hin.
      apply List.filter_In in Hin as [Hin _].
      by apply (proj1 (List.Forall_forall _ _) Hp).
    + unfold len. simpl. lia.
Qed.

(** ** The kinds of the recursive strategy *)

Lemma emitted_kinds (P : SemanticChunk -> Prop) kind maxChunkSize withParent
      sentences body parentIndex chunks :
  (forall c, chunk_type (metadata c) = kind ->
             length_ (metadata c) = len body -> P c) ->
  Forall P chunks ->
  Forall P (emitted kind maxChunkSize withParent sentences body parentIndex chunks).
Proof.
  intros HP H. unfold emitted. destruct (0 <? len (trim body)); [|exact H].
  apply Forall_app. split; [exact H|]. constructor; [|constructor].
  by apply HP.
Qed.

Lemma recursiveChunk_kinds maxChunkSize overlap budget body parentIndex chunks :
  Forall (fun c =>
            (chunk_type (metadata c) = recursive ->
             length_ (metadata c) <= maxChunkSize) /\
            (chunk_type (metadata c) = recursive_small ->
             maxChunkSize < length_ (metadata c) < 50)) chunks ->
  Forall (fun c =>
            (chunk_type (metadata c) = recursive ->
             length_ (metadata c) <= maxChunkSize) /\
            (chunk_type (metadata c) = recursive_small ->
             maxChunkSize < length_ (metadata c) < 50))
    (recursiveChunk budget maxChunkSize overlap body parentIndex chunks).
Proof.
  revert body parentIndex chunks.
  induction budget as [|budget IH]; intros body parentIndex chunks H.
  - simpl. apply emitted_kinds; [|exact H].
    intros c E _. rewrite E. split; intros; discriminate.
  - cbn [recursiveChunk].
    destruct (Z.leb_spec (len body) maxChunkSize).
    { apply emitted_kinds; [|exact H].
      intros c E ->. rewrite E. split; [done | intros; discriminate]. }
    destruct (Z.ltb_spec (len body) 50).
    { apply emitted_kinds; [|exact H].
      intros c E ->. rewrite E. split; [intros; discriminate | intros; lia]. }
    destruct (1 <? _).
    { apply (accumulateLoop_invariant (Forall _)); [|exact H]. intros. by apply IH. }
    destruct (1 <? _).
    { apply (accumulateLoop_invariant (Forall _)); [|exact H]. intros. by apply IH. }
    destruct (_ && _); [by do 2 apply IH|].
    apply emitted_kinds; [|exact H].
    intros c E _. rewrite E. split; intros; discriminate.
Qed.

(** X12: in [chunkRecursively], a chunk of type [recursive] has at most
    [maxChunkSize] code units, and a chunk of type [recursive_small] is one
    of fewer than 50 code units that exceeds [maxChunkSize]. *)
Theorem chunkRecursively_kinds text maxChunkSize overlap :
  Forall (fun c =>
            (chunk_type (metadata c) = recursive ->
             len (content c) <= length_ (metadata c) <= maxChunkSize) /\
            (chunk_type (metadata c) = recursive_small ->
             maxChunkSize < length_ (metadata c) < 50))
    (chunkRecursively text maxChunkSize overlap).
Proof.
  pose proof (chunkRecursively_wellSpanned text maxChunkSize overlap) as Hs.
  rewrite chunkRecursively_unfiltered in *.
  pose proof (recursiveChunk_kinds maxChunkSize overlap 11 text 0 []
                ltac:(constructor)) as Hk.
  rewrite List.Forall_forall in *. intros c Hc.
  destruct (Hs c Hc) as [_ Hl]. destruct (Hk c Hc) as [H1 H2].
  split; [|exact H2]. intros E. specialize (H1 E). lia.
Qed.

End Sizes.

(** An instance of X11: the notes, whose paragraphs have at most 30 code
    units, in chunks of 40 with an overlap of 5. *)
Lemma chunkByParagraphs_bounded_witness :
  Forall (fun c =>
            len (Chunker.content c) <= Chunker.length_ (Chunker.metadata c) /\
            Chunker.length_ (Chunker.metadata c)
            <= Z.max (40 + 2) (5 + 2 + 30))
    (Chunker.chunkByParagraphs Fixtures.twoParagraphs 40 5).
Proof.
  apply (chunkByParagraphs_bounded 30 Fixtures.twoParagraphs 40 5); [lia|].
  apply (Forall_of_forallb (fun p => len (trim p) <=? 30)).
  - intros p H. by apply Z.leb_le.
  - vm_compute. reflexivity.
Defined.

(* ===================================================================== *)
(** * Similarity of two embeddings                                        *)
(* ===================================================================== *)

Lemma float_mul_comm (x y : float) : (x * y)%float = (y * x)%float.
Proof.
  apply FloatAxioms.Prim2SF_inj. rewrite !FloatAxioms.mul_spec. unfold SF64mul, SFmul.
  destruct (Prim2SF x) as [sx|sx| |sx mx ex], (Prim2SF y) as [sy|sy| |sy my ey];
    try reflexivity; try (by rewrite xorb_comm).
  by rewrite xorb_comm, Pos.mul_comm, Z.add_comm.
Qed.

Section Similarity.
Import Chunker.

Lemma similaritySums_swap vec1 vec2 dotProduct norm1 norm2 :
  similaritySums vec2 vec1 dotProduct norm2 norm1
  = let '(d, n1, n2) := similaritySums vec1 vec2 dotProduct norm1 norm2 in
    (d, n2, n1).
Proof.
  revert vec2 dotProduct norm1 norm2.
  induction vec1 as [|x r1 IH]; intros [|y r2] dotProduct norm1 norm2;
    simpl; try reflexivity.
  rewrite (float_mul_comm y x). apply IH.
Qed.

(** X13: [calculateSimilarity] gives the same number for two vectors in
    either order. *)
Theorem calculateSimilarity_symmetric vec1 vec2 :
  calculateSimilarity vec1 vec2 = calculateSimilarity vec2 vec1.
Proof.
  unfold calculateSimilarity.
  rewrite (Nat.eqb_sym (length vec2)).
  destruct (negb _); [reflexivity|].
  rewrite (similaritySums_swap vec1 vec2).
  destruct (similaritySums vec1 vec2 0 0 0) as [[d n1] n2].
  by rewrite float_mul_comm.
Qed.
End Similarity.

(* ===================================================================== *)
(** * Sections of a document                                              *)
(* ===================================================================== *)

Lemma spanLength_le p s : (spanLength p s <= length s)%nat.
Proof.
  induction s as [|c r IH]; simpl; [lia|]. destruct (p c); simpl; lia.
Qed.

Lemma spanLength_head p c r n : spanLength p (c :: r) = S n -> p c = true.
Proof. simpl. by destruct (p c). Qed.

Section Outline.

Import Sections.

Lemma markdownHeader_level line m :
  markdownHeader line = Some m -> 1 <= len (group1 m) <= 6.
Proof.
  unfold markdownHeader.
  set (hashes := spanLength _ line).
  destruct (Nat.leb_spec 1 hashes); [|done].
  destruct (Nat.leb_spec hashes 6); [|done]. simpl.
  destruct (headerTitle _); [|done]. intros [= <-]. simpl.
  unfold len. rewrite length_firstn.
  pose proof (spanLength_le (fun c => (c =? HASH)%N) line). fold hashes in H1. lia.
Qed.

Lemma numberedHeader_marker line m :
  numberedHeader line = Some m -> startsWith (group1 m) [HASH] = false.
Proof.
  unfold numberedHeader.
  destruct (spanLength is_digit line) as [|n] eqn:E.
  { by destruct (skipn 0 line). }
  destruct line as [|c r]; [discriminate E|].
  apply spanLength_head in E.
  destruct (skipn _ _) as [|d afterDot]; [done|].
  destruct (d =? DOT)%N; [|done].
  destruct (headerTitle _); [|done]. intros [= <-].
  cbn [group1 firstn startsWith].
  destruct (N.eqb_spec HASH c) as [<-|]; [discriminate E | done].
Qed.

Lemma capitalsHeader_marker line m :
  capitalsHeader line = Some m -> startsWith (group1 m) [HASH] = false.
Proof.
  unfold capitalsHeader.
  destruct (_ && _) eqn:E; [|done]. intros [= <-]. simpl.
  apply andb_true_iff in E as [_ E].
  destruct line as [|c r]; [done|]. cbn [forallb] in E.
  apply andb_true_iff in E as [E _]. cbn [startsWith].
  destruct (N.eqb_spec HASH c) as [<-|]; [discriminate E | done].
Qed.

Lemma headerMatch_level line m :
  headerMatch line = Some m ->
  1 <= (if startsWith (group1 m) [HASH] then len (group1 m) else 1) <= 6.
Proof.
  unfold headerMatch.
  destruct (markdownHeader line) as [m1|] eqn:E1.
  { intros [= <-]. apply markdownHeader_level in E1.
    destruct (startsWith _ _); lia. }
  destruct (numberedHeader line) as [m2|] eqn:E2.
  { intros [= <-]. rewrite (numberedHeader_marker _ _ E2). lia. }
  intros E3. rewrite (capitalsHeader_marker _ _ E3). lia.
Qed.

Lemma truthy_ink s : truthy (trim s) = true -> trim s <> [].
Proof. by destruct (trim s). Qed.

Lemma pushed_Forall (P : DocumentSection -> Prop) sections currentSection :
  (trim (content currentSection) <> [] -> P currentSection) ->
  Forall P sections -> Forall P (pushed sections currentSection).
Proof.
  intros HP H. unfold pushed.
  destruct (truthy _) eqn:E; [|exact H].
  apply Forall_app. split; [exact H|]. constructor; [|constructor].
  by apply HP, truthy_ink.
Qed.

Lemma sectionLoop_shape lines sections currentSection :
  Forall (fun s => trim (content s) <> [] /\ 0 <= level s <= 6) sections ->
  0 <= level currentSection <= 6 ->
  Forall (fun s => trim (content s) <> [] /\ 0 <= level s <= 6)
    (sectionLoop lines sections currentSection).
Proof.
  revert sections currentSection.
  induction lines as [|line rest IH]; intros sections currentSection Hs Hl; simpl.
  - apply pushed_Forall; [by split | exact Hs].
  - destruct (headerMatch (trim line)) as [m|] eqn:E.
    + apply IH; [apply pushed_Forall; [by split | exact Hs]|]. simpl.
      pose proof (headerMatch_level _ _ E). lia.
    + by apply IH.
Qed.

(** X14: every section that [extractSections] returns has a content that
    is not blank and a level from 0 to 6. *)
Theorem extractSections_shape text :
  Forall (fun s => trim (content s) <> [] /\ 0 <= level s <= 6)
    (extractSections text).
Proof. apply sectionLoop_shape; [constructor | simpl; lia]. Qed.

(** Splitting at line feeds and closing each line with a line feed gives the
    text back, closed with a line feed. *)
Lemma lines_rejoined prev s cur :
  List.concat (List.map (fun line => line ++ [NEWLINE])
                 (splitAux reLineFeed prev s O cur))
  = rev cur ++ s ++ [NEWLINE].
Proof.
  revert prev cur. induction s as [|c r IH]; intros prev cur; simpl.
  - by rewrite app_nil_r.
  - destruct (c =? NEWLINE)%N eqn:E.
    + apply N.eqb_eq in E. subst c. simpl. rewrite IH. simpl.
      by rewrite <- app_assoc.
    + rewrite IH. simpl. by rewrite <- app_assoc.
Qed.

Lemma sectionLoop_plain lines currentSection :
  Forall (fun line => headerMatch (trim line) = None) lines ->
  sectionLoop lines [] currentSection
  = pushed []
      {| title := title currentSection;
         content := content currentSection
                    ++ List.concat (List.map (fun line => line ++ [NEWLINE]) lines);
         level := level currentSection |}.
Proof.
  intros H. revert currentSection.
  induction H as [|line rest Hline _ IH]; intros currentSection; simpl.
  - rewrite app_nil_r. by destruct currentSection.
  - rewrite Hline, IH. simpl. by rewrite <- !app_assoc.
Qed.

Lemma trim_closed s : trim (s ++ [NEWLINE]) = trim s.
Proof.
  unfold trim.
  destruct (Spec.hasInk s) eqn:E.
  - destruct (trimStart_head s E) as (a & u & Ea & Ha).
    assert (E1 : trimStart (s ++ [NEWLINE]) = trimStart s ++ [NEWLINE]).
    { clear Ea Ha. induction s as [|c r IH]; [done|]. simpl in *.
      destruct (is_space c); simpl in *; [by apply IH|done]. }
    rewrite E1. unfold trimEnd. by rewrite rev_app_distr.
  - assert (E1 : trimStart (s ++ [NEWLINE]) = []).
    { apply trimStart_nil. rewrite hasInk_app, E. done. }
    apply trimStart_nil in E. by rewrite E1, E.
Qed.

(** X15: a text with no header line is one section, untitled, of level 0,
    whose content is the text closed with a line feed; a blank text has no
    section. *)
Theorem extractSections_without_headers text :
  Forall (fun line => headerMatch (trim line) = None) (split reLineFeed text) ->
  extractSections text
  = match trim text with
    | [] => []
    | _ => [{| title := []; content := text ++ [NEWLINE]; level := 0 |}]
    end.
Proof.
  intros H. unfold extractSections. rewrite sectionLoop_plain by exact H.
  unfold split. rewrite lines_rejoined. simpl.
  unfold pushed. simpl. rewrite trim_closed. by destruct (trim text).
Qed.

End Outline.

(** An instance of X15: two lines that are not headers. *)
Lemma extractSections_without_headers_witness :
  Sections.extractSections Fixtures.plainLines
  = [{| Sections.title := [];
        Sections.content := Fixtures.plainLines ++ [NEWLINE];
        Sections.level := 0 |}].
Proof.
  apply (extractSections_without_headers Fixtures.plainLines).
  apply (Forall_of_forallb
           (fun line => match Sections.headerMatch (trim line) with
                        | None => true
                        | Some _ => false
                        end)).
  - intros line H. by destruct (Sections.headerMatch (trim line)).
  - vm_compute. reflexivity.
Defined.

(* ===================================================================== *)
(** * Storing a chunk: blank content and time                             *)
(* ===================================================================== *)

Lemma race_within {A} (call : Call A) limit message :
  fst (race call limit message) <= limit.
Proof. unfold race. destruct (Z.ltb_spec (duration call) limit); simpl; lia. Qed.

Section AddDocument.

Variable tools : Store.TextTools.
Variable storage : Store.Storage.
Variables (knowledgeSourceId agentId chunkIndex : Z).
Variables (sourceName sourceType : option jsstring).
Variable additionalMetadata : gmap string MetaValue.
Variable startTime : Z.

Abbreviation attemptOnce :=
  (Store.attemptOnce tools storage knowledgeSourceId agentId chunkIndex
     sourceName sourceType additionalMetadata startTime).
Abbreviation attemptLoop :=
  (Store.attemptLoop tools storage knowledgeSourceId agentId chunkIndex
     sourceName sourceType additionalMetadata startTime).
Abbreviation addDocument :=
  (Store.addDocument tools storage knowledgeSourceId agentId chunkIndex
     sourceName sourceType additionalMetadata startTime).

Lemma attemptOnce_blank attempt body clock :
  trim body = [] ->
  attemptOnce attempt body clock
  = (body, clock, Err "Content cannot be empty"%string, []).
Proof.
  intros H. unfold Store.attemptOnce. rewrite H. simpl.
  by rewrite orb_true_r.
Qed.

(** X16: [addDocument] refuses a content that is empty or blank at each of
    its three attempts, waits 1 and 2 seconds in between, and sends nothing
    to the index. *)
Theorem addDocument_refuses_blank body :
  trim body = [] ->
  addDocument body
  = {| Store.returned := Err "Content cannot be empty"%string;
       Store.finished := 3000;
       Store.attempts := [Err "Content cannot be empty"%string;
                          Err "Content cannot be empty"%string;
                          Err "Content cannot be empty"%string];
       Store.waits := [1000; 2000];
       Store.accepted := [] |}.
Proof.
  intros H. unfold Store.addDocument.
  change (Z.to_nat Store.maxRetries) with 3%nat. cbn [Store.attemptLoop].
  rewrite attemptOnce_blank by exact H. cbn.
  rewrite attemptOnce_blank by exact H. cbn.
  rewrite attemptOnce_blank by exact H. cbn. reflexivity.
Qed.

Lemma attemptOnce_within attempt body clock :
  snd (fst (fst (attemptOnce attempt body clock))) <= clock + 60000.
Proof.
  unfold Store.attemptOnce.
  destruct (_ || _); [simpl; lia|].
  pose proof (race_within (Store.createEmbedding storage attempt
                             (if 40000 <? len body then slice body 0 40000 else body))
                Store.EMBEDDING_TIMEOUT "Embedding generation timeout") as H1.
  destruct (race (Store.createEmbedding _ _ _) _ _)
    as [spent [embedding|message]]; simpl in H1;
    unfold Store.EMBEDDING_TIMEOUT in H1; [|simpl; lia].
  set (document := {| Store.id := _ |}).
  pose proof (race_within (Store.upsert storage attempt document)
                Store.UPSERT_TIMEOUT "Pinecone upsert timeout") as H2.
  destruct (race (Store.upsert _ _ _) _ _) as [spent' [u|message]];
    simpl in H2; unfold Store.UPSERT_TIMEOUT in H2; simpl; lia.
Qed.

(** X17: [addDocument] settles within 183 seconds of its start: three
    attempts of at most 30 + 30 seconds, and waits of 1 and 2 seconds. *)
Theorem addDocument_settles_in_time body :
  Store.finished (addDocument body) <= 183000.
Proof.
  unfold Store.addDocument.
  change (Z.to_nat Store.maxRetries) with 3%nat. cbn [Store.attemptLoop].
  change (1 <? Store.maxRetries) with true.
  change (1 + 1 <? Store.maxRetries) with true.
  change (1 + 1 + 1 <? Store.maxRetries) with false.
  change (Store.waitTime 1) with 1000.
  change (Store.waitTime (1 + 1)) with 2000. cbv iota.
  pose proof (attemptOnce_within 1 body 0) as H1.
  destruct (attemptOnce 1 body 0) as [[[b1 c1] [i1|m1]] d1]; cbn in *; [lia|].
  pose proof (attemptOnce_within (1 + 1) b1 (c1 + 1000)) as H2.
  destruct (attemptOnce (1 + 1) b1 (c1 + 1000))
    as [[[b2 c2] [i2|m2]] d2]; cbn in *; [lia|].
  pose proof (attemptOnce_within (1 + 1 + 1) b2 (c2 + 2000)) as H3.
  destruct (attemptOnce (1 + 1 + 1) b2 (c2 + 2000))
    as [[[b3 c3] [i3|m3]] d3]; cbn in *; lia.
Qed.

End AddDocument.

(** An instance of X16: a content of a space and a line feed. *)
Lemma addDocument_refuses_blank_witness :
  Store.addDocument Fixtures.plainTools Fixtures.promptStorage 7 3 0 None None
    ∅ 1700000000000 [SPACE; NEWLINE]
  = {| Store.returned := Err "Content cannot be empty"%string;
       Store.finished := 3000;
       Store.attempts := [Err "Content cannot be empty"%string;
                          Err "Content cannot be empty"%string;
                          Err "Content cannot be empty"%string];
       Store.waits := [1000; 2000];
       Store.accepted := [] |}.
Proof. apply addDocument_refuses_blank. reflexivity. Defined.

(* ===================================================================== *)
(** * Filters and deletion                                                *)
(* ===================================================================== *)

(** ** Filters *)

Lemma meetsAll_true conditions md :
  Store.meetsAll conditions md = true <->
  forall key condition,
    conditions !! key = Some condition -> Store.meets md key condition = true.
Proof.
  unfold Store.meetsAll. rewrite forallb_forall. split.
  - intros H key condition Hk. apply (H (key, condition)).
    apply list_elem_of_In. by apply elem_of_map_to_list.
  - intros H [key condition] Hin. simpl. apply H.
    apply elem_of_map_to_list. by apply list_elem_of_In.
Qed.

Lemma meets_eq_int md key v :
  Store.meets md key (Store.eq (MInt v)) = true <-> md !! key = Some (MInt v).
Proof.
  unfold Store.meets. destruct (md !! key) as [[|x| | | |]|]; split; try done.
  - intros H. apply Z.eqb_eq in H. by subst.
  - intros [= ->]. apply Z.eqb_refl.
Qed.

Lemma meetsAll_source agentId k md :
  Store.meetsAll (<["knowledge_source_id" := Store.eq (MInt k)]>
                    (<["agent_id" := Store.eq (MInt agentId)]> ∅)) md
  = match md !! "agent_id"%string, md !! "knowledge_source_id"%string with
    | Some (MInt a), Some (MInt s) => (a =? agentId) && (s =? k)
    | _, _ => false
    end.
Proof.
  apply eq_true_iff_eq. rewrite meetsAll_true. split.
  - intros H.
    pose proof (H "agent_id"%string (Store.eq (MInt agentId))) as Ha.
    pose proof (H "knowledge_source_id"%string (Store.eq (MInt k))) as Hk.
    rewrite lookup_insert_ne, lookup_insert_eq in Ha by done.
    rewrite lookup_insert_eq in Hk.
    apply meets_eq_int in Ha; [|done]. apply meets_eq_int in Hk; [|done].
    rewrite Ha, Hk. by rewrite !Z.eqb_refl.
  - intros H key condition Hkey.
    destruct (md !! "agent_id"%string) as [[|a| | | |]|] eqn:Ea; try done.
    destruct (md !! "knowledge_source_id"%string) as [[|s| | | |]|] eqn:Es;
      try done.
    apply andb_true_iff in H as [H1 H2].
    apply Z.eqb_eq in H1, H2. subst a s.
    destruct (decide (key = "knowledge_source_id"%string)) as [->|Hn1].
    { rewrite lookup_insert_eq in Hkey. injection Hkey as <-.
      by apply meets_eq_int. }
    rewrite lookup_insert_ne in Hkey by done.
    destruct (decide (key = "agent_id"%string)) as [->|Hn2].
    { rewrite lookup_insert_eq in Hkey. injection Hkey as <-.
      by apply meets_eq_int. }
    rewrite lookup_insert_ne in Hkey by done. done.
Qed.

Lemma meetsAll_agent agentId md :
  Store.meetsAll (<["agent_id" := Store.eq (MInt agentId)]> ∅) md
  = match md !! "agent_id"%string with
    | Some (MInt a) => a =? agentId
    | _ => false
    end.
Proof.
  apply eq_true_iff_eq. rewrite meetsAll_true. split.
  - intros H.
    pose proof (H "agent_id"%string (Store.eq (MInt agentId))) as Ha.
    rewrite lookup_insert_eq in Ha. apply meets_eq_int in Ha; [|done].
    rewrite Ha. apply Z.eqb_refl.
  - intros H key condition Hkey.
    destruct (md !! "agent_id"%string) as [[|a| | | |]|] eqn:Ea; try done.
    apply Z.eqb_eq in H. subst a.
    destruct (decide (key = "agent_id"%string)) as [->|Hn2].
    { rewrite lookup_insert_eq in Hkey. injection Hkey as <-.
      by apply meets_eq_int. }
    rewrite lookup_insert_ne in Hkey by done. done.
Qed.

(** ** Deletion *)

Lemma deleteDocuments_source agentId knowledgeSourceId index :
  Store.deleteDocuments None agentId (Some knowledgeSourceId) index
  = (Ok tt,
     List.filter (fun d => negb (Spec.belongsTo agentId knowledgeSourceId d))
       index).
Proof.
  unfold Store.deleteDocuments, Store.deleteMany. f_equal.
  apply filter_ext. intros d. by rewrite meetsAll_source.
Qed.

(** X18: [deleteDocuments] removes exactly the documents of the agent, or of
    the knowledge source of the agent when one is given, and keeps the
    others in their order; when the request fails the index is as before
    and the error is thrown again. *)
Theorem deleteDocuments_removes_exactly agentId index :
  (forall knowledgeSourceId,
      Store.deleteDocuments None agentId (Some knowledgeSourceId) index
      = (Ok tt,
         List.filter (fun d => negb (Spec.belongsTo agentId knowledgeSourceId d))
           index)) /\
  Store.deleteDocuments None agentId None index
  = (Ok tt, List.filter (fun d => negb (Spec.ownedBy agentId d)) index) /\
  (forall message knowledgeSourceId,
      Store.deleteDocuments (Some message) agentId knowledgeSourceId index
      = (Err message, index)).
Proof.
  split; [|split; [|done]].
  - intros k. apply deleteDocuments_source.
  - unfold Store.deleteDocuments, Store.deleteMany. f_equal.
    apply filter_ext. intros d. by rewrite meetsAll_agent.
Qed.

(** ** The filter of a search *)

Lemma pineconeFilter_agent agentId filters :
  Store.pineconeFilter agentId filters !! "agent_id"%string
  = Some (Store.eq (MInt agentId)).
Proof.
  unfold Store.pineconeFilter.
  repeat match goal with
         | |- context [if ?b then _ else _] => destruct b
         end;
    repeat (rewrite lookup_insert_ne by done); by rewrite lookup_insert_eq.
Qed.

(** X19: whatever the optional filters, the filter that [searchSimilar]
    sends to the index admits only metadata whose [agent_id] is the agent's. *)
Theorem search_filter_pins_agent agentId filters md :
  Store.meetsAll (Store.pineconeFilter agentId filters) md = true ->
  md !! "agent_id"%string = Some (MInt agentId).
Proof.
  intros H. rewrite meetsAll_true in H.
  apply meets_eq_int. apply H. apply pineconeFilter_agent.
Qed.

(** An instance of X19: the metadata of a chunk of agent 3, which the
    filter of a search of agent 3 admits. *)
Lemma search_filter_pins_agent_witness :
  default ∅ (Store.match_metadata (Fixtures.storedChunk 0.9)) !! "agent_id"%string
  = Some (MInt 3).
Proof.
  apply (search_filter_pins_agent 3 Store.noFilters).
  vm_compute. reflexivity.
Defined.

(* ===================================================================== *)
(** * Keywords and context                                                *)
(* ===================================================================== *)

(** ** Keywords of a query *)

(** The pieces between runs of white space hold no white space. *)
Lemma splitAux_words (P : N -> Prop) s :
  Forall (fun c => is_space c = false -> P c) s ->
  (forall prev cur, Forall P cur ->
     Forall (Forall P) (splitAux reSpaces prev s O cur)) /\
  (forall prev cur, Forall P cur ->
     Forall (Forall P) (splitAux reSpaces prev s (spanLength is_space s) cur)).
Proof.
  induction 1 as [|c r Hc Hr [IH0 IHk]].
  - split; intros prev cur Hcur; simpl; constructor; try constructor;
      by apply Forall_rev.
  - split; intros prev cur Hcur.
    + cbn [splitAux]. unfold reSpaces. cbn [spanLength].
      destruct (is_space c) eqn:E.
      * constructor; [by apply Forall_rev|]. by apply IHk.
      * apply IH0. constructor; [by apply Hc | exact Hcur].
    + cbn [spanLength]. destruct (is_space c) eqn:E.
      * cbn [splitAux]. by apply IHk.
      * cbn [splitAux]. unfold reSpaces. cbn [spanLength]. rewrite E.
        apply IH0. constructor; [by apply Hc | exact Hcur].
Qed.

Section Keywords.

Variable tools : Store.TextTools.

(** X20: [extractSearchKeywords] returns at most ten keywords, each of more
    than two code units, all of them letters, digits or underscores. *)
Theorem extractSearchKeywords_shape text :
  (length (Store.extractSearchKeywords tools text) <= 10)%nat /\
  Forall (fun word => 2 < len word /\ forallb Store.is_word word = true)
    (Store.extractSearchKeywords tools text).
Proof.
  unfold Store.extractSearchKeywords. split.
  - pose proof (arraySlice_prefix_length
                  (List.filter (fun word => 2 <? len word)
                     (split reSpaces
                        (List.map (fun c => if Store.is_word c || is_space c
                                            then c else SPACE)
                           (Store.toLowerCase tools text)))) 10 ltac:(lia)).
    lia.
  - apply arraySlice_Forall. apply List.Forall_forall. intros word Hw.
    apply List.filter_In in Hw as [Hin Hlen]. split; [by apply Z.ltb_lt|].
    clear Hlen. apply forallb_forall. apply List.Forall_forall. revert word Hin.
    apply List.Forall_forall. unfold split.
    apply (splitAux_words (fun c => Store.is_word c = true)); [|constructor].
    apply List.Forall_forall. intros c Hc.
    apply List.in_map_iff in Hc as (x & <- & _).
    destruct (Store.is_word x) eqn:Ew; simpl; [done|].
    destruct (is_space x) eqn:Es; [by rewrite Es | done].
Qed.

End Keywords.

(** ** The context of a result *)

Section Context.

Variable search : Store.Search.

Lemma withContext_id agentId contextWindow k r :
  Store.result_id (Store.withContext search agentId contextWindow k r)
  = Store.result_id r.
Proof.
  unfold Store.withContext.
  destruct (Store.generateEmbedding search (S k) []); [|done].
  by destruct (Store.query search (S k) _).
Qed.

Lemma withContext_failing agentId contextWindow k r :
  (forall request, exists message,
      Store.query search (S k) request = Err message) ->
  Store.withContext search agentId contextWindow k r = r.
Proof.
  intros H. unfold Store.withContext.
  destruct (Store.generateEmbedding search (S k) []); [|done].
  match goal with |- context [Store.query search (S k) ?q] =>
    destruct (H q) as (message & ->) end.
  done.
Qed.

Lemma mapIndexed_map {A B C} (f : nat -> A -> B) (g : B -> C) (h : A -> C) k l :
  (forall k x, g (f k x) = h x) ->
  List.map g (Store.mapIndexed f k l) = List.map h l.
Proof.
  intros H. revert k. induction l as [|x l IH]; intros k; simpl; [done|].
  by rewrite H, IH.
Qed.

Lemma mapIndexed_id {A} (f : nat -> A -> A) k l :
  (forall k x, f k x = x) -> Store.mapIndexed f k l = l.
Proof.
  intros H. revert k. induction l as [|x l IH]; intros k; simpl; [done|].
  by rewrite H, IH.
Qed.

(** X21: [contextualSearch] returns the results of the vector search at
    threshold 0.7, one for one with their ids and scores; when the queries
    for the context fail, the results are returned as they were. *)
Theorem contextualSearch_keeps_results text agentId limit contextWindow results :
  Store.searchSimilar search text agentId limit 0.7 Store.noFilters = Ok results ->
  exists enriched,
    Store.contextualSearch search text agentId limit contextWindow = Ok enriched /\
    List.map Store.result_id enriched = List.map Store.result_id results /\
    List.map Store.similarity enriched = List.map Store.similarity results /\
    ((forall k request, exists message,
         Store.query search (S k) request = Err message) ->
     enriched = results).
Proof.
  intros H. unfold Store.contextualSearch. rewrite H.
  eexists. split; [reflexivity|]. split; [|split].
  - apply mapIndexed_map. intros. apply withContext_id.
  - apply mapIndexed_map. intros. apply withContext_similarity.
  - intros Hf. apply mapIndexed_id. intros k r. by apply withContext_failing.
Qed.

End Context.

(** An instance of X21: an index that answers the search with one match
    and fails the queries for its context. *)
Lemma contextualSearch_keeps_results_witness :
  exists enriched,
    Store.contextualSearch (Fixtures.oneMatch 0.75) (js "alpha") 3 3 2
    = Ok enriched /\
    List.map Store.result_id enriched
    = List.map Store.result_id
        (Fixtures.foundBy
           (Store.searchSimilar (Fixtures.oneMatch 0.75) (js "alpha") 3 3 0.7
              Store.noFilters)) /\
    List.map Store.similarity enriched
    = List.map Store.similarity
        (Fixtures.foundBy
           (Store.searchSimilar (Fixtures.oneMatch 0.75) (js "alpha") 3 3 0.7
              Store.noFilters)) /\
    ((forall k request, exists message,
         Store.query (Fixtures.oneMatch 0.75) (S k) request = Err message) ->
     enriched
     = Fixtures.foundBy
         (Store.searchSimilar (Fixtures.oneMatch 0.75) (js "alpha") 3 3 0.7
            Store.noFilters)).
Proof.
  apply (contextualSearch_keeps_results (Fixtures.oneMatch 0.75) (js "alpha")
           3 3 2).
  vm_compute. reflexivity.
Defined.

(* ===================================================================== *)
(** * What an ingestion leaves in the index                               *)
(* ===================================================================== *)

Section Ingestion.

Variable tools : Store.TextTools.
Variable world : Processor.World.
Variables (sourceId agentId : Z).
Variable sourceData : Processor.SourceData.
Variable settings : Processor.Settings.
Variable startTime : Z.

Abbreviation processKnowledgeSource :=
  (Processor.processKnowledgeSource tools world sourceId agentId sourceData
     settings startTime).
Abbreviation recorded :=
  (Spec.recorded tools world sourceId agentId sourceData settings startTime).

(** X22: every document that [processKnowledgeSource] gets into the index
    carries the id of the agent and of the knowledge source, so that
    [deleteKnowledgeSource], called with these two ids, leaves it in no
    index. *)
Theorem ingested_documents_are_deletable fuel report made :
  processKnowledgeSource fuel = Some (report, made) ->
  Forall (fun call =>
            Forall (fun d =>
                      Spec.belongsTo agentId sourceId d = true /\
                      forall index,
                        ~ In d (snd (Processor.deleteKnowledgeSource None agentId
                                       sourceId index)))
              (Store.accepted (snd call))) made.
Proof.
  intros H.
  destruct (processKnowledgeSource_cases tools world sourceId agentId sourceData
              settings startTime fuel report made H)
    as [(-> & _)|(progress & chunks & clock & _ & _ & _ & _ & _ & Hrec & _)];
    [constructor|].
  apply List.Forall_forall. intros call Hcall.
  apply List.Forall_forall. intros d Hd.
  rewrite List.Forall_forall in Hrec.
  pose proof (recorded_belongsTo tools world sourceId agentId sourceData
                settings startTime call d (Hrec call Hcall) Hd) as Hb.
  split; [exact Hb|]. intros index Hin.
  unfold Processor.deleteKnowledgeSource in Hin.
  rewrite deleteDocuments_source in Hin. simpl in Hin.
  apply List.filter_In in Hin as [_ Hin]. by rewrite Hb in Hin.
Qed.

End Ingestion.

(** An instance of X22: the ingestion of the notes as source 7 of agent 3. *)
Lemma ingested_documents_are_deletable_witness :
  Forall (fun call =>
            Forall (fun d =>
                      Spec.belongsTo 3 7 d = true /\
                      forall index,
                        ~ In d (snd (Processor.deleteKnowledgeSource None 3 7
                                       index)))
              (Store.accepted (snd call)))
    (snd (Fixtures.returnedBy (Fixtures.ingestNotes Fixtures.promptStorage))).
Proof.
  apply (ingested_documents_are_deletable Fixtures.plainTools
           (Fixtures.worldWith Fixtures.promptStorage) 7 3 Fixtures.notes
           Fixtures.smallParagraphs 1700000000000 0
           (fst (Fixtures.returnedBy (Fixtures.ingestNotes Fixtures.promptStorage)))).
  vm_compute. reflexivity.
Defined.

(* ===================================================================== *)
(** * Cleaning a text                                                     *)
(* ===================================================================== *)

Section Cleaning.

Import Helpers.

Lemma singleSpaced_weaken s : Spec.singleSpaced true s = true -> Spec.singleSpaced false s = true.
Proof.
  destruct s as [|c r]; [done|]. simpl. destruct (is_space c); [|done].
  rewrite andb_false_r. done.
Qed.

Lemma singleSpaced_start s :
  Spec.singleSpaced true s = true -> spanLength is_space s = O.
Proof.
  destruct s as [|c r]; [done|]. simpl. destruct (is_space c); [|done].
  rewrite andb_false_r. done.
Qed.

Lemma collapsed prev s :
  Spec.singleSpaced false (replaceAux reSpaces [SPACE] prev s O) = true /\
  Spec.singleSpaced true
    (replaceAux reSpaces [SPACE] prev s (spanLength is_space s)) = true.
Proof.
  revert prev. induction s as [|c r IH]; intros prev; [done|].
  cbn [replaceAux spanLength]. unfold reSpaces at 1. cbn [spanLength].
  destruct (is_space c) eqn:E.
  - destruct (IH (Some c)) as [_ H]. split; [|exact H].
    cbn [app Spec.singleSpaced]. exact H.
  - unfold reSpaces. cbn [spanLength]. rewrite E.
    destruct (IH (Some c)) as [H _].
    cbn [Spec.singleSpaced]. rewrite E. by split.
Qed.

Lemma singleSpaced_lineFeeds afterSpace prev s :
  Spec.singleSpaced afterSpace s = true ->
  replaceAux reLineFeeds [NEWLINE] prev s O = s.
Proof.
  revert afterSpace prev. induction s as [|c r IH]; intros afterSpace prev H; [done|].
  cbn [replaceAux]. unfold reLineFeeds at 1. cbn [spanLength].
  cbn [Spec.singleSpaced] in H.
  destruct (N.eqb_spec c NEWLINE) as [->|Hc].
  - by rewrite andb_false_l in H.
  - destruct (is_space c).
    + apply andb_true_iff in H as [_ H]. by rewrite (IH _ _ H).
    + by rewrite (IH _ _ H).
Qed.

Lemma singleSpaced_spaces afterSpace prev s :
  Spec.singleSpaced afterSpace s = true ->
  replaceAux reSpaces [SPACE] prev s O = s.
Proof.
  revert afterSpace prev. induction s as [|c r IH]; intros afterSpace prev H; [done|].
  cbn [replaceAux]. unfold reSpaces at 1. cbn [spanLength].
  cbn [Spec.singleSpaced] in H.
  destruct (is_space c).
  - apply andb_true_iff in H as [Hc H]. apply andb_true_iff in Hc as [Hc _].
    apply N.eqb_eq in Hc. subst c.
    rewrite (singleSpaced_start _ H). simpl.
    by rewrite (IH _ _ (singleSpaced_weaken _ H)).
  - by rewrite (IH _ _ H).
Qed.

Lemma singleSpaced_trimStart afterSpace s :
  Spec.singleSpaced afterSpace s = true ->
  Spec.singleSpaced false (trimStart s) = true.
Proof.
  revert afterSpace. induction s as [|c r IH]; intros afterSpace H; [done|].
  cbn [trimStart]. cbn [Spec.singleSpaced] in H.
  destruct (is_space c) eqn:E.
  - apply andb_true_iff in H as [_ H]. by apply (IH true).
  - cbn [Spec.singleSpaced]. by rewrite E.
Qed.

Lemma singleSpaced_prefix afterSpace s t :
  Spec.singleSpaced afterSpace (s ++ t) = true ->
  Spec.singleSpaced afterSpace s = true.
Proof.
  revert afterSpace. induction s as [|c r IH]; intros afterSpace H; [done|].
  simpl in *. destruct (is_space c).
  - apply andb_true_iff in H as [Hc H]. rewrite Hc. by apply IH.
  - by apply IH.
Qed.

Lemma trimStart_suffix s : exists w, s = w ++ trimStart s.
Proof.
  induction s as [|c r (w & IH)]; [by exists []|]. simpl.
  destruct (is_space c); [|by exists []].
  exists (c :: w). simpl. by rewrite <- IH.
Qed.

Lemma trimEnd_prefix s : exists w, s = trimEnd s ++ w.
Proof.
  unfold trimEnd. destruct (trimStart_suffix (rev s)) as (w & E).
  exists (rev w). rewrite <- rev_app_distr, <- E. by rewrite rev_involutive.
Qed.

Lemma singleSpaced_trim afterSpace s :
  Spec.singleSpaced afterSpace s = true ->
  Spec.singleSpaced false (trim s) = true.
Proof.
  intros H. unfold trim.
  apply singleSpaced_trimStart in H.
  destruct (trimEnd_prefix (trimStart s)) as (w & E).
  rewrite E in H. by apply singleSpaced_prefix in H.
Qed.

Lemma trim_trim s : trim (trim s) = trim s.
Proof.
  destruct (Spec.hasInk s) eqn:E.
  - pose proof (trim_tight s E) as Ht.
    pose proof (trim_around [] (trim s) [] Ht) as H.
    rewrite app_nil_r in H. simpl in H. rewrite H.
    unfold trimEnd. simpl. by rewrite app_nil_r.
  - apply trim_nil in E. by rewrite E.
Qed.

Lemma cleanText_single text :
  Spec.singleSpaced false (cleanText text) = true.
Proof.
  unfold cleanText, replaceAll.
  destruct (collapsed None text) as [H _].
  rewrite (singleSpaced_lineFeeds _ _ _ H). by apply (singleSpaced_trim false).
Qed.

(** X23: [cleanText] leaves white space only as single spaces between
    words (no line feed, no tab, no run of spaces, nothing to trim), and
    cleaning a cleaned text changes nothing. *)
Theorem cleanText_normalises text :
  Spec.singleSpaced false (cleanText text) = true /\
  trim (cleanText text) = cleanText text /\
  cleanText (cleanText text) = cleanText text.
Proof.
  pose proof (cleanText_single text) as H.
  split; [exact H|]. split; [unfold cleanText; apply trim_trim|].
  unfold cleanText at 1. unfold replaceAll.
  rewrite (singleSpaced_spaces _ _ _ H), (singleSpaced_lineFeeds _ _ _ H).
  unfold cleanText. apply trim_trim.
Qed.

(** The second replacement of [cleanText] never finds a line feed. *)
Lemma cleanText_second_replace text :
  cleanText text = trim (replaceAll reSpaces [SPACE] text).
Proof.
  unfold cleanText, replaceAll at 1.
  destruct (collapsed None text) as [H _].
  by rewrite (singleSpaced_lineFeeds _ _ _ H).
Qed.

End Cleaning.

(* ===================================================================== *)
(** * Plain windows and video links                                       *)
(* ===================================================================== *)

Section Simple.

Import Helpers.

Lemma chunkTextSimpleLoop_stuck fuel text chunkSize overlap index chunkIndex chunks :
  chunkSize <= overlap -> index <= 0 -> 0 < len text ->
  chunkTextSimpleLoop fuel text chunkSize overlap index chunkIndex chunks = None.
Proof.
  intros Ho. revert index chunkIndex chunks.
  induction fuel as [|fuel IH]; intros index chunkIndex chunks Hi Ht; [done|].
  cbn [chunkTextSimpleLoop].
  destruct (Z.ltb_spec index (len text)); [|lia].
  destruct (Z.leb_spec (len text) (index + (chunkSize - overlap))); [lia|].
  apply IH; lia.
Qed.

Lemma chunkTextSimpleLoop_ends fuel text chunkSize overlap index chunkIndex chunks :
  overlap < chunkSize -> 0 <= index ->
  Z.max 0 (len text - index) < Z.of_nat fuel ->
  exists result,
    chunkTextSimpleLoop fuel text chunkSize overlap index chunkIndex chunks
    = Some result.
Proof.
  intros Ho. revert index chunkIndex chunks.
  induction fuel as [|fuel IH]; intros index chunkIndex chunks Hi Hf; [lia|].
  cbn [chunkTextSimpleLoop].
  destruct (Z.ltb_spec index (len text)); [|by eexists].
  destruct (Z.leb_spec (len text) (index + (chunkSize - overlap))); [by eexists|].
  apply IH; lia.
Qed.

(** X24: [chunkTextSimple] returns exactly when the text is empty or the
    overlap is smaller than the chunk size; otherwise its loop never ends. *)
Theorem chunkTextSimple_returns_iff text chunkSize overlap :
  (exists fuel chunks, chunkTextSimple fuel text chunkSize overlap = Some chunks)
  <-> text = [] \/ overlap < chunkSize.
Proof.
  unfold chunkTextSimple. split.
  - intros (fuel & chunks & H).
    destruct text as [|c r]; [by left|]. right.
    destruct (Z.lt_ge_cases overlap chunkSize) as [|Hge]; [done|].
    rewrite chunkTextSimpleLoop_stuck in H; [done | lia | lia |].
    unfold len. simpl. lia.
  - intros [->|Ho].
    + by exists 1%nat, [].
    + destruct (chunkTextSimpleLoop_ends (S (length text)) text chunkSize overlap
                  0 0 [] Ho ltac:(lia)) as (result & E).
      { unfold len. lia. }
      exists (S (length text)). rewrite E. by eexists.
Qed.

End Simple.

Section YouTube.

Import Helpers.

Lemma forallb_span p (s : jsstring) : forallb p (firstn (spanLength p s) s) = true.
Proof.
  induction s as [|c r IH]; [done|]. simpl.
  destruct (p c) eqn:E; [|done]. simpl. by rewrite E.
Qed.

Lemma captureId_shape s videoId :
  captureId s = Some videoId ->
  videoId <> [] /\ forallb is_idChar videoId = true.
Proof.
  unfold captureId. destruct (spanLength is_idChar s) as [|n] eqn:E; [done|].
  intros [= <-]. split.
  - destruct s as [|c r]; [done|]. done.
  - rewrite <- E. apply forallb_span.
Qed.

Lemma searchFrom_found {A} (f : jsstring -> option A) (P : A -> Prop) s x :
  (forall t y, f t = Some y -> P y) -> searchFrom f s = Some x -> P x.
Proof.
  intros Hf. induction s as [|c r IH]; simpl.
  - destruct (f []) eqn:E; [|done]. intros [= <-]. eauto.
  - destruct (f (c :: r)) eqn:E; [intros [= <-]; eauto | exact IH].
Qed.

Lemma directId_shape s videoId :
  directId s = Some videoId ->
  videoId <> [] /\ forallb is_idChar videoId = true.
Proof.
  unfold directId. generalize [js "youtube.com/watch?v="; js "youtu.be/";
                                js "youtube.com/embed/"].
  intros alternatives. induction alternatives as [|a more IH]; [done|].
  cbn [firstAlternative]. destruct (afterLiteral s a); [|exact IH].
  destruct (captureId _) eqn:E; [|exact IH].
  intros [= <-]. by apply captureId_shape in E.
Qed.

Lemma lastParameter_shape rest reach videoId :
  lastParameter rest reach = Some videoId ->
  videoId <> [] /\ forallb is_idChar videoId = true.
Proof.
  induction reach as [|reach IH]; cbn [lastParameter].
  - destruct (afterLiteral _ _); [|done].
    destruct (captureId _) eqn:E; [|done]. intros [= <-].
    by apply captureId_shape in E.
  - destruct (afterLiteral _ _); [|exact IH].
    destruct (captureId _) eqn:E; [|exact IH]. intros [= <-].
    by apply captureId_shape in E.
Qed.

(** X25: a video id that [extractYouTubeId] returns is not empty and holds
    none of [&], [?], [#] and the line feed. *)
Theorem extractYouTubeId_shape url videoId :
  extractYouTubeId url = Some videoId ->
  videoId <> [] /\ forallb is_idChar videoId = true.
Proof.
  unfold extractYouTubeId.
  destruct (searchFrom directId url) as [found|] eqn:E.
  - intros [= <-].
    exact (searchFrom_found directId
             (fun y => y <> [] /\ forallb is_idChar y = true) url found
             directId_shape E).
  - apply (searchFrom_found parameterId
             (fun y => y <> [] /\ forallb is_idChar y = true)).
    intros t y. unfold parameterId.
    destruct (afterLiteral _ _); [|done]. apply lastParameter_shape.
Qed.

Lemma spanLength_run p (s t : jsstring) :
  forallb p s = true ->
  (t = [] \/ exists c r, t = c :: r /\ p c = false) ->
  spanLength p (s ++ t) = length s.
Proof.
  intros Hs Ht. induction s as [|c r IH]; simpl.
  - destruct Ht as [->|(c & r & -> & Hc)]; [done|]. simpl. by rewrite Hc.
  - simpl in Hs. apply andb_true_iff in Hs as [Hc Hs]. rewrite Hc. f_equal. by apply IH.
Qed.

Lemma captureId_run videoId tail :
  videoId <> [] -> forallb is_idChar videoId = true ->
  (tail = [] \/ exists c r, tail = c :: r /\ is_idChar c = false) ->
  captureId (videoId ++ tail) = Some videoId.
Proof.
  intros Hne Hid Ht. unfold captureId.
  rewrite (spanLength_run _ _ _ Hid Ht).
  destruct videoId as [|c r]; [done|].
  change (length (c :: r)) with (S (length r)).
  f_equal. change (S (length r)) with (length (c :: r)).
  by rewrite take_app_length.
Qed.

Lemma startsWith_app pat s : startsWith (pat ++ s) pat = true.
Proof.
  induction pat as [|p pat IH]; [by destruct s|].
  simpl. by rewrite N.eqb_refl.
Qed.

Lemma afterLiteral_app pat s : afterLiteral (pat ++ s) pat = Some s.
Proof.
  unfold afterLiteral. rewrite startsWith_app. f_equal.
  by rewrite drop_app_length.
Qed.

Lemma searchFrom_here {A} (f : jsstring -> option A) s x :
  f s = Some x -> searchFrom f s = Some x.
Proof. intros H. destruct s; simpl; by rewrite H. Qed.

Lemma searchFrom_after {A} (f : jsstring -> option A) prefix s :
  (forall k, (k < length prefix)%nat -> f (skipn k prefix ++ s) = None) ->
  searchFrom f (prefix ++ s) = searchFrom f s.
Proof.
  induction prefix as [|c r IH]; intros H; [done|].
  pose proof (H O ltac:(simpl; lia)) as H0. simpl in H0.
  simpl. rewrite H0.
  apply IH. intros k Hk. apply (H (S k)). simpl. lia.
Qed.

Lemma below_cases (P : nat -> Prop) n :
  Forall P (seq 0 n) -> forall k, (k < n)%nat -> P k.
Proof.
  intros H k Hk. rewrite List.Forall_forall in H. apply H.
  apply in_seq. lia.
Qed.

(** X26: [extractYouTubeId] reads the id back from a watch link and from a
    short link, whatever follows the id after an [&], [?], [#] or line
    feed. *)
Theorem extractYouTubeId_reads_links (videoId tail : jsstring) :
  videoId <> [] -> forallb is_idChar videoId = true ->
  (tail = [] \/ exists c r, tail = c :: r /\ is_idChar c = false) ->
  extractYouTubeId (js "https://www.youtube.com/watch?v=" ++ videoId ++ tail)
  = Some videoId /\
  extractYouTubeId (js "https://youtu.be/" ++ videoId ++ tail) = Some videoId.
Proof.
  intros Hne Hid Ht. pose proof (captureId_run videoId tail Hne Hid Ht) as H.
  unfold extractYouTubeId. remember (videoId ++ tail) as rest eqn:Erest.
  split.
  - assert (E : searchFrom directId (js "https://www.youtube.com/watch?v=" ++ rest)
                = Some videoId).
    { change (js "https://www.youtube.com/watch?v=" ++ rest)
        with (js "https://www." ++ (js "youtube.com/watch?v=" ++ rest)).
      rewrite searchFrom_after.
      - apply searchFrom_here. unfold directId. cbn [firstAlternative].
        by rewrite afterLiteral_app, H.
      - apply below_cases. repeat constructor. }
    by rewrite E.
  - assert (E : searchFrom directId (js "https://youtu.be/" ++ rest)
                = Some videoId).
    { change (js "https://youtu.be/" ++ rest)
        with (js "https://" ++ (js "youtu.be/" ++ rest)).
      rewrite searchFrom_after.
      - apply searchFrom_here. unfold directId. cbn [firstAlternative].
        replace (afterLiteral (js "youtu.be/" ++ rest) (js "youtube.com/watch?v="))
          with (@None jsstring) by reflexivity.
        by rewrite afterLiteral_app, H.
      - apply below_cases. repeat constructor. }
    by rewrite E.
Qed.

End YouTube.

(** An instance of X25: the id of an embed link. *)
Lemma extractYouTubeId_shape_witness :
  Fixtures.videoId <> [] /\
  forallb Helpers.is_idChar Fixtures.videoId = true.
Proof.
  apply (extractYouTubeId_shape
           (js "https://www.youtube.com/embed/dQw4w9WgXcQ?start=10")).
  vm_compute. reflexivity.
Defined.

(** An instance of X26: an id followed by a time parameter. *)
Lemma extractYouTubeId_reads_links_witness :
  Helpers.extractYouTubeId
    (js "https://www.youtube.com/watch?v=" ++ Fixtures.videoId ++ js "&t=10s")
  = Some Fixtures.videoId /\
  Helpers.extractYouTubeId
    (js "https://youtu.be/" ++ Fixtures.videoId ++ js "&t=10s")
  = Some Fixtures.videoId.
Proof.
  apply extractYouTubeId_reads_links.
  - discriminate.
  - reflexivity.
  - right. exists 38%N, (js "t=10s"). split; reflexivity.
Defined.

(* ===================================================================== *)
(** * Retries of a job                                                    *)
(* ===================================================================== *)

Section Retry.

Import Pipeline.

Variable Database : Type.
Variable updateProgress : Z -> Z -> string -> string -> Database -> Database.
Variable processKnowledgeSourcePinecone : Z -> Database -> Database * result unit.

Lemma retryWaits_next n :
  Spec.retryWaits n ++ [retryWait (Z.of_nat n + 1)] = Spec.retryWaits (S n).
Proof.
  unfold Spec.retryWaits. rewrite seq_S, List.map_app. simpl.
  do 3 f_equal. lia.
Qed.

Lemma retryLoop_structure sourceId maxRetries remaining attempt db tried waited
      lastError :
  Z.of_nat (S remaining) = maxRetries - attempt + 1 ->
  Z.of_nat (length tried) = attempt - 1 ->
  Forall (fun o => isOk o = false) tried ->
  waited = Spec.retryWaits (length tried) ->
  let run := retryLoop Database updateProgress processKnowledgeSourcePinecone
               (S remaining) sourceId maxRetries attempt db tried waited
               lastError in
  (Z.of_nat (length (attempts run)) <= maxRetries) /\
  waits run = Spec.retryWaits (length (attempts run) - 1) /\
  (outcome run = Ok tt ->
   exists failed, attempts run = failed ++ [Ok tt] /\
                  Forall (fun o => isOk o = false) failed) /\
  (forall message,
      outcome run = Err message ->
      Z.of_nat (length (attempts run)) = maxRetries /\
      Forall (fun o => isOk o = false) (attempts run) /\
      exists failed, attempts run = failed ++ [Err message]).
Proof.
  revert attempt db tried waited lastError.
  assert (Hlast : forall tried (o : result unit),
             (length (tried ++ [o]) - 1)%nat = length tried).
  { intros. rewrite length_app. simpl. lia. }
  induction remaining as [|remaining IH];
    intros attempt db tried waited lastError Hr Ht Hf Hw;
    cbn [retryLoop]; cbv zeta;
    destruct (processKnowledgeSourcePinecone attempt _) as [db' [[]|message]].
  - cbn [attempts waits outcome]. rewrite Hlast, length_app. simpl length.
    split; [lia|]. split; [done|]. split; [by exists tried | done].
  - destruct (Z.ltb_spec attempt maxRetries); [lia|].
    cbn [attempts waits outcome]. rewrite Hlast, length_app. simpl length.
    split; [lia|]. split; [done|]. split; [done|].
    intros m [= <-]. split; [lia|]. split; [|by exists tried].
    apply Forall_app. split; [done|]. by constructor.
  - cbn [attempts waits outcome]. rewrite Hlast, length_app. simpl length.
    split; [lia|]. split; [done|]. split; [by exists tried | done].
  - destruct (Z.ltb_spec attempt maxRetries); [|lia].
    apply (IH (attempt + 1) _ _ _ (Some message)).
    + lia.
    + rewrite length_app. simpl. lia.
    + apply Forall_app. split; [done|]. by constructor.
    + rewrite length_app. simpl length. rewrite Hw.
      replace (length tried + 1)%nat with (S (length tried)) by lia.
      rewrite <- retryWaits_next. do 3 f_equal. lia.
Qed.

(** X27: one delivery of a job runs the pipeline at most [maxRetries] times,
    stops at the first run that succeeds, waits [min(1000 * 2^(k-1), 30000)]
    milliseconds after the failed run [k] when another follows, and throws
    the error of the last run when all have failed. *)
Theorem job_retries_within_a_delivery sourceId maxRetries db :
  let run := processKnowledgeSourcePineconeWithRetry Database updateProgress
               processKnowledgeSourcePinecone sourceId maxRetries db in
  Z.of_nat (length (attempts run)) <= Z.max 0 maxRetries /\
  waits run = Spec.retryWaits (length (attempts run) - 1) /\
  (outcome run = Ok tt ->
   exists failed, attempts run = failed ++ [Ok tt] /\
                  Forall (fun o => isOk o = false) failed) /\
  (forall message,
      outcome run = Err message ->
      Z.of_nat (length (attempts run)) = Z.max 0 maxRetries /\
      Forall (fun o => isOk o = false) (attempts run) /\
      (0 < maxRetries -> exists failed, attempts run = failed ++ [Err message])).
Proof.
  unfold processKnowledgeSourcePineconeWithRetry.
  destruct (Z.to_nat maxRetries) as [|remaining] eqn:E.
  - simpl. split; [lia|]. split; [done|]. split; [done|].
    intros message _. split; [lia|]. split; [constructor | lia].
  - pose proof (retryLoop_structure sourceId maxRetries remaining 1 db [] [] None
                  ltac:(lia) ltac:(simpl; lia) ltac:(constructor) ltac:(done))
      as (H1 & H2 & H3 & H4).
    split; [lia|]. split; [exact H2|]. split; [exact H3|].
    intros message Hm. destruct (H4 message Hm) as (Ha & Hb & Hc).
    split; [lia|]. split; [exact Hb | by intros _].
Qed.

End Retry.

(* ===================================================================== *)
(** * The prompt of an execution                                          *)
(* ===================================================================== *)

Section Prompt.

Import Pipeline.

Variable show : MetaValue -> jsstring.
Variable tools : Store.TextTools.
Variable search : Store.Search.

Lemma arraySlice_nil {A} a b : arraySlice (@nil A) a b = [].
Proof. unfold arraySlice. by rewrite skipn_nil, firstn_nil. Qed.

(** An index that fails or finds nothing. *)
Lemma searchSimilar_nothing text agentId limit threshold filters :
  (forall request,
      (exists message, Store.query search 0 request = Err message) \/
      Store.query search 0 request = Ok (Some []) \/
      Store.query search 0 request = Ok None) ->
  (exists message,
      Store.searchSimilar search text agentId limit threshold filters
      = Err message) \/
  Store.searchSimilar search text agentId limit threshold filters = Ok [].
Proof.
  intros H. unfold Store.searchSimilar.
  destruct (Store.generateEmbedding search 0 text); [|left; by eexists].
  match goal with |- context [Store.query search 0 ?r] =>
    destruct (H r) as [(message & ->)|[-> | ->]] end;
    [left; by eexists | right | right]; simpl; by rewrite arraySlice_nil.
Qed.

Lemma findRelevantChunks_nothing text agentId maxChunks threshold strategy
      enableContextual filters :
  (forall request,
      (exists message, Store.query search 0 request = Err message) \/
      Store.query search 0 request = Ok (Some []) \/
      Store.query search 0 request = Ok None) ->
  Processor.findRelevantChunks tools search text agentId maxChunks threshold
    strategy enableContextual filters = Ok [].
Proof.
  intros H. unfold Processor.findRelevantChunks, Processor.delegated.
  destruct strategy.
  - destruct (searchSimilar_nothing text agentId maxChunks threshold filters H)
      as [(message & ->)| ->]; reflexivity.
  - unfold Store.hybridSearch.
    destruct (searchSimilar_nothing text agentId (maxChunks * 2) 0.5%float
                Store.noFilters H) as [(message & ->)| ->]; [reflexivity|].
    simpl. by rewrite arraySlice_nil.
  - unfold Store.contextualSearch.
    destruct (searchSimilar_nothing text agentId maxChunks 0.7%float
                Store.noFilters H) as [(message & ->)| ->]; reflexivity.
  - unfold Store.hybridSearch.
    destruct (searchSimilar_nothing text agentId (maxChunks * 2) 0.5%float
                Store.noFilters H) as [(message & ->)| ->]; [reflexivity|].
    simpl. by rewrite arraySlice_nil.
Qed.

(** X28: the message sent to the model always ends with the user's message;
    it is the user's message alone when RAG is off, and when the index
    fails or finds nothing. *)
Theorem prompt_keeps_the_question knowledgeSettings agentId message :
  (exists before,
      withKnowledge show tools search knowledgeSettings agentId message
      = before ++ message) /\
  withKnowledge show tools search None agentId message = message /\
  ((forall request,
       (exists failure, Store.query search 0 request = Err failure) \/
       Store.query search 0 request = Ok (Some []) \/
       Store.query search 0 request = Ok None) ->
   withKnowledge show tools search knowledgeSettings agentId message = message).
Proof.
  split; [|split; [reflexivity|]].
  - unfold withKnowledge. destruct knowledgeSettings as [settings|]; [|by exists []].
    destruct (Processor.findRelevantChunks _ _ _ _ _ _ _ _ _) as [chunks|];
      [|by exists []].
    unfold contextMessage. destruct chunks as [|c chunks]; [by exists []|].
    eexists. rewrite !app_assoc. reflexivity.
  - intros H. unfold withKnowledge.
    destruct knowledgeSettings as [settings|]; [|reflexivity].
    by rewrite findRelevantChunks_nothing.
Qed.

(** X29: for settings whose search strategy is absent or one of those that
    the settings endpoint accepts, an execution makes [findRelevantChunks]
    run the hybrid search with weights 0.8 and 0.2, which is given neither
    the threshold nor the filters. *)
Theorem accepted_strategies_search_hybrid settings text agentId maxChunks
        threshold filters :
  (forall name,
      search_strategy settings = Some name -> In name acceptedSearchStrategies) ->
  Processor.delegated tools search text agentId maxChunks threshold
    (searchStrategyOf (strategyArgument settings)) filters
  = Store.hybridSearch tools search text agentId maxChunks 0.8 0.2.
Proof.
  intros H. unfold strategyArgument.
  destruct (search_strategy settings) as [name|]; [|reflexivity].
  destruct (H name eq_refl) as [<-|[<-|[<-|[]]]]; reflexivity.
Qed.

End Prompt.

(** An instance of X29: settings that ask for the cosine strategy, with a
    threshold of 0.7. *)
Lemma accepted_strategies_search_hybrid_witness :
  Processor.delegated Fixtures.plainTools Fixtures.noMatch (js "alpha") 3 5 0.7
    (Pipeline.searchStrategyOf
       (Pipeline.strategyArgument Fixtures.cosineSettings))
    Store.noFilters
  = Store.hybridSearch Fixtures.plainTools Fixtures.noMatch (js "alpha") 3 5
      0.8 0.2.
Proof.
  apply accepted_strategies_search_hybrid.
  intros name [= <-]. left. reflexivity.
Defined.

(** ** supportsCustomTemperature *)

Lemma startsWith_prefix s p q : startsWith s (p ++ q) = true -> startsWith s p = true.
Proof.
  revert s. induction p as [|a p IH]; intros s; [by destruct s|].
  destruct s as [|c s]; [done|]. simpl.
  intros H. apply andb_true_iff in H as [-> H]. by apply IH.
Qed.

Lemma indexOfFrom_prefix s p q i :
  0 <= indexOfFrom s (p ++ q) i -> 0 <= i -> 0 <= indexOfFrom s p i.
Proof.
  revert i. induction s as [|c r IH]; intros i; cbn [indexOfFrom].
  - destruct (startsWith [] (p ++ q)) eqn:E; [|intros; lia].
    by rewrite (startsWith_prefix _ _ _ E).
  - destruct (startsWith (c :: r) (p ++ q)) eqn:E.
    + by rewrite (startsWith_prefix _ _ _ E).
    + intros H Hi. destruct (startsWith (c :: r) p); [lia|]. apply IH; [exact H | lia].
Qed.

Lemma includes_prefix s p q : includes s (p ++ q) = true -> includes s p = true.
Proof.
  unfold includes, indexOf. intros H. apply Z.leb_le. apply Z.leb_le in H.
  by apply (indexOfFrom_prefix s p q 0).
Qed.

(** X30: [supportsCustomTemperature] holds of a model exactly when its name
    contains neither [o1] nor [o3]. *)
Theorem supportsCustomTemperature_iff model :
  Pipeline.supportsCustomTemperature model
  = negb (includes model (js "o1") || includes model (js "o3")).
Proof.
  unfold Pipeline.supportsCustomTemperature, Pipeline.restrictedModels.
  cbn [existsb].
  pose proof (includes_prefix model (js "o1") (js "-preview")) as H1.
  pose proof (includes_prefix model (js "o1") (js "-mini")) as H2.
  pose proof (includes_prefix model (js "o3") (js "-mini")) as H3.
  change (js "o1" ++ js "-preview") with (js "o1-preview") in H1.
  change (js "o1" ++ js "-mini") with (js "o1-mini") in H2.
  change (js "o3" ++ js "-mini") with (js "o3-mini") in H3.
  destruct (includes model (js "o1")); [done|].
  destruct (includes model (js "o1-preview")); [by discriminate H1|].
  destruct (includes model (js "o1-mini")); [by discriminate H2|].
  destruct (includes model (js "o3")); [done|].
  destruct (includes model (js "o3-mini")); [by discriminate H3|]. done.
Qed.
